(** * Verification of the circuit loader (src/simulator/src/data/load.ts)

    A shallow embedding of [rectifyObjectType], [loadModule],
    [removeBugNodes], [loadScope] and [load].  JavaScript objects live in a
    store ([World]); functions of the loader become state transformers in a
    small error monad ([result]).  Code that load.ts imports from other
    modules (the module table, [replace], [Node.delete], [loadNode], ...)
    is taken as a parameter ([Imports]); where a theorem needs a concrete
    collaborator, a definition marked "Modelled from the spec" is used, or
    the theorem states what it needs of the collaborator as a hypothesis. *)

From Stdlib Require Import ZArith List String Lia Permutation.
From stdpp Require Import base option list gmap strings pretty sorting.

Local Open Scope string_scope.
Local Open Scope Z_scope.

(** ** JavaScript values *)

(** Object identity: every Node, Scope and other heap object has a
    reference. *)
Definition ref := nat.
Bind Scope nat_scope with ref.

(** The values that flow through the loader.  Numbers are modelled by the
    integers (all numbers the loader computes with are integers; NaN and
    fractions are outside the model). *)
#[warnings="-register-all"]
Inductive jsval : Type :=
  | JUndefined
  | JBool (b : bool)
  | JNum (n : Z)
  | JStr (s : string)
  | JNode (r : ref)            (* reference to a live Node object *)
  | JArr (vs : list jsval)     (* an array *)
  | JObj (r : ref).            (* reference to any other object *)

(** ToBoolean: [undefined], [false], [0] and the empty string are falsy. *)
Definition truthy (v : jsval) : bool :=
  match v with
  | JUndefined => false
  | JBool b => b
  | JNum n => negb (n =? 0)
  | JStr s => negb (String.eqb s "")
  | JNode _ | JArr _ | JObj _ => true
  end.

(** [a || b] *)
Definition js_or (a b : jsval) : jsval := if truthy a then a else b.

(** An optional field [f?: number] read as a value. *)
Definition of_num (o : option Z) : jsval :=
  match o with Some n => JNum n | None => JUndefined end.

(** An optional field [f?: string] read as a value. *)
Definition of_str (o : option string) : jsval :=
  match o with Some s => JStr s | None => JUndefined end.

(** Property read [o[k]] on an object given by its own properties. *)
Definition get_prop (o : gmap string jsval) (k : string) : jsval :=
  default JUndefined (o !! k).

(** [a[i] = v] on a JavaScript array: in range it overwrites, out of range
    the array is extended (holes read as [undefined]). *)
Definition js_array_set (vs : list jsval) (i : nat) (v : jsval) : list jsval :=
  if decide (i < length vs)%nat then <[i := v]> vs
  else vs ++ replicate (i - length vs) JUndefined ++ [v].

(** ** Outcomes of running loader code *)

Inductive result (A : Type) : Type :=
  | Ok (a : A)
  | Throw (e : string)      (* an uncaught JavaScript exception *)
  | Timeout.                (* the model ran out of fuel *)
Arguments Ok {A} a.
Arguments Throw {A} e.
Arguments Timeout {A}.

#[global] Instance result_ret : MRet result := fun A a => Ok a.
#[global] Instance result_bind : MBind result := fun A B f m =>
  match m with
  | Ok a => f a
  | Throw e => Throw e
  | Timeout => Timeout
  end.

#[global] Instance result_fmap : FMap result := fun A B f m =>
  match m with
  | Ok a => Ok (f a)
  | Throw e => Throw e
  | Timeout => Timeout
  end.

(** ** The store *)

(** [interface NodeData]: the kind of the node (2 is an internal node), the
    object type of its parent element, and, among the untyped rest, the
    scope it belongs to and its connections. *)
Record ParentObj := { parent_objectType : string }.

Record NodeData := {
  type : Z;
  parent : ParentObj;
  node_scope : ref;
  connections : list ref;
}.

(** [scope.layout]: the keys load.ts reads or writes (a persisted layout
    may carry more). *)
Record Layout := {
  width : Z;
  height : Z;
  title_x : Z;
  title_y : Z;
  titleEnabled : option bool;
}.

(** [layoutProperties] of a port: [{ x, y, id }]. *)
Record LayoutProperties := {
  lp_x : Z;
  lp_y : Z;
  lp_id : jsval;
}.

(** An element of [scope.Input] / [scope.Output]. *)
Record Port := {
  port_obj : ref;
  layoutProperties : option LayoutProperties;
}.

(** [verilogMetadata]: the two flags load.ts reads. *)
Record VerilogMetadata := {
  isVerilogCircuit : bool;
  isMainCircuit : bool;
}.

(** Modelled from the spec: the class [TestbenchData] (the testbench module
    is not among the sources): the testbench state built by
    [new TestbenchData(testData, currentGroup, currentCase)] from the test
    data, the current group and the current case. *)
Record TestbenchData := {
  testData : jsval;
  currentGroup : jsval;
  currentCase : jsval;
}.

(** [interface Scope] *)
Record Scope := {
  scope_id : string;
  restrictedCircuitElementsUsed : list jsval;
  allNodes : list ref;
  verilogMetadata : option VerilogMetadata;
  testbenchData : option TestbenchData;
  layout : option Layout;
  Input : option (list Port);
  Output : option (list Port);
  wires : option (list ref);
}.

(** An entry of the tab list of the simulator store. *)
Record CircuitItem := {
  item_id : jsval;
  item_name : string;
}.

(** Everything the loader reads or writes. *)
Record World := {
  node_heap : gmap ref NodeData;   (* the Node objects *)
  scopes : gmap ref Scope;         (* the Scope objects *)
  globalScope : option ref;        (* [declare let globalScope] *)
  console : list string;           (* lines written by console.error *)
  generated : nat;                 (* number of generateId() calls so far *)
  circuit_list : list CircuitItem; (* SimulatorStore().circuit_list *)
  clockEnabled : bool;             (* simulationArea.clockEnabled *)
}.

Definition set_node_heap (f : gmap ref NodeData -> gmap ref NodeData) (w : World) : World :=
  {| node_heap := f (node_heap w); scopes := scopes w; globalScope := globalScope w;
     console := console w; generated := generated w;
     circuit_list := circuit_list w; clockEnabled := clockEnabled w |}.

Definition set_scopes (f : gmap ref Scope -> gmap ref Scope) (w : World) : World :=
  {| node_heap := node_heap w; scopes := f (scopes w); globalScope := globalScope w;
     console := console w; generated := generated w;
     circuit_list := circuit_list w; clockEnabled := clockEnabled w |}.

Definition set_globalScope (g : option ref) (w : World) : World :=
  {| node_heap := node_heap w; scopes := scopes w; globalScope := g;
     console := console w; generated := generated w;
     circuit_list := circuit_list w; clockEnabled := clockEnabled w |}.

Definition console_error (msg : string) (w : World) : World :=
  {| node_heap := node_heap w; scopes := scopes w; globalScope := globalScope w;
     console := console w ++ [msg]; generated := generated w;
     circuit_list := circuit_list w; clockEnabled := clockEnabled w |}.

Definition set_generated (n : nat) (w : World) : World :=
  {| node_heap := node_heap w; scopes := scopes w; globalScope := globalScope w;
     console := console w; generated := n;
     circuit_list := circuit_list w; clockEnabled := clockEnabled w |}.

Definition set_clockEnabled (b : bool) (w : World) : World :=
  {| node_heap := node_heap w; scopes := scopes w; globalScope := globalScope w;
     console := console w; generated := generated w;
     circuit_list := circuit_list w; clockEnabled := b |}.

Definition set_circuit_list (l : list CircuitItem) (w : World) : World :=
  {| node_heap := node_heap w; scopes := scopes w; globalScope := globalScope w;
     console := console w; generated := generated w;
     circuit_list := l; clockEnabled := clockEnabled w |}.

(** Dereferencing: reading a property of a missing object is a TypeError. *)
Definition get_scope (sc : ref) (w : World) : result Scope :=
  match scopes w !! sc with
  | Some s => Ok s
  | None => Throw "TypeError: scope is undefined"
  end.

Definition get_node (r : ref) (w : World) : result NodeData :=
  match node_heap w !! r with
  | Some n => Ok n
  | None => Throw "TypeError: node is undefined"
  end.

(** [scope.allNodes.length] as the loops of the loader read it. *)
Definition allNodes_of (sc : ref) (w : World) : list ref :=
  match scopes w !! sc with
  | Some s => allNodes s
  | None => []
  end.

Definition set_allNodes (l : list ref) (s : Scope) : Scope :=
  {| scope_id := scope_id s;
     restrictedCircuitElementsUsed := restrictedCircuitElementsUsed s;
     allNodes := l; verilogMetadata := verilogMetadata s;
     testbenchData := testbenchData s; layout := layout s;
     Input := Input s; Output := Output s; wires := wires s |}.


Definition set_restricted (l : list jsval) (s : Scope) : Scope :=
  {| scope_id := scope_id s;
     restrictedCircuitElementsUsed := l;
     allNodes := allNodes s; verilogMetadata := verilogMetadata s;
     testbenchData := testbenchData s; layout := layout s;
     Input := Input s; Output := Output s; wires := wires s |}.

Definition set_verilogMetadata (v : option VerilogMetadata) (s : Scope) : Scope :=
  {| scope_id := scope_id s;
     restrictedCircuitElementsUsed := restrictedCircuitElementsUsed s;
     allNodes := allNodes s; verilogMetadata := v;
     testbenchData := testbenchData s; layout := layout s;
     Input := Input s; Output := Output s; wires := wires s |}.

Definition set_testbenchData (t : option TestbenchData) (s : Scope) : Scope :=
  {| scope_id := scope_id s;
     restrictedCircuitElementsUsed := restrictedCircuitElementsUsed s;
     allNodes := allNodes s; verilogMetadata := verilogMetadata s;
     testbenchData := t; layout := layout s;
     Input := Input s; Output := Output s; wires := wires s |}.

Definition set_layout (l : option Layout) (s : Scope) : Scope :=
  {| scope_id := scope_id s;
     restrictedCircuitElementsUsed := restrictedCircuitElementsUsed s;
     allNodes := allNodes s; verilogMetadata := verilogMetadata s;
     testbenchData := testbenchData s; layout := l;
     Input := Input s; Output := Output s; wires := wires s |}.

Definition set_Input (l : option (list Port)) (s : Scope) : Scope :=
  {| scope_id := scope_id s;
     restrictedCircuitElementsUsed := restrictedCircuitElementsUsed s;
     allNodes := allNodes s; verilogMetadata := verilogMetadata s;
     testbenchData := testbenchData s; layout := layout s;
     Input := l; Output := Output s; wires := wires s |}.

Definition set_Output (l : option (list Port)) (s : Scope) : Scope :=
  {| scope_id := scope_id s;
     restrictedCircuitElementsUsed := restrictedCircuitElementsUsed s;
     allNodes := allNodes s; verilogMetadata := verilogMetadata s;
     testbenchData := testbenchData s; layout := layout s;
     Input := Input s; Output := l; wires := wires s |}.

(** Assignment to a property of the scope object [sc]. *)
Definition update_scope (sc : ref) (f : Scope -> Scope) (w : World) : result World :=
  match scopes w !! sc with
  | Some s => Ok (set_scopes (fun m => <[sc := f s]> m) w)
  | None => Throw "TypeError: scope is undefined"
  end.

(** ** Descriptors *)

(** [customData] of [interface CircuitElement].  The two records of the
    source are association lists in enumeration order (a JavaScript object
    has no duplicate keys). *)
Record CustomData := {
  constructorParamaters : option (list jsval);
  values : option (list (string * jsval));
  nodes : option (list (string * jsval));
}.

(** [interface CircuitElement]: the descriptor of one element. *)
Record CircuitElement := {
  objectType : string;
  x : Z;
  y : Z;
  label : option string;
  labelDirection : option string;
  propagationDelay : option Z;
  customData : option CustomData;
  subcircuitMetadata : jsval;
}.

Module ScopeData.
Record Testbench := {
  testData : jsval;
  currentGroup : jsval;
  currentCase : jsval;
}.

(** [interface ScopeData]; [elements] is the part reached by [data[ML[i]]]:
    the element descriptors by type tag (the tags of the module list are
    type names, not names that an object inherits). *)
Record t := {
  name : option string;
  id : jsval;
  restrictedCircuitElementsUsed : list jsval;
  allNodes : list jsval;
  verilogMetadata : option VerilogMetadata;
  testbenchData : option Testbench;
  layout : option Layout;
  elements : gmap string (list CircuitElement);
}.
End ScopeData.

(** [interface ProjectData] *)
Record ProjectData := {
  projectId : jsval;
  project_name : string;
  project_scopes : list ScopeData.t;
  timePeriod : option Z;
  project_clockEnabled : option bool;
  orderedTabs : option (list string);
  focussedCircuit : jsval;
}.

(** ** What load.ts imports *)

(** An entry of the [modules] table: a constructor
    [new ModuleClass(x, y, scope, ...params)] and the [fixDirection] method
    of the objects it makes.  An element object is the map of its
    properties. *)
Record ModuleClass := {
  construct : Z -> Z -> ref -> list jsval -> World ->
              result (gmap string jsval * World);
  fixDirection_method : gmap string jsval -> World ->
              result (gmap string jsval * World);
}.

Class Imports := {
  (* ../modules: the constructors by type tag.  [loadModule] never asks it
     for a name that an object inherits: [rectifyObjectType] answers such a
     name with the inherited value, whose string is the key looked up. *)
  modules : gmap string ModuleClass;
  replace : jsval -> jsval -> World -> result (jsval * World);    (* ../node *)
  loadNode : jsval -> ref -> World -> result World;               (* ../node *)
  constructNodeConnections : jsval -> jsval -> World -> result World;
  node_delete : ref -> World -> World;             (* Node.prototype.delete *)
  loadSubCircuit : CircuitElement -> ref -> World -> result World;
  wire_updateData : ref -> ref -> World -> result World;
  moduleList : list string;                                       (* ../metadata *)
  generateId : nat -> jsval;          (* the value the n-th call returns *)
  oppositeDirection : gmap string string;                         (* ../canvasApi *)
  fixDirection : gmap string string;
  newCircuit : string -> jsval -> bool -> bool -> World -> result (ref * World);
  embed : bool;
  __projectName : string;
  (* calls whose effect load.ts never reads back (engine, ux, backup, ...) *)
  extern : string -> list jsval -> World -> World;
  (* two conversions of the language that the model leaves open:
     [String(f)] for the built-in function [Object.prototype[name]], whose
     text is up to the implementation, and [String(n)] for an integer [n]
     beyond the safe integers, where the digits are those of the shortest
     decimal that rounds to the number *)
  function_source : string -> string;
  large_number_toString : Z -> string;
}.

(** ** Type registry *)

(** [const rectify = { FlipFlop: 'DflipFlop', Ram: 'Rom' }]: the own
    properties of the object literal. *)
Definition rectify : gmap string string :=
  <["FlipFlop" := "DflipFlop"]> (<["Ram" := "Rom"]> ∅).

(** The names an object literal inherits: the properties of
    [Object.prototype]. *)
Definition object_prototype : list string :=
  ["constructor"; "hasOwnProperty"; "isPrototypeOf"; "propertyIsEnumerable";
   "toLocaleString"; "toString"; "valueOf"; "__proto__";
   "__defineGetter__"; "__defineSetter__"; "__lookupGetter__"; "__lookupSetter__"].

(** What [rectifyObjectType] returns: a type tag or, for a name that
    [rectify] inherits, the inherited value [Object.prototype[name]] (a
    function, or the prototype object for [__proto__]). *)
Inductive rectified : Type :=
  | Tag (t : string)
  | Inherited (name : string).

(** [rectify[obj] || obj]; an inherited value is truthy, so [|| obj] is not
    reached for it. *)
Definition rectifyObjectType (obj : string) : rectified :=
  match rectify !! obj with
  | Some t => if String.eqb t "" then Tag obj else Tag t
  | None => if bool_decide (obj ∈ object_prototype) then Inherited obj else Tag obj
  end.

(** [tbl[k]] for a table keyed by direction names; a key that is not a
    string finds nothing. *)
Definition index_by (tbl : gmap string string) (k : jsval) : jsval :=
  match k with
  | JStr s => of_str (tbl !! s)
  | _ => JUndefined
  end.

Section Loader.
Context `{Imports}.

(** The property key that [modules[v]] looks up for the value [v] that
    [rectifyObjectType] returned: a string is its own key, another value is
    converted by [String]. *)
Definition propertyKey (v : rectified) : string :=
  match v with
  | Tag t => t
  | Inherited name =>
      if String.eqb name "__proto__" then "[object Object]"
      else function_source name
  end.

(** ** Element loader *)

(** load.ts 144-150: label, label direction and delay, assigned on the
    object the constructor made. *)
Definition applyDescriptor (data : CircuitElement) (obj : gmap string jsval)
  : gmap string jsval :=
  let obj := <["label" := of_str (label data)]> obj in
  let obj := <["labelDirection" :=
                 js_or (of_str (labelDirection data))
                       (index_by oppositeDirection
                          (index_by fixDirection (get_prop obj "direction")))]> obj in
  <["propagationDelay" :=
      js_or (of_num (propagationDelay data))
            (get_prop obj "propagationDelay")]> obj.

(** load.ts 137-151: construction, the assignments above and the
    direction fix-up. *)
Definition constructModule (ModuleClass : ModuleClass) (data : CircuitElement)
    (scope : ref) (w : World) : result (gmap string jsval * World) :=
  '(obj, w) ← construct ModuleClass (x data) (y data) scope
                (default [] (customData data ≫= constructorParamaters)) w;
  fixDirection_method ModuleClass (applyDescriptor data obj) w.

(** load.ts 153-158: [for (const prop in values) obj[prop] = values[prop]]. *)
Fixpoint restoreValues (vals : list (string * jsval)) (obj : gmap string jsval)
  : gmap string jsval :=
  match vals with
  | [] => obj
  | (prop, v) :: vals' => restoreValues vals' (<[prop := v]> obj)
  end.

(** load.ts 165-167: [for (i = 0; i < n.length; i++)
    obj[node][i] = replace(obj[node][i], n[i])], on the array [arr] that
    [obj[node]] holds. *)
Fixpoint replaceEach (n : list jsval) (i : nat) (arr : list jsval) (w : World)
  : result (list jsval * World) :=
  match n with
  | [] => Ok (arr, w)
  | ni :: n' =>
      '(v, w) ← replace (default JUndefined (arr !! i)) ni w;
      replaceEach n' (S i) (js_array_set arr i v) w
  end.

(** load.ts 162-171, one turn of the [for ... in] loop.  An index sequence
    on a property that holds no array is a TypeError when the property is
    undefined; writing into a property that holds another kind of value is
    outside the model and reported the same way. *)
Definition replaceNode (node : string) (n : jsval) (obj : gmap string jsval)
    (w : World) : result (gmap string jsval * World) :=
  match n with
  | JArr ns =>
      match ns, get_prop obj node with
      | [], _ => Ok (obj, w)
      | _, JArr arr =>
          '(arr', w) ← replaceEach ns 0 arr w;
          Ok (<[node := JArr arr']> obj, w)
      | _, _ => Throw "TypeError: cannot read properties of undefined"
      end
  | _ =>
      '(v, w) ← replace (get_prop obj node) n w;
      Ok (<[node := v]> obj, w)
  end.

Fixpoint replaceNodes (ns : list (string * jsval)) (obj : gmap string jsval)
    (w : World) : result (gmap string jsval * World) :=
  match ns with
  | [] => Ok (obj, w)
  | (node, n) :: ns' =>
      '(obj, w) ← replaceNode node n obj w;
      replaceNodes ns' obj w
  end.

(** [loadModule(data, scope)].  The element object is reachable in the
    source through the scope its constructor registers it in; here the
    function hands it back ([None] when no element was made). *)
Definition loadModule (data : CircuitElement) (scope : ref) (w : World)
  : result (option (gmap string jsval) * World) :=
  match modules !! propertyKey (rectifyObjectType (objectType data)) with
  | None =>
      Ok (None,
          console_error ("Module type " ++ objectType data ++ " not found") w)
  | Some ModuleClass =>
      '(obj, w) ← constructModule ModuleClass data scope w;
      let obj := match customData data ≫= values with
                 | Some vals => restoreValues vals obj
                 | None => obj
                 end in
      '(obj, w) ← match customData data ≫= nodes with
                  | Some ns => replaceNodes ns obj w
                  | None => Ok (obj, w)
                  end;
      let obj := if truthy (subcircuitMetadata data)
                 then <["subcircuitMetadata" := subcircuitMetadata data]> obj
                 else obj in
      Ok (Some obj, w)
  end.

(** ** Graph repair *)

(** [node.type !== 2 && node.parent.objectType === 'CircuitElement'] *)
Definition isBugNode (node : NodeData) : bool :=
  negb (type node =? 2)
  && String.eqb (parent_objectType (parent node)) "CircuitElement".

(** One turn of the [for] loop of [removeBugNodes]: the body, then the
    [i++] of the loop header. *)
Definition removeBugNodes_turn (scope : ref) (i x : nat) (w : World)
  : result (nat * nat * World) :=
  s ← get_scope scope w;
  match allNodes s !! i with
  | None => Throw "TypeError: node is undefined"
  | Some r =>
      node ← get_node r w;
      let w := if isBugNode node then node_delete r w else w in
      s ← get_scope scope w;
      let '(i, x) :=
        if negb (length (allNodes s) =? x)%nat
        then (O, length (allNodes s))
        else (i, x) in
      Ok (S i, x, w)
  end.

(** The [for] loop, from the state [i], [x] on. *)
Fixpoint removeBugNodes_loop (fuel : nat) (scope : ref) (i x : nat) (w : World)
  : result World :=
  match fuel with
  | O => Timeout
  | S fuel' =>
      if (i <? x)%nat then
        '(i', x', w') ← removeBugNodes_turn scope i x w;
        removeBugNodes_loop fuel' scope i' x' w'
      else Ok w
  end.

(** [removeBugNodes(scope)]; every call in load.ts passes the scope, so the
    default [globalScope] of the parameter is not modelled.  [fuel] bounds
    the number of turns of the loop. *)
Definition removeBugNodes (fuel : nat) (scope : ref) (w : World) : result World :=
  s ← get_scope scope w;
  removeBugNodes_loop fuel scope 0 (length (allNodes s)) w.

(** ** Layout resolver *)

(** [Math.max(inputs, outputs) * 20 + 20] *)
Definition layoutHeight (inputs outputs : nat) : Z :=
  Z.max (Z.of_nat inputs) (Z.of_nat outputs) * 20 + 20.

(** [scope.layout.height / 2 - ports.length * 10 + 20 * i + 10] *)
Definition portY (height : Z) (count i : nat) : Z :=
  height / 2 - Z.of_nat count * 10 + 20 * Z.of_nat i + 10.

(** load.ts 269-279 and 283-293: [ports[i].layoutProperties = { x, y, id:
    generateId() }] for [i] from the given index on. *)
Fixpoint layoutPorts (px height : Z) (count i : nat) (ports : list Port)
    (w : World) : list Port * World :=
  match ports with
  | [] => ([], w)
  | p :: ports' =>
      let lp := {| lp_x := px; lp_y := portY height count i;
                   lp_id := generateId (generated w) |} in
      let w := set_generated (S (generated w)) w in
      let '(rest, w) := layoutPorts px height count (S i) ports' w in
      ({| port_obj := port_obj p; layoutProperties := Some lp |} :: rest, w)
  end.

Definition length_or_0 {A} (o : option (list A)) : nat :=
  match o with Some l => length l | None => O end.

(** load.ts 260-294: the layout made when the descriptor has none. *)
Definition generateLayout (scope : ref) (w : World) : result World :=
  s ← get_scope scope w;
  let h := layoutHeight (length_or_0 (Input s)) (length_or_0 (Output s)) in
  let lay := {| width := 100; height := h; title_x := 50; title_y := 13;
                titleEnabled := None |} in
  w ← update_scope scope (set_layout (Some lay)) w;
  w ← match Input s with
      | Some ports =>
          let '(ports, w) := layoutPorts 0 h (length ports) 0 ports w in
          update_scope scope (set_Input (Some ports)) w
      | None => Ok w
      end;
  match Output s with
  | Some ports =>
      let '(ports, w) := layoutPorts (width lay) h (length ports) 0 ports w in
      update_scope scope (set_Output (Some ports)) w
  | None => Ok w
  end.

(** [if (scope.layout.titleEnabled === undefined) scope.layout.titleEnabled = true] *)
Definition defaultTitleEnabled (l : Layout) : Layout :=
  match titleEnabled l with
  | Some _ => l
  | None => {| width := width l; height := height l; title_x := title_x l;
               title_y := title_y l; titleEnabled := Some true |}
  end.

(** load.ts 256-300 *)
Definition resolveLayout (scope : ref) (data : ScopeData.t) (w : World)
  : result World :=
  w ← match ScopeData.layout data with
      | Some l => update_scope scope (set_layout (Some l)) w
      | None => generateLayout scope w
      end;
  s ← get_scope scope w;
  match layout s with
  | Some l => update_scope scope (set_layout (Some (defaultTitleEnabled l))) w
  | None => Throw "TypeError: layout is undefined"
  end.

(** ** Scope orchestrator *)

(** [data.allNodes.map((x) => loadNode(x, scope))] *)
Fixpoint loadNodes (xs : list jsval) (scope : ref) (w : World) : result World :=
  match xs with
  | [] => Ok w
  | x :: xs' => w ← loadNode x scope w; loadNodes xs' scope w
  end.

(** [constructNodeConnections(scope.allNodes[i], data.allNodes[i])] for
    [i] from the given index on. *)
Fixpoint connectNodes (ds : list jsval) (i : nat) (scope : ref) (w : World)
  : result World :=
  match ds with
  | [] => Ok w
  | d :: ds' =>
      s ← get_scope scope w;
      let node := match allNodes s !! i with
                  | Some r => JNode r
                  | None => JUndefined
                  end in
      w ← constructNodeConnections node d w;
      connectNodes ds' (S i) scope w
  end.

(** The inner loops of load.ts 224-231. *)
Fixpoint loadSubCircuits (ds : list CircuitElement) (scope : ref) (w : World)
  : result World :=
  match ds with
  | [] => Ok w
  | d :: ds' => w ← loadSubCircuit d scope w; loadSubCircuits ds' scope w
  end.

Fixpoint loadModules (ds : list CircuitElement) (scope : ref) (w : World)
  : result World :=
  match ds with
  | [] => Ok w
  | d :: ds' => '(_, w) ← loadModule d scope w; loadModules ds' scope w
  end.

(** load.ts 220-234, over the copy [ML] of the module list. *)
Fixpoint loadAllModules (ML : list string) (data : ScopeData.t) (scope : ref)
    (w : World) : result World :=
  match ML with
  | [] => Ok w
  | m :: ML' =>
      w ← match ScopeData.elements data !! m with
          | Some ds =>
              if String.eqb m "SubCircuit"
              then loadSubCircuits ds scope w
              else loadModules ds scope w
          | None => Ok w
          end;
      loadAllModules ML' data scope w
  end.

(** [scope.wires?.map((x) => x.updateData(scope))] *)
Fixpoint updateWires (ws : list ref) (scope : ref) (w : World) : result World :=
  match ws with
  | [] => Ok w
  | x :: ws' => w ← wire_updateData x scope w; updateWires ws' scope w
  end.

(** load.ts 208-245: everything before the testbench step. *)
Definition loadGraph (fuel : nat) (scope : ref) (data : ScopeData.t) (w : World)
  : result World :=
  let ML := moduleList in
  w ← update_scope scope
        (set_restricted (ScopeData.restrictedCircuitElementsUsed data)) w;
  w ← loadNodes (ScopeData.allNodes data) scope w;
  w ← connectNodes (ScopeData.allNodes data) 0 scope w;
  w ← loadAllModules ML data scope w;
  s ← get_scope scope w;
  w ← match wires s with
      | Some ws => updateWires ws scope w
      | None => Ok w
      end;
  w ← removeBugNodes fuel scope w;
  match ScopeData.verilogMetadata data with
  | Some vm => update_scope scope (set_verilogMetadata (Some vm)) w
  | None => Ok w
  end.

(** load.ts 247-254: [if (data.testbenchData && globalScope)
    globalScope.testbenchData = new TestbenchData(...)]. *)
Definition restoreTestbench (data : ScopeData.t) (w : World) : result World :=
  match ScopeData.testbenchData data, globalScope w with
  | Some tb, Some g =>
      update_scope g
        (set_testbenchData
           (Some {| testData := ScopeData.testData tb;
                    currentGroup := ScopeData.currentGroup tb;
                    currentCase := ScopeData.currentCase tb |})) w
  | _, _ => Ok w
  end.

(** [loadScope(scope, data)] *)
Definition loadScope (fuel : nat) (scope : ref) (data : ScopeData.t) (w : World)
  : result World :=
  w ← loadGraph fuel scope data w;
  w ← restoreTestbench data w;
  resolveLayout scope data w.

(** ** Project loader *)

(** [name || 'Untitled'] *)
Definition or_string (o : option string) (d : string) : string :=
  match o with
  | Some s => if String.eqb s "" then d else s
  | None => d
  end.

(** load.ts 326-363 *)
Fixpoint loadScopes (fuel : nat) (ds : list ScopeData.t) (w : World)
  : result World :=
  match ds with
  | [] => Ok w
  | d :: ds' =>
      let '(isVerilog, isMain) :=
        match ScopeData.verilogMetadata d with
        | Some vm => (isVerilogCircuit vm, isMainCircuit vm)
        | None => (false, false)
        end in
      '(scope, w) ← newCircuit (or_string (ScopeData.name d) "Untitled")
                      (ScopeData.id d) isVerilog isMain w;
      w ← loadScope fuel scope d w;
      let w := set_globalScope (Some scope) w in
      let w := if embed
               then extern "centerFocus" [JObj scope; JBool true] w
               else extern "centerFocus" [JObj scope; JBool false] w in
      let w := extern "update" [JObj scope; JBool true] w in
      let w := extern "updateRestrictedElementsInScope" [] w in
      let w := extern "scheduleBackup" [] w in
      loadScopes fuel ds' w
  end.

(** [String(v)]: a string is itself; a safe integer is written in decimal
    digits; an array is the list of its converted elements, separated by
    commas, with nothing for an element that is undefined; an object without
    a conversion of its own is "[object Object]". *)
Fixpoint js_String (v : jsval) : string :=
  match v with
  | JStr s => s
  | JNum n => if Z.abs n <? 2 ^ 53 then pretty n else large_number_toString n
  | JBool true => "true"
  | JBool false => "false"
  | JUndefined => "undefined"
  | JNode _ | JObj _ => "[object Object]"
  | JArr vs =>
      (fix join (l : list jsval) : string :=
         match l with
         | [] => ""
         | x :: l' =>
             let item := match x with JUndefined => "" | _ => js_String x end in
             match l' with
             | [] => item
             | _ => item ++ "," ++ join l'
             end
         end) vs
  end.

(** [tabs.indexOf(s)], counting from [i]. *)
Fixpoint indexOf_from (tabs : list string) (s : string) (i : Z) : Z :=
  match tabs with
  | [] => -1
  | t :: tabs' => if String.eqb t s then i else indexOf_from tabs' s (i + 1)
  end.

Definition indexOf (tabs : list string) (s : string) : Z := indexOf_from tabs s 0.

(** The comparator of load.ts 376-378. *)
Definition compareTabs (tabs : list string) (a b : CircuitItem) : Z :=
  indexOf tabs (js_String (item_id a)) - indexOf tabs (js_String (item_id b)).

(** [Array.prototype.sort(compare)] of the language: a stable sort; for a
    comparator that orders by a key every implementation returns the list
    this insertion sort returns. *)
Fixpoint sort_insert {A} (compare : A -> A -> Z) (a : A) (l : list A) : list A :=
  match l with
  | [] => [a]
  | b :: l' =>
      if 0 <? compare a b then b :: sort_insert compare a l' else a :: b :: l'
  end.

Fixpoint array_sort {A} (compare : A -> A -> Z) (l : list A) : list A :=
  match l with
  | [] => []
  | a :: l' => sort_insert compare a (array_sort compare l')
  end.

(** load.ts 374-379 *)
Definition reorderTabs (data : ProjectData) (w : World) : World :=
  match orderedTabs data with
  | Some tabs => set_circuit_list (array_sort (compareTabs tabs) (circuit_list w)) w
  | None => w
  end.

(** [load(data)] *)
Definition load (fuel : nat) (data : option ProjectData) (w : World)
  : result World :=
  match data with
  | None => Ok (extern "setProjectName" [JStr __projectName] w)
  | Some data =>
      let w := extern "setProjectName" [JStr (project_name data)] w in
      let w := set_globalScope None w in
      let w := extern "resetScopeList" [] w in
      w ← loadScopes fuel (project_scopes data) w;
      let w := extern "changeClockTime"
                 [js_or (of_num (timePeriod data)) (JNum 500)] w in
      let w := set_clockEnabled
                 (match project_clockEnabled data with
                  | None => true
                  | Some b => b
                  end) w in
      let w := if negb embed then extern "showProperties" [] w else w in
      let w := reorderTabs data w in
      let w := if truthy (focussedCircuit data)
               then extern "switchCircuit"
                      [JStr (js_String (focussedCircuit data))] w
               else w in
      let w := extern "updateSimulationSet" [JBool true] w in
      let w := extern "updateCanvasSet" [JBool true] w in
      let w := extern "gridUpdateSet" [JBool true] w in
      let w := if negb embed then extern "plotArea.reset" [] w else w in
      Ok (extern "scheduleUpdate" [JNum 1] w)
  end.
End Loader.

(** ** Collaborators from node.js *)

Definition set_connections (cs : list ref) (n : NodeData) : NodeData :=
  {| type := type n; parent := parent n; node_scope := node_scope n;
     connections := cs |}.

(** Modelled from the spec: a node leaves the node set of a scope (the
    step that deletion and replacement share): the node set of the scope
    [sc] without the node [r]. *)
Definition drop_node (sc r : ref) (w : World) : World :=
  match scopes w !! sc with
  | Some s =>
      set_scopes
        (fun m => <[sc := set_allNodes (filter (fun r' => r' ≠ r) (allNodes s)) s]> m) w
  | None => w
  end.

(** Modelled from the spec: [Node.prototype.delete] (node.js is not among the
    sources).  Deleting a node takes it out of the node set of its scope and,
    connections being symmetric, out of the connections of its peers.  The
    specification says that a deletion can cascade to further nodes without
    saying when; this operation deletes the one node.  It serves to run the
    loader on concrete node sets; a theorem that depends on what deletion
    does states what it needs of [Node.delete] as a hypothesis. *)
Definition delete_node (r : ref) (w : World) : World :=
  match node_heap w !! r with
  | Some n =>
      match scopes w !! node_scope n with
      | Some s =>
          set_node_heap
            (fun h =>
               <[r := set_connections [] n]>
                 ((fun m => set_connections
                              (filter (fun c => c ≠ r) (connections m)) m) <$> h))
            (drop_node (node_scope n) r w)
      | None => w
      end
  | None => w
  end.

(** Modelled from the spec: "every peer that held an edge to the
    placeholder must be updated to point at the target": the end [r] of a
    connection once the node [old] has been merged into the node [new]. *)
Definition redirect (old new r : ref) : ref :=
  if decide (r = old) then new else r.

(** Modelled from the spec: the ownership transfer of [replace] (node.js is
    not among the sources).  "The target node absorbs the placeholder's edge
    set, and every peer that held an edge to the placeholder must be updated
    to point at the target"; the placeholder is discarded: it leaves the node
    set of its scope and keeps no connection. *)
Definition rewireNode (old new : ref) (w : World) : World :=
  match node_heap w !! old, node_heap w !! new with
  | Some ph, Some tn =>
      if decide (old = new) then w else
      set_node_heap
        (fun h =>
           <[old := set_connections [] ph]>
             (<[new := set_connections
                         (redirect old new <$> (connections tn ++ connections ph)%list) tn]>
                ((fun m => set_connections (redirect old new <$> connections m) m)
                   <$> h)))
        (drop_node (node_scope ph) old w)
  | _, _ => w
  end.

(** Modelled from the spec: [replace(node, index)] (node.js is not among the
    sources).  "The replace operation must: discard the freshly constructed
    placeholder node, transfer all of its would-be connections onto the
    target pre-loaded node, and ensure the element's property now references
    the pre-loaded node object."  The target is the node at position [index]
    of the node set of the placeholder's scope. *)
Definition replace_node (node index : jsval) (w : World) : result (jsval * World) :=
  match node, index with
  | JNode p, JNum k =>
      ph ← get_node p w;
      s ← get_scope (node_scope ph) w;
      if k <? 0 then Throw "TypeError: no node at a negative index" else
      match allNodes s !! Z.to_nat k with
      | None => Throw "TypeError: no node at this index"
      | Some t =>
          tn ← get_node t w;
          Ok (JNode t, rewireNode p t w)
      end
  | _, _ => Throw "TypeError: replace needs a node and an index"
  end.

(** ** A concrete environment

    A small module table and the collaborators above, used to run the
    loader on concrete projects. *)
Module Demo.
(** A reference no Node object has yet. *)
Definition fresh_ref (w : World) : ref :=
  map_fold (fun k _ acc => Nat.max (S k) acc) O (node_heap w).

Definition new_node (ty : Z) (pty : string) (scope : ref) (w : World)
  : result (ref * World) :=
  let r := fresh_ref w in
  let n := {| type := ty; parent := {| parent_objectType := pty |};
              node_scope := scope; connections := [] |} in
  let w := set_node_heap (fun h => <[r := n]> h) w in
  w ← update_scope scope (fun s => set_allNodes (allNodes s ++ [r]) s) w;
  Ok (r, w).

(** A connection between the nodes [a] and [b], listed at both ends. *)
Definition connect (a b : ref) (w : World) : World :=
  let add c n := set_connections (connections n ++ [c]) n in
  set_node_heap (fun h => alter (add a) b (alter (add b) a h)) w.

(** The output node [c] connected to the nodes that the constructor
    parameters name. *)
Fixpoint connect_output (c : ref) (params : list jsval) (w : World) : World :=
  match params with
  | JNum k :: params' => connect_output c params' (connect c (Z.to_nat k) w)
  | _ => w
  end.

(** A two-input gate: two input nodes in [inp], one output node in
    [output1], the defaults of the element base class.  Its constructor
    parameters are nodes to which the output is connected from the start. *)
Definition gate (tag : string) : ModuleClass :=
  {| construct := fun px py scope params w =>
       '(a, w) ← new_node 0 tag scope w;
       '(b, w) ← new_node 0 tag scope w;
       '(c, w) ← new_node 1 tag scope w;
       let w := connect_output c params w in
       Ok (<["objectType" := JStr tag]>
           (<["x" := JNum px]>
           (<["y" := JNum py]>
           (<["direction" := JStr "RIGHT"]>
           (<["label" := JStr ""]>
           (<["propagationDelay" := JNum 10]>
           (<["inp" := JArr [JNode a; JNode b]]>
           (<["output1" := JNode c]> ∅))))))), w);
     fixDirection_method := fun obj w => Ok (obj, w) |}.

(** A node descriptor is [[type, parentType]]. *)
Definition demo_loadNode (d : jsval) (scope : ref) (w : World) : result World :=
  match d with
  | JArr [JNum ty; JStr pty] => '(_, w) ← new_node ty pty scope w; Ok w
  | _ => Throw "TypeError: malformed node descriptor"
  end.

Definition empty_scope (id : string) : Scope :=
  {| scope_id := id; restrictedCircuitElementsUsed := []; allNodes := [];
     verilogMetadata := None; testbenchData := None; layout := None;
     Input := Some []; Output := Some []; wires := Some [] |}.

Definition demo_newCircuit (name : string) (id : jsval) (isVerilog isMain : bool)
    (w : World) : result (ref * World) :=
  let r := map_fold (fun k _ acc => Nat.max (S k) acc) O (scopes w) in
  Ok (r, set_circuit_list
           (circuit_list w ++ [{| item_id := id; item_name := name |}])
           (set_scopes (fun m => <[r := empty_scope
                                          match id with JStr s => s | _ => "" end]> m) w)).

#[local] Instance imports : Imports :=
  {| modules := <["AndGate" := gate "AndGate"]>
                (<["DflipFlop" := gate "DflipFlop"]>
                (<["Rom" := gate "Rom"]> ∅));
     replace := replace_node;
     loadNode := demo_loadNode;
     constructNodeConnections := fun _ _ w => Ok w;
     node_delete := delete_node;
     loadSubCircuit := fun _ _ w => Ok w;
     wire_updateData := fun _ _ w => Ok w;
     moduleList := ["Input"; "Output"; "AndGate"; "DflipFlop"; "Rom"; "SubCircuit"];
     generateId := fun n => JNum (Z.of_nat n);
     oppositeDirection :=
       <["RIGHT" := "LEFT"]> (<["LEFT" := "RIGHT"]>
       (<["DOWN" := "UP"]> (<["UP" := "DOWN"]> ∅)));
     fixDirection :=
       <["right" := "LEFT"]> (<["left" := "RIGHT"]>
       (<["down" := "UP"]> (<["up" := "DOWN"]>
       (<["LEFT" := "LEFT"]> (<["RIGHT" := "RIGHT"]>
       (<["UP" := "UP"]> (<["DOWN" := "DOWN"]> ∅)))))));
     newCircuit := demo_newCircuit;
     embed := false;
     __projectName := "Untitled";
     extern := fun _ _ w => w;
     function_source := fun name => "function " ++ name ++ "() { [native code] }";
     large_number_toString := fun n => pretty n |}.

Definition empty_world : World :=
  {| node_heap := ∅; scopes := ∅; globalScope := None; console := [];
     generated := O; circuit_list := []; clockEnabled := false |}.

(** One empty scope, reference 0. *)
Definition main_world : World :=
  {| node_heap := ∅; scopes := <[O := empty_scope "main"]> ∅;
     globalScope := None; console := []; generated := O;
     circuit_list := []; clockEnabled := false |}.

(** A descriptor with a type tag and nothing optional. *)
Definition element (tag : string) : CircuitElement :=
  {| objectType := tag; x := 10; y := 20; label := None;
     labelDirection := None; propagationDelay := None; customData := None;
     subcircuitMetadata := JUndefined |}.

(** An AND gate saved with a propagation delay of 0. *)
Definition zero_delay_gate : CircuitElement :=
  {| objectType := "AndGate"; x := 10; y := 20; label := Some "g";
     labelDirection := None; propagationDelay := Some 0; customData := None;
     subcircuitMetadata := JUndefined |}.

(** A scope descriptor with an id and nothing to load. *)
Definition bare_scope (id : string) : ScopeData.t :=
  {| ScopeData.name := Some id; ScopeData.id := JStr id;
     ScopeData.restrictedCircuitElementsUsed := []; ScopeData.allNodes := [];
     ScopeData.verilogMetadata := None; ScopeData.testbenchData := None;
     ScopeData.layout := None; ScopeData.elements := ∅ |}.

(** Three circuits a, b, c saved with the tab order c, a. *)
Definition three_tabs : ProjectData :=
  {| projectId := JUndefined; project_name := "demo";
     project_scopes := [bare_scope "a"; bare_scope "b"; bare_scope "c"];
     timePeriod := None; project_clockEnabled := None;
     orderedTabs := Some ["c"; "a"]; focussedCircuit := JUndefined |}.

(** A scope with two input ports and one output port, no layout yet. *)
Definition two_in_one_out : World :=
  {| node_heap := ∅;
     scopes := <[O := set_Output (Some [{| port_obj := 3%nat; layoutProperties := None |}])
                     (set_Input (Some [{| port_obj := 1%nat; layoutProperties := None |};
                                       {| port_obj := 2%nat; layoutProperties := None |}])
                        (empty_scope "main"))]> ∅;
     globalScope := None; console := []; generated := O;
     circuit_list := []; clockEnabled := false |}.

(** A scope descriptor that carries testbench data. *)
Definition tested_scope (id : string) (blob : Z) : ScopeData.t :=
  {| ScopeData.name := Some id; ScopeData.id := JStr id;
     ScopeData.restrictedCircuitElementsUsed := []; ScopeData.allNodes := [];
     ScopeData.verilogMetadata := None;
     ScopeData.testbenchData :=
       Some {| ScopeData.testData := JNum blob; ScopeData.currentGroup := JNum 0;
               ScopeData.currentCase := JNum 0 |};
     ScopeData.layout := None; ScopeData.elements := ∅ |}.

(** Two circuits, each saved with testbench data of its own. *)
Definition two_testbenches : ProjectData :=
  {| projectId := JUndefined; project_name := "demo";
     project_scopes := [tested_scope "a" 1; tested_scope "b" 2];
     timePeriod := None; project_clockEnabled := None;
     orderedTabs := None; focussedCircuit := JUndefined |}.

(** Two scopes, the second one focused. *)
Definition focus_on_second : World :=
  {| node_heap := ∅;
     scopes := <[O := empty_scope "a"]> (<[1%nat := empty_scope "b"]> ∅);
     globalScope := Some 1%nat; console := []; generated := O;
     circuit_list := []; clockEnabled := false |}.

Definition plain_node (ty : Z) (scope : ref) (cs : list ref) : NodeData :=
  {| type := ty; parent := {| parent_objectType := "AndGate" |};
     node_scope := scope; connections := cs |}.

(** One scope with three pre-loaded nodes 0, 1 and 2. *)
Definition three_nodes : World :=
  {| node_heap := <[O := plain_node 0 0 []]> (<[1%nat := plain_node 0 0 []]>
                  (<[2%nat := plain_node 1 0 []]> ∅));
     scopes := <[O := set_allNodes [O; 1%nat; 2%nat] (empty_scope "main")]> ∅;
     globalScope := None; console := []; generated := O;
     circuit_list := []; clockEnabled := false |}.

Definition wired_nodes : list (string * jsval) :=
  [("inp", JArr [JNum 0; JNum 1]); ("output1", JNum 2)].

(** An AND gate saved with its inputs on nodes 0 and 1 and its output on
    node 2. *)
Definition wired_gate : CircuitElement :=
  {| objectType := "AndGate"; x := 10; y := 20; label := Some "g";
     labelDirection := None; propagationDelay := None;
     customData := Some {| constructorParamaters := None; values := None;
                           nodes := Some wired_nodes |};
     subcircuitMetadata := JUndefined |}.

(** The same gate, whose constructor connects the output to node 1. *)
Definition linked_gate : CircuitElement :=
  {| objectType := "AndGate"; x := 10; y := 20; label := Some "g";
     labelDirection := None; propagationDelay := None;
     customData := Some {| constructorParamaters := Some [JNum 1]; values := None;
                           nodes := Some wired_nodes |};
     subcircuitMetadata := JUndefined |}.

(** An AND gate saved with a delay of 25 and the label direction UP. *)
Definition delayed_gate : CircuitElement :=
  {| objectType := "AndGate"; x := 10; y := 20; label := Some "g";
     labelDirection := Some "UP"; propagationDelay := Some 25; customData := None;
     subcircuitMetadata := JUndefined |}.

(** An AND gate saved with two property overrides, one of them for the label. *)
Definition valued_gate : CircuitElement :=
  {| objectType := "AndGate"; x := 10; y := 20; label := Some "g";
     labelDirection := None; propagationDelay := None;
     customData := Some {| constructorParamaters := None;
                           values := Some [("rows", JNum 4); ("label", JStr "h")];
                           nodes := None |};
     subcircuitMetadata := JObj 7 |}.

(** An AND gate whose node override names an index no node has. *)
Definition broken_gate : CircuitElement :=
  {| objectType := "AndGate"; x := 10; y := 20; label := None;
     labelDirection := None; propagationDelay := None;
     customData := Some {| constructorParamaters := None; values := None;
                           nodes := Some [("inp", JArr [JNum 9])] |};
     subcircuitMetadata := JUndefined |}.

(** A scope descriptor with one element list under the tag [tag]. *)
Definition scope_with (tag : string) (ds : list CircuitElement) : ScopeData.t :=
  {| ScopeData.name := Some "main"; ScopeData.id := JStr "main";
     ScopeData.restrictedCircuitElementsUsed := []; ScopeData.allNodes := [];
     ScopeData.verilogMetadata := None; ScopeData.testbenchData := None;
     ScopeData.layout := None; ScopeData.elements := <[tag := ds]> ∅ |}.

(** A scope descriptor with a persisted layout that has no title flag. *)
Definition laid_out_scope : ScopeData.t :=
  {| ScopeData.name := Some "main"; ScopeData.id := JStr "main";
     ScopeData.restrictedCircuitElementsUsed := []; ScopeData.allNodes := [];
     ScopeData.verilogMetadata := None; ScopeData.testbenchData := None;
     ScopeData.layout := Some {| width := 40; height := 80; title_x := 20;
                                 title_y := 9; titleEnabled := None |};
     ScopeData.elements := ∅ |}.

(** A project of one circuit saved with the clock switched off. *)
Definition clock_off : ProjectData :=
  {| projectId := JUndefined; project_name := "demo";
     project_scopes := [bare_scope "a"];
     timePeriod := None; project_clockEnabled := Some false;
     orderedTabs := None; focussedCircuit := JUndefined |}.

(** One scope whose node set is a valid node followed by two invalid ones. *)
Definition valid_then_invalid : World :=
  {| node_heap := <[9%nat := plain_node 0 0 []]>
                  (<[10%nat := {| type := 0;
                                  parent := {| parent_objectType := "CircuitElement" |};
                                  node_scope := O; connections := [] |}]>
                  (<[11%nat := {| type := 1;
                                  parent := {| parent_objectType := "CircuitElement" |};
                                  node_scope := O; connections := [] |}]> ∅));
     scopes := <[O := set_allNodes [9%nat; 10%nat; 11%nat] (empty_scope "main")]> ∅;
     globalScope := None; console := []; generated := O;
     circuit_list := []; clockEnabled := false |}.

Definition bug_node (scope : ref) : NodeData :=
  {| type := 0; parent := {| parent_objectType := "CircuitElement" |};
     node_scope := scope; connections := [] |}.

(** One scope whose node set is two invalid nodes. *)
Definition two_bug_nodes : World :=
  {| node_heap := <[10%nat := bug_node 0]> (<[11%nat := bug_node 0]> ∅);
     scopes := <[O := set_allNodes [10%nat; 11%nat] (empty_scope "main")]> ∅;
     globalScope := None; console := []; generated := O;
     circuit_list := []; clockEnabled := false |}.
End Demo.

(** ** Vocabulary of the statements *)

(** The descriptor [d] with its type tag replaced. *)
Definition with_objectType (tag : string) (d : CircuitElement) : CircuitElement :=
  {| objectType := tag; x := x d; y := y d; label := label d;
     labelDirection := labelDirection d; propagationDelay := propagationDelay d;
     customData := customData d; subcircuitMetadata := subcircuitMetadata d |}.

(** A world with the console output left out. *)
Definition silence (w : World) : World :=
  {| node_heap := node_heap w; scopes := scopes w; globalScope := globalScope w;
     console := []; generated := generated w;
     circuit_list := circuit_list w; clockEnabled := clockEnabled w |}.

(** What [loadModule] did, apart from the text of its diagnostics. *)
Definition observe (r : result (option (gmap string jsval) * World))
  : result (option (gmap string jsval) * World) :=
  (fun ow => (ow.1, silence ow.2)) <$> r.

(** The diagnostic of [loadModule] for an unknown type. *)
Definition not_found (data : CircuitElement) : string :=
  "Module type " ++ objectType data ++ " not found".

(** Property [k] of the element [loadModule] made, if it made one. *)
Definition loaded_prop (k : string)
    (r : result (option (gmap string jsval) * World)) : option jsval :=
  match r with
  | Ok (Some obj, _) => obj !! k
  | _ => None
  end.

(** The sort key of a tab: the position of its id in the persisted order,
    -1 when the id is not listed. *)
Definition tabKey `{Imports} (tabs : list string) (a : CircuitItem) : Z :=
  indexOf tabs (js_String (item_id a)).

(** The world in which [load] runs the scope loop. *)
Definition load_start `{Imports} (data : ProjectData) (w : World) : World :=
  extern "resetScopeList" []
    (set_globalScope None (extern "setProjectName" [JStr (project_name data)] w)).

(** The port [p] at position [i] of its list, placed at abscissa [px] in a
    layout of height [h] for [count] ports, with the id the [n]-th call of
    [generateId] returned. *)
Definition placed `{Imports} (px h : Z) (count : nat) (i n : nat) (p : Port) : Port :=
  {| port_obj := port_obj p;
     layoutProperties :=
       Some {| lp_x := px;
               lp_y := h / 2 - Z.of_nat count * 10 + 20 * Z.of_nat i + 10;
               lp_id := generateId n |} |}.

(** The ports of one side after the layout was generated; [first] is the
    number of ids generated before. *)
Definition place_ports `{Imports} (px h : Z) (first : nat)
    (o : option (list Port)) : option (list Port) :=
  (fun ports => imap (fun j => placed px h (length ports) j (first + j)) ports) <$> o.

(** The scope [s] with the layout [loadScope] generates for it. *)
Definition with_generated_layout `{Imports} (first : nat) (s : Scope) : Scope :=
  let n_in := length_or_0 (Input s) in
  let h := layoutHeight n_in (length_or_0 (Output s)) in
  set_layout
    (Some {| width := 100; height := h; title_x := 50; title_y := 13;
             titleEnabled := Some true |})
    (set_Output (place_ports 100 h (first + n_in) (Output s))
       (set_Input (place_ports 0 h first (Input s)) s)).

(** The world in which [loadScope] reaches its layout step. *)
Definition before_layout `{Imports} (fuel : nat) (scope : ref) (data : ScopeData.t)
    (w : World) : result World :=
  w ← loadGraph fuel scope data w; restoreTestbench data w.

(** load.ts 209-217: what [loadScope] does before the element loops. *)
Definition loadScope_nodes `{Imports} (scope : ref) (data : ScopeData.t)
    (w : World) : result World :=
  w ← update_scope scope
        (set_restricted (ScopeData.restrictedCircuitElementsUsed data)) w;
  w ← loadNodes (ScopeData.allNodes data) scope w;
  connectNodes (ScopeData.allNodes data) 0 scope w.

(** load.ts 236-300: what [loadScope] does after the element loops. *)
Definition loadScope_finish `{Imports} (fuel : nat) (scope : ref)
    (data : ScopeData.t) (w : World) : result World :=
  s ← get_scope scope w;
  w ← match wires s with
      | Some ws => updateWires ws scope w
      | None => Ok w
      end;
  w ← removeBugNodes fuel scope w;
  w ← match ScopeData.verilogMetadata data with
      | Some vm => update_scope scope (set_verilogMetadata (Some vm)) w
      | None => Ok w
      end;
  w ← restoreTestbench data w;
  resolveLayout scope data w.

(** The external calls of the scope loop of [load] (load.ts 350-362). *)
Definition calls_of_scope_loop : list string :=
  ["centerFocus"; "update"; "updateRestrictedElementsInScope"; "scheduleBackup"].

(** The external calls of [load] after the scope loop (load.ts 366-392). *)
Definition calls_after_scope_loop : list string :=
  ["changeClockTime"; "showProperties"; "switchCircuit"; "updateSimulationSet";
   "updateCanvasSet"; "gridUpdateSet"; "plotArea.reset"; "scheduleUpdate"].

(** The testbench state of the scope object [r], if it has one. *)
Definition testbench_of (w : World) (r : ref) : option TestbenchData :=
  scopes w !! r ≫= testbenchData.

(** *** Graph repair *)

(** The node object [r] is one that Graph Repair must keep. *)
Definition is_valid (w : World) (r : ref) : bool :=
  match node_heap w !! r with
  | Some node => negb (isBugNode node)
  | None => false
  end.

(** The node object [r] is live and belongs to [scope]. *)
Definition owned_by (scope : ref) (w : World) (r : ref) : Prop :=
  exists node, node_heap w !! r = Some node /\ node_scope node = scope.

(** The node set that [removeBugNodes] leaves, given the node set [l] it
    starts from: when the first node is invalid it is deleted and the node
    after it is kept unexamined; every other invalid node is deleted. *)
Definition repaired (w : World) (l : list ref) : list ref :=
  match l with
  | [] => []
  | r0 :: rest =>
      if is_valid w r0 then r0 :: filter (fun r => is_valid w r) rest
      else take 1 rest ++ filter (fun r => is_valid w r) (drop 1 rest)
  end.

(** What a deletion must leave alone in every other node object: its kind,
    its parent and its scope (its connections may change). *)
Definition node_identity (w : World) (r : ref) : option (Z * ParentObj * ref) :=
  (fun n => (type n, parent n, node_scope n)) <$> node_heap w !! r.

(** [delete] does not cascade on [scope]: deleting a node takes no other
    node out of the node set and leaves the other node objects as they
    are. *)
Definition deletes_no_other (scope : ref) (delete : ref -> World -> World) : Prop :=
  forall r w r', r' ≠ r ->
    (r' ∈ allNodes_of scope w -> r' ∈ allNodes_of scope (delete r w))
    /\ node_identity (delete r w) r' = node_identity w r'.

(** [delete] deletes one node of [scope]: deleting a node that the scope
    owns takes exactly this node out of the node set of the scope, which
    stays, and leaves the other node objects as they are. *)
Definition deletes_one_node (scope : ref) (delete : ref -> World -> World) : Prop :=
  forall r w, owned_by scope w r -> is_Some (scopes w !! scope) ->
    is_Some (scopes (delete r w) !! scope)
    /\ allNodes_of scope (delete r w) = filter (fun r' => r' ≠ r) (allNodes_of scope w)
    /\ forall r', r' ≠ r -> node_identity (delete r w) r' = node_identity w r'.

(** *** Node rewiring *)

(** The pre-loaded node that the index [n] names in the node set [pre]. *)
Definition preloaded (pre : list ref) (n : jsval) : jsval :=
  match n with
  | JNum k =>
      if k <? 0 then JUndefined
      else match pre !! Z.to_nat k with
           | Some t => JNode t
           | None => JUndefined
           end
  | _ => JUndefined
  end.

(** [n] is the index of a pre-loaded node. *)
Definition is_index (pre : list ref) (n : jsval) : Prop :=
  exists k, n = JNum k /\ 0 <= k < Z.of_nat (length pre).

(** [v] is a placeholder: a node object of [scope] that is not one of the
    pre-loaded nodes. *)
Definition is_placeholder (pre : list ref) (scope : ref) (w : World) (v : jsval) : Prop :=
  exists p, v = JNode p /\ (p ∉ pre) /\ node_scope <$> node_heap w !! p = Some scope.

(** The connections of the node object [r]. *)
Definition conn_of (w : World) (r : ref) : list ref :=
  match node_heap w !! r with
  | Some n => connections n
  | None => []
  end.

(** The node override [e] fits the element [obj]: it names a property that
    holds a placeholder and gives the index of a pre-loaded node, or it names
    a property that holds an array with a placeholder at every position for
    which it gives such an index. *)
Definition override_ok (pre : list ref) (scope : ref) (w : World)
    (obj : gmap string jsval) (e : string * jsval) : Prop :=
  match e.2 with
  | JArr ns =>
      exists arr, obj !! e.1 = Some (JArr arr)
        /\ (length ns <= length arr)%nat
        /\ forall j n, ns !! j = Some n ->
             is_index pre n
             /\ exists v, arr !! j = Some v /\ is_placeholder pre scope w v
  | n => is_placeholder pre scope w (get_prop obj e.1) /\ is_index pre n
  end.

(** What rewiring did for the override [e], between the element [obj1] and
    the element [obj']: the property (or every position of the array the
    override has an index for) references the pre-loaded node of that index;
    further positions of an array are as they were. *)
Definition rewired (pre : list ref) (obj1 obj' : gmap string jsval)
    (e : string * jsval) : Prop :=
  match e.2 with
  | JArr ns =>
      exists arr arr',
        obj1 !! e.1 = Some (JArr arr) /\ obj' !! e.1 = Some (JArr arr')
        /\ length arr' = length arr
        /\ (forall j n, ns !! j = Some n -> arr' !! j = Some (preloaded pre n))
        /\ (forall j, (length ns <= j)%nat -> arr' !! j = arr !! j)
  | n => obj' !! e.1 = Some (preloaded pre n)
  end.

(** The override [e] replaces the placeholder [p], which the element [obj]
    holds at the property (or at a position of the array) that [e] names, by
    the pre-loaded node [t]. *)
Definition replaces (pre : list ref) (obj : gmap string jsval)
    (e : string * jsval) (p t : ref) : Prop :=
  match e.2 with
  | JArr ns =>
      exists arr j n,
        obj !! e.1 = Some (JArr arr) /\ ns !! j = Some n
        /\ arr !! j = Some (JNode p) /\ preloaded pre n = JNode t
  | n => get_prop obj e.1 = JNode p /\ preloaded pre n = JNode t
  end.

(** The node objects among the values [vs]. *)
Definition node_refs (vs : list jsval) : list ref :=
  vs ≫= (fun v => match v with JNode r => [r] | _ => [] end).

(** The values of the element [obj] that the override [e] replaces. *)
Definition overridden (obj : gmap string jsval) (e : string * jsval) : list jsval :=
  match e.2 with
  | JArr ns =>
      match obj !! e.1 with
      | Some (JArr arr) => take (length ns) arr
      | _ => []
      end
  | _ => [get_prop obj e.1]
  end.

(** The placeholders of the element [obj] that the overrides [ns] replace. *)
Definition placeholders (obj : gmap string jsval) (ns : list (string * jsval))
  : list ref :=
  node_refs (ns ≫= overridden obj).

(** The placeholder [p] is discarded: it is not in the node set of [scope],
    it has no connection and no node lists it as connected. *)
Definition discarded (scope : ref) (w : World) (p : ref) : Prop :=
  (p ∉ allNodes_of scope w) /\ conn_of w p = [] /\ forall r, p ∉ conn_of w r.

(** The connections that the placeholder [p] had in [w1] are connections of
    the target [t] in [w'], at both ends: a node that [p] listed is listed
    by [t], and a node that listed [p] lists [t].  ([gone] are the
    placeholders that are replaced themselves.) *)
Definition transferred (gone : list ref) (w1 w' : World) (p t : ref) : Prop :=
  forall c, c ∉ gone ->
    (c ∈ conn_of w1 p -> c ∈ conn_of w' t)
    /\ (p ∈ conn_of w1 c -> t ∈ conn_of w' c).

(** Every connection of [w1] between two nodes that are not in [gone] is a
    connection of [w']. *)
Definition kept (gone : list ref) (w1 w' : World) : Prop :=
  forall r c, r ∉ gone -> c ∉ gone -> c ∈ conn_of w1 r -> c ∈ conn_of w' r.

(** "Every live connection is symmetric: if node A lists node B as
    connected, B lists A." *)
Definition symmetric (w : World) : Prop :=
  forall a b, b ∈ conn_of w a -> a ∈ conn_of w b.

(** The pre-loaded nodes [pre] are the first nodes of the node set of
    [scope], and all of them are live objects. *)
Definition preloaded_in (pre : list ref) (scope : ref) (w : World) : Prop :=
  (exists rest, allNodes <$> scopes w !! scope = Some (pre ++ rest)%list)
  /\ (forall t, t ∈ pre -> is_Some (node_heap w !! t)).

(** The rewirings of a descriptor, in the order in which [loadModule] makes
    them: the indices of an override, the (placeholder, target) pairs of an
    override and of all overrides, and the world after a sequence of
    ownership transfers. *)
Definition indices (e : string * jsval) : list jsval :=
  match e.2 with
  | JArr ns => ns
  | n => [n]
  end.

Definition entry_pairs (pre : list ref) (obj : gmap string jsval)
    (e : string * jsval) : list (ref * ref) :=
  zip (node_refs (overridden obj e)) (node_refs (preloaded pre <$> indices e)).

Definition override_pairs (pre : list ref) (obj : gmap string jsval)
    (ns : list (string * jsval)) : list (ref * ref) :=
  ns ≫= entry_pairs pre obj.

Definition rewireAll (pairs : list (ref * ref)) (w : World) : World :=
  foldl (fun w pt => rewireNode pt.1 pt.2 w) w pairs.

(** Every pair is a live node of [scope] and a live node other than it. *)
Definition live_pairs (scope : ref) (w : World) (pairs : list (ref * ref)) : Prop :=
  forall p t, (p, t) ∈ pairs ->
    p ≠ t /\ node_scope <$> node_heap w !! p = Some scope
    /\ is_Some (node_heap w !! t).

(** From [w] to [w'] no node changed scope. *)
Definition same_node_scopes (w w' : World) : Prop :=
  forall r, node_scope <$> node_heap w' !! r = node_scope <$> node_heap w !! r.

(** *** Layout ids *)

(** The layout ids of the ports of one side. *)
Definition port_ids (o : option (list Port)) : list jsval :=
  default [] o ≫= fun p =>
    match layoutProperties p with
    | Some lp => [lp_id lp]
    | None => []
    end.

(** The label direction [loadModule] derives from the direction of the
    constructed object when the descriptor gives none. *)
Definition derivedLabelDirection `{Imports} (obj : gmap string jsval) : jsval :=
  index_by oppositeDirection (index_by fixDirection (get_prop obj "direction")).

(** * Properties *)

(** ** Graph repair *)

Section GraphRepairFacts.
Context `{Imports}.
Variable scope : ref.

(** [Node.delete] never enlarges the node set of [scope]. *)
Hypothesis delete_shrinks : forall r w,
  (length (allNodes_of scope (node_delete r w)) <= length (allNodes_of scope w))%nat.

Lemma get_scope_allNodes w s :
  get_scope scope w = Ok s -> allNodes_of scope w = allNodes s.
Proof.
  unfold get_scope, allNodes_of. destruct (scopes w !! scope); congruence.
Qed.

(** A turn of the loop keeps [x] equal to the size of the node set, and
    either steps to the next index or, when the size changed, shrinks
    [x] and resumes at index 1. *)
Lemma removeBugNodes_turn_spec i x w i' x' w' :
  removeBugNodes_turn scope i x w = Ok (i', x', w') ->
  x = length (allNodes_of scope w) ->
  x' = length (allNodes_of scope w')
  /\ ((x' = x /\ i' = S i) \/ (x' < x /\ i' = 1))%nat.
Proof.
  unfold removeBugNodes_turn. intros Hturn Hx.
  destruct (get_scope scope w) as [s| |] eqn:Hs; simpl in Hturn; try discriminate.
  destruct (allNodes s !! i) as [r|]; try discriminate.
  destruct (get_node r w) as [node| |]; simpl in Hturn; try discriminate.
  set (w1 := if isBugNode node then node_delete r w else w) in *.
  assert (Hle : (length (allNodes_of scope w1) <= x)%nat).
  { subst w1 x. destruct (isBugNode node); [apply delete_shrinks | lia]. }
  destruct (get_scope scope w1) as [s1| |] eqn:Hs1; simpl in Hturn; try discriminate.
  rewrite (get_scope_allNodes _ _ Hs1) in Hle.
  destruct (length (allNodes s1) =? x)%nat eqn:Hlen; simpl in Hturn;
    injection Hturn as <- <- <-; rewrite (get_scope_allNodes _ _ Hs1).
  - apply Nat.eqb_eq in Hlen. lia.
  - apply Nat.eqb_neq in Hlen. lia.
Qed.

Lemma removeBugNodes_turn_returns i x w :
  removeBugNodes_turn scope i x w <> Timeout.
Proof.
  unfold removeBugNodes_turn, get_scope, get_node.
  destruct (scopes w !! scope) as [s|]; simpl; [|done].
  destruct (allNodes s !! i) as [r|]; [|done].
  destruct (node_heap w !! r) as [node|]; simpl; [|done].
  destruct (scopes _ !! scope); simpl; [|done].
  destruct (negb _); done.
Qed.

Lemma removeBugNodes_loop_fuel fuel : forall i x w,
  x = length (allNodes_of scope w) ->
  (x * (x + 1) + (x - i) + 1 <= fuel)%nat ->
  removeBugNodes_loop fuel scope i x w <> Timeout.
Proof.
  induction fuel as [|fuel IH]; intros i x w Hx Hfuel; [lia|].
  simpl. destruct (i <? x)%nat eqn:Hix; [|discriminate].
  apply Nat.ltb_lt in Hix.
  pose proof (removeBugNodes_turn_returns i x w) as Hret.
  destruct (removeBugNodes_turn scope i x w) as [[[i' x'] w']| |] eqn:Hturn;
    simpl; try done.
  destruct (removeBugNodes_turn_spec _ _ _ _ _ _ Hturn Hx) as [Hx' Hstep].
  apply IH; [exact Hx'|].
  destruct Hstep as [[-> ->]|[Hlt ->]]; [lia | nia].
Qed.

Lemma removeBugNodes_loop_more_fuel fuel : forall fuel' i x w,
  (fuel <= fuel')%nat ->
  removeBugNodes_loop fuel scope i x w <> Timeout ->
  removeBugNodes_loop fuel' scope i x w = removeBugNodes_loop fuel scope i x w.
Proof.
  induction fuel as [|fuel IH]; intros fuel' i x w Hle Hout; [done|].
  destruct fuel' as [|fuel']; [lia|].
  simpl in *. destruct (i <? x)%nat; [|done].
  destruct (removeBugNodes_turn scope i x w) as [[[i' x'] w']| |]; simpl in *; try done.
  apply IH; [lia | exact Hout].
Qed.
End GraphRepairFacts.

Lemma filter_keeps (P : ref -> Prop) `{!forall r, Decision (P r)} (l : list ref) :
  (forall r, r ∈ l -> P r) -> filter P l = l.
Proof.
  induction l as [|r l IH]; intros Hall; [done|].
  rewrite filter_cons_True by (apply Hall; left).
  f_equal. apply IH. intros r' Hr'. apply Hall. now right.
Qed.

Lemma allNodes_of_alt sc w : allNodes_of sc w = default [] (allNodes <$> scopes w !! sc).
Proof. unfold allNodes_of. now destruct (scopes w !! sc). Qed.

Lemma drop_node_heap sc r w : node_heap (drop_node sc r w) = node_heap w.
Proof. unfold drop_node. now destruct (scopes w !! sc). Qed.

Lemma drop_node_scopes sc r w scope :
  allNodes <$> scopes (drop_node sc r w) !! scope
  = (fun l => if decide (sc = scope) then filter (fun r' => r' ≠ r) l else l)
      <$> (allNodes <$> scopes w !! scope).
Proof.
  unfold drop_node. destruct (scopes w !! sc) as [s|] eqn:Hs; simpl.
  - case_decide as Hsc.
    + subst sc. now rewrite lookup_insert_eq, Hs.
    + rewrite lookup_insert_ne by done. now destruct (scopes w !! scope).
  - case_decide as Hsc; [subst sc; now rewrite Hs|].
    now destruct (scopes w !! scope).
Qed.

Lemma drop_node_allNodes sc r w scope :
  allNodes_of scope (drop_node sc r w)
  = if decide (sc = scope) then filter (fun r' => r' ≠ r) (allNodes_of scope w)
    else allNodes_of scope w.
Proof.
  unfold drop_node, allNodes_of.
  destruct (scopes w !! sc) as [s|] eqn:Hs; simpl.
  - case_decide as Hsc.
    + subst sc. now rewrite lookup_insert_eq, Hs.
    + now rewrite lookup_insert_ne.
  - case_decide as Hsc; [|done]. subst sc. now rewrite Hs.
Qed.

Lemma delete_node_allNodes scope r w :
  allNodes_of scope (delete_node r w) = allNodes_of scope w
  \/ allNodes_of scope (delete_node r w)
     = filter (fun r' => r' ≠ r) (allNodes_of scope w).
Proof.
  unfold delete_node.
  destruct (node_heap w !! r) as [n|]; [|now left].
  destruct (scopes w !! node_scope n) as [s|] eqn:Hs; [|now left].
  change (allNodes_of scope (set_node_heap ?f ?w0)) with (allNodes_of scope w0).
  rewrite drop_node_allNodes. case_decide; [now right | now left].
Qed.

Lemma delete_node_shrinks scope r w :
  (length (allNodes_of scope (delete_node r w)) <= length (allNodes_of scope w))%nat.
Proof.
  destruct (delete_node_allNodes scope r w) as [->| ->]; [done|].
  apply length_filter.
Qed.

(** C4 (as amended): for every finite node set [removeBugNodes] terminates,
    provided deleting a node never enlarges the node set: with fuel
    (n+1)^2 for n nodes the run ends (normally or by an exception), and more
    fuel changes nothing.  After every turn the bound [x] is the current size
    of the node set, a size change makes it strictly smaller, and the loop
    stops as soon as the index reaches the bound. *)
Theorem removeBugNodes_terminates `{Imports} (scope : ref) (w : World) :
  (forall r w', (length (allNodes_of scope (node_delete r w'))
                 <= length (allNodes_of scope w'))%nat) ->
  (exists out, out <> Timeout /\
     forall fuel, ((length (allNodes_of scope w) + 1) ^ 2 <= fuel)%nat ->
       removeBugNodes fuel scope w = out)
  /\ (forall i x w1 i' x' w1',
        removeBugNodes_turn scope i x w1 = Ok (i', x', w1') ->
        x = length (allNodes_of scope w1) ->
        x' = length (allNodes_of scope w1') /\ (x' <> x -> (x' < x)%nat))
  /\ (forall fuel i x w1, (x <= i)%nat ->
        removeBugNodes_loop (S fuel) scope i x w1 = Ok w1).
Proof.
  intros Hdel. split; [|split].
  - set (n := length (allNodes_of scope w)).
    exists (removeBugNodes ((n + 1) ^ 2) scope w).
    unfold removeBugNodes, get_scope.
    destruct (scopes w !! scope) as [s|] eqn:Hs; simpl; [|done].
    assert (Hn : length (allNodes s) = n)
      by (subst n; unfold allNodes_of; now rewrite Hs).
    assert (Hout : removeBugNodes_loop ((n + 1) ^ 2) scope 0 (length (allNodes s)) w
                   <> Timeout).
    { apply removeBugNodes_loop_fuel; [exact Hdel | exact Hn | rewrite Hn, Nat.pow_2_r; nia]. }
    split; [exact Hout|].
    intros fuel Hfuel. now apply removeBugNodes_loop_more_fuel.
  - intros i x w1 i' x' w1' Hturn Hx.
    destruct (removeBugNodes_turn_spec scope Hdel _ _ _ _ _ _ Hturn Hx) as [Hx' Hstep].
    split; [exact Hx' | lia].
  - intros fuel i x w1 Hle. simpl.
    destruct (i <? x)%nat eqn:Hix; [|done]. apply Nat.ltb_lt in Hix. lia.
Qed.

Lemma removeBugNodes_terminates_witness :
  exists out, out <> Timeout /\
    forall fuel, (9 <= fuel)%nat ->
      @removeBugNodes Demo.imports fuel 0 Demo.two_bug_nodes = out.
Proof.
  exact (proj1 (@removeBugNodes_terminates Demo.imports 0%nat Demo.two_bug_nodes
                  (delete_node_shrinks 0%nat))).
Defined.

(** C4 (as stated, refuted): after a turn that changed the size of the node
    set the scan does not go back to the beginning.  On a node set of two
    invalid nodes the turn at index 0 deletes the first one and the loop
    resumes at index 1, so the node that moved to index 0 is never looked
    at. *)
Lemma removeBugNodes_restart_not_at_beginning :
  ~ (forall i x w i' x' w',
       @removeBugNodes_turn Demo.imports 0 i x w = Ok (i', x', w') ->
       length (allNodes_of 0 w') <> x -> i' = 0%nat).
Proof.
  intros Hrestart.
  assert (Hfact : (fun t => (t.1.1, t.1.2, length (allNodes_of 0 t.2)))
                    <$> @removeBugNodes_turn Demo.imports 0 0 2 Demo.two_bug_nodes
                  = Ok (1%nat, 1%nat, 1%nat)) by (vm_compute; reflexivity).
  destruct (@removeBugNodes_turn Demo.imports 0 0 2 Demo.two_bug_nodes)
    as [[[i' x'] w']| |] eqn:Hturn; simpl in Hfact; try discriminate.
  injection Hfact as -> -> Hlen.
  specialize (Hrestart _ _ _ _ _ _ Hturn). rewrite Hlen in Hrestart.
  specialize (Hrestart ltac:(lia)). lia.
Qed.

(** C3 (the code at the failing input): on a scope whose node set is two
    invalid nodes, [removeBugNodes] deletes the first and returns with the
    second still in the node set, although it is not internal and its parent
    is the generic 'CircuitElement'. *)
Theorem removeBugNodes_leaves_invalid_node :
  (fun w' => (allNodes_of 0 w',
              (fun node => (type node, parent_objectType (parent node)))
                <$> node_heap w' !! 11%nat))
    <$> @removeBugNodes Demo.imports 9 0 Demo.two_bug_nodes
  = Ok ([11%nat], Some (0, "CircuitElement")).
Proof. vm_compute. reflexivity. Qed.

(** ** Element loader: type resolution *)

Section TypeResolution.
Context `{Imports}.

Lemma loadModules_app before after scope w :
  loadModules (before ++ after) scope w =
  (w1 ← loadModules before scope w; loadModules after scope w1).
Proof.
  revert w. induction before as [|d before IH]; intros w; [done|].
  simpl. destruct (loadModule d scope w) as [[o w1]| |]; simpl; [apply IH|done..].
Qed.

Lemma rectify_cases legacy current :
  rectify !! legacy = Some current ->
  (legacy = "FlipFlop" /\ current = "DflipFlop")
  \/ (legacy = "Ram" /\ current = "Rom").
Proof.
  unfold rectify. rewrite !lookup_insert_Some, lookup_empty.
  intros [[<- <-]|[_ [[<- <-]|[_ ?]]]]; [left|right|done]; done.
Qed.

Lemma rectifyObjectType_legacy legacy current :
  rectify !! legacy = Some current ->
  rectifyObjectType legacy = Tag current /\ rectifyObjectType current = Tag current.
Proof.
  intros [[-> ->]|[-> ->]]%rectify_cases; split; reflexivity.
Qed.
End TypeResolution.

Lemma demo_modules_AndGate :
  @modules Demo.imports !! @propertyKey Demo.imports (rectifyObjectType "AndGate")
  = Some (Demo.gate "AndGate").
Proof.
  replace (@propertyKey Demo.imports (rectifyObjectType "AndGate")) with "AndGate"
    by (vm_compute; reflexivity).
  apply lookup_insert_eq.
Qed.

Lemma demo_modules_DflipFlop :
  @modules Demo.imports !! "DflipFlop" = Some (Demo.gate "DflipFlop").
Proof.
  unfold modules, Demo.imports.
  rewrite lookup_insert_ne by discriminate. apply lookup_insert_eq.
Qed.

Section ElementLoops.
Context `{Imports}.

Lemma loadAllModules_app ML1 ML2 data scope w :
  loadAllModules (ML1 ++ ML2)%list data scope w =
  (w1 ← loadAllModules ML1 data scope w; loadAllModules ML2 data scope w1).
Proof.
  revert w. induction ML1 as [|m ML1 IH]; intros w; [done|].
  simpl. destruct (match ScopeData.elements data !! m with
                   | Some ds => _ | None => Ok w end) as [w1| |]; simpl; [apply IH|done..].
Qed.

Lemma loadScope_phases fuel scope data w :
  loadScope fuel scope data w =
  (w1 ← loadScope_nodes scope data w;
   w1 ← loadAllModules moduleList data scope w1;
   loadScope_finish fuel scope data w1).
Proof.
  unfold loadScope, loadGraph, loadScope_nodes, loadScope_finish.
  destruct (update_scope scope _ w) as [w1| |]; simpl; [|done..].
  destruct (loadNodes _ scope w1) as [w2| |]; simpl; [|done..].
  destruct (connectNodes _ 0 scope w2) as [w3| |]; simpl; [|done..].
  destruct (loadAllModules moduleList data scope w3) as [w4| |]; simpl; [|done..].
  destruct (get_scope scope w4) as [s| |]; simpl; [|done..].
  destruct (match wires s with Some ws => _ | None => Ok w4 end) as [w5| |];
    simpl; [|done..].
  destruct (removeBugNodes fuel scope w5) as [w6| |]; simpl; [|done..].
  now destruct (match ScopeData.verilogMetadata data with
                | Some vm => _ | None => Ok w6 end).
Qed.
End ElementLoops.

(** C6: when the rectified type tag has no constructor in the module table,
    [loadModule] writes one diagnostic and returns: no element is made and
    nothing but the console changes.  The loop over the descriptors goes
    on with the elements after it, and so does [loadScope]: with the
    descriptor in the list of a category of the module list, [loadScope]
    loads the nodes, the categories before, the elements before it in its
    list, writes the diagnostic, and then loads the elements after it, the
    categories after, and finishes the scope. *)
Theorem loadModule_unknown_type `{Imports} (data : CircuitElement) (scope : ref)
    (w : World) :
  modules !! propertyKey (rectifyObjectType (objectType data)) = None ->
  loadModule data scope w = Ok (None, console_error (not_found data) w)
  /\ silence (console_error (not_found data) w) = silence w
  /\ console (console_error (not_found data) w) = (console w ++ [not_found data])%list
  /\ (forall before after w0,
        loadModules (before ++ data :: after) scope w0 =
        (w1 ← loadModules before scope w0;
         loadModules after scope (console_error (not_found data) w1)))
  /\ (forall fuel sdata ML1 m ML2 before after w0,
        moduleList = (ML1 ++ m :: ML2)%list ->
        ScopeData.elements sdata !! m = Some (before ++ data :: after)%list ->
        m ≠ "SubCircuit" ->
        loadScope fuel scope sdata w0 =
        (w1 ← loadScope_nodes scope sdata w0;
         w1 ← loadAllModules ML1 sdata scope w1;
         w1 ← loadModules before scope w1;
         w1 ← loadModules after scope (console_error (not_found data) w1);
         w1 ← loadAllModules ML2 sdata scope w1;
         loadScope_finish fuel scope sdata w1)).
Proof.
  intros Hnone.
  assert (Hload : forall w', loadModule data scope w'
                             = Ok (None, console_error (not_found data) w')).
  { intros w'. unfold loadModule. now rewrite Hnone. }
  assert (Hloop : forall before after w0,
            loadModules (before ++ data :: after) scope w0 =
            (w1 ← loadModules before scope w0;
             loadModules after scope (console_error (not_found data) w1))).
  { intros before after w0. rewrite loadModules_app.
    destruct (loadModules before scope w0) as [w1| |]; simpl; [|done..].
    now rewrite Hload. }
  split; [apply Hload|]. split; [reflexivity|]. split; [reflexivity|].
  split; [exact Hloop|].
  intros fuel sdata ML1 m ML2 before after w0 HML Hds Hsub.
  rewrite loadScope_phases, HML.
  destruct (loadScope_nodes scope sdata w0) as [w1| |]; simpl; [|done..].
  rewrite loadAllModules_app.
  destruct (loadAllModules ML1 sdata scope w1) as [w2| |]; simpl; [|done..].
  rewrite Hds. apply String.eqb_neq in Hsub. rewrite Hsub, Hloop.
  destruct (loadModules before scope w2) as [w3| |]; simpl; [|done..].
  now destruct (loadModules after scope _) as [w4| |].
Qed.

(** C7: a descriptor with a legacy tag of the rectification table loads as
    the same descriptor with the current tag does: the same table entry is
    resolved, the two runs are equal whenever the current tag has a
    constructor, and in every case they agree on the element and on the
    world apart from the text of the diagnostic. *)
Theorem loadModule_legacy_tag `{Imports} (legacy current : string)
    (data : CircuitElement) (scope : ref) (w : World) :
  rectify !! legacy = Some current ->
  objectType data = legacy ->
  modules !! propertyKey (rectifyObjectType (objectType data))
    = modules !! propertyKey
                   (rectifyObjectType (objectType (with_objectType current data)))
  /\ (is_Some (modules !! current) ->
       loadModule data scope w = loadModule (with_objectType current data) scope w)
  /\ observe (loadModule data scope w)
      = observe (loadModule (with_objectType current data) scope w).
Proof.
  intros Hrect Htag.
  destruct (rectifyObjectType_legacy _ _ Hrect) as [Hl Hc].
  assert (Hsame : modules !! propertyKey (rectifyObjectType (objectType data))
                  = modules !! propertyKey
                                 (rectifyObjectType
                                    (objectType (with_objectType current data)))).
  { simpl. now rewrite Htag, Hl, Hc. }
  split; [exact Hsame|].
  unfold loadModule. rewrite <- Hsame. rewrite Htag, Hl. simpl.
  destruct (modules !! current) as [C|]; simpl.
  - split; reflexivity.
  - split; [intros [? ?]; discriminate | reflexivity].
Qed.

(** An unknown element in front of a gate: the diagnostic is written and
    the gate after it is loaded all the same (its three placeholders are
    made, and its output is moved to node 2). *)
Lemma loadModule_unknown_type_witness :
  (fun w' => (console w', allNodes_of 0 w',
              node_scope <$> node_heap w' !! 5%nat, conn_of w' 2))
    <$> @loadScope Demo.imports 16 0
          (Demo.scope_with "AndGate" [Demo.element "Buzzer"; Demo.linked_gate])
          Demo.three_nodes
  = Ok (["Module type Buzzer not found"], [0; 1; 2]%nat, Some O, [1%nat]).
Proof.
  rewrite (proj2 (proj2 (proj2 (proj2
             (@loadModule_unknown_type Demo.imports (Demo.element "Buzzer")
                0%nat Demo.main_world ltac:(vm_compute; reflexivity)))))
             16%nat (Demo.scope_with "AndGate" [Demo.element "Buzzer"; Demo.linked_gate])
             ["Input"; "Output"] "AndGate" ["DflipFlop"; "Rom"; "SubCircuit"]
             [] [Demo.linked_gate] Demo.three_nodes
             eq_refl ltac:(apply lookup_insert_eq) ltac:(discriminate)).
  vm_compute. reflexivity.
Defined.

Lemma loadModule_legacy_tag_witness :
  @loadModule Demo.imports (Demo.element "FlipFlop") 0 Demo.main_world
  = @loadModule Demo.imports (Demo.element "DflipFlop") 0 Demo.main_world.
Proof.
  refine (proj1 (proj2 (@loadModule_legacy_tag Demo.imports "FlipFlop" "DflipFlop"
                   (Demo.element "FlipFlop") 0%nat Demo.main_world
                   ltac:(vm_compute; reflexivity) eq_refl)) _).
  rewrite demo_modules_DflipFlop. eexists. reflexivity.
Defined.

(** ** Element loader: label and delay *)

Section ElementProperties.
Context `{Imports}.

Lemma restoreValues_other vals : forall (obj : gmap string jsval) k,
  k ∉ vals.*1 -> restoreValues vals obj !! k = obj !! k.
Proof.
  induction vals as [|[prop v] vals IH]; intros obj k Hk; [done|].
  simpl in *. apply not_elem_of_cons in Hk as [Hne Hk].
  rewrite IH by done. now rewrite lookup_insert_ne.
Qed.

Lemma replaceNode_other node n (obj : gmap string jsval) w obj' w' k :
  replaceNode node n obj w = Ok (obj', w') -> k ≠ node -> obj' !! k = obj !! k.
Proof.
  unfold replaceNode. intros Hrun Hne.
  assert (Hscalar : forall v,
    (replace (get_prop obj node) v w ≫= fun '(v, w) => Ok (<[node := v]> obj, w))
      = Ok (obj', w') -> obj' !! k = obj !! k).
  { intros v Hv. destruct (replace _ v w) as [[v' w1]| |]; simpl in Hv; try done.
    injection Hv as <- <-. now rewrite lookup_insert_ne. }
  destruct n as [| | | | |ns|]; try (now apply (Hscalar _ Hrun)).
  destruct ns as [|n0 ns]; [now injection Hrun as <- <-|].
  destruct (get_prop obj node) as [| | | | |arr|]; try done.
  destruct (replaceEach _ _ arr w) as [[arr' w1]| |]; simpl in Hrun; try done.
  injection Hrun as <- <-. now rewrite lookup_insert_ne.
Qed.

Lemma replaceNodes_other ns : forall (obj : gmap string jsval) w obj' w' k,
  replaceNodes ns obj w = Ok (obj', w') -> k ∉ ns.*1 -> obj' !! k = obj !! k.
Proof.
  induction ns as [|[node n] ns IH]; intros obj w obj' w' k Hrun Hk.
  - now injection Hrun as <- <-.
  - simpl in *. apply not_elem_of_cons in Hk as [Hne Hk].
    destruct (replaceNode node n obj w) as [[obj1 w1]| |] eqn:Hone;
      simpl in Hrun; try done.
    rewrite (IH _ _ _ _ _ Hrun Hk). now apply (replaceNode_other _ _ _ _ _ _ _ Hone).
Qed.

(** A property [k] that neither the direction fix-up, nor the value and
    node overrides, nor the subcircuit step writes keeps the value the
    assignments of lines 144-150 gave it. *)
Lemma loadModule_property k data scope w C obj w' :
  modules !! propertyKey (rectifyObjectType (objectType data)) = Some C ->
  (forall o w0 o' w0', fixDirection_method C o w0 = Ok (o', w0') -> o' !! k = o !! k) ->
  k ∉ (default [] (customData data ≫= values)).*1 ->
  k ∉ (default [] (customData data ≫= nodes)).*1 ->
  k ≠ "subcircuitMetadata" ->
  loadModule data scope w = Ok (Some obj, w') ->
  exists obj0 w0,
    construct C (x data) (y data) scope
      (default [] (customData data ≫= constructorParamaters)) w = Ok (obj0, w0)
    /\ obj !! k = applyDescriptor data obj0 !! k.
Proof.
  intros Hmod Hfix Hvals Hnodes Hsub Hrun.
  unfold loadModule in Hrun. rewrite Hmod in Hrun. unfold constructModule in Hrun.
  destruct (construct C _ _ _ _ w) as [[obj0 w0]| |]; simpl in Hrun; try done.
  exists obj0, w0. split; [done|].
  destruct (fixDirection_method C _ w0) as [[obj1 w1]| |] eqn:Hfd;
    simpl in Hrun; try done.
  rewrite <- (Hfix _ _ _ _ Hfd).
  set (obj2 := match customData data ≫= values with
               | Some vals => restoreValues vals obj1
               | None => obj1
               end) in *.
  assert (H2 : obj2 !! k = obj1 !! k).
  { subst obj2. destruct (customData data ≫= values) as [vals|]; [|done].
    now apply restoreValues_other. }
  destruct (match customData data ≫= nodes with
            | Some ns => replaceNodes ns obj2 w1
            | None => Ok (obj2, w1)
            end) as [[obj3 w3]| |] eqn:Hrep; simpl in Hrun; try done.
  assert (H3 : obj3 !! k = obj2 !! k).
  { destruct (customData data ≫= nodes) as [ns|].
    - now apply (replaceNodes_other _ _ _ _ _ _ Hrep).
    - now injection Hrep as <- <-. }
  injection Hrun as <- <-. rewrite <- H2, <- H3.
  destruct (truthy (subcircuitMetadata data)); [|done].
  now rewrite lookup_insert_ne.
Qed.
End ElementProperties.

(** X2: the delay of a loaded element is [data.propagationDelay ||
    obj.propagationDelay]: the explicit delay when it is present and not 0,
    the delay the constructor set otherwise.  (No override is named
    "propagationDelay" and the direction fix-up does not write it.) *)
Lemma loadModule_delay `{Imports} data scope w C obj w' :
  modules !! propertyKey (rectifyObjectType (objectType data)) = Some C ->
  (forall o w0 o' w0', fixDirection_method C o w0 = Ok (o', w0') ->
     o' !! "propagationDelay" = o !! "propagationDelay") ->
  "propagationDelay" ∉ (default [] (customData data ≫= values)).*1 ->
  "propagationDelay" ∉ (default [] (customData data ≫= nodes)).*1 ->
  loadModule data scope w = Ok (Some obj, w') ->
  exists obj0 w0,
    construct C (x data) (y data) scope
      (default [] (customData data ≫= constructorParamaters)) w = Ok (obj0, w0)
    /\ get_prop obj "propagationDelay" =
       match propagationDelay data with
       | Some d => if d =? 0 then get_prop obj0 "propagationDelay" else JNum d
       | None => get_prop obj0 "propagationDelay"
       end.
Proof.
  intros Hmod Hfix Hvals Hnodes Hrun.
  destruct (loadModule_property "propagationDelay" _ _ _ _ _ _
              Hmod Hfix Hvals Hnodes ltac:(done) Hrun) as (obj0 & w0 & Hc & Hk).
  exists obj0, w0. split; [done|].
  unfold get_prop at 1. rewrite Hk. unfold applyDescriptor.
  rewrite lookup_insert_eq. simpl.
  assert (Hget : forall (o : gmap string jsval) a b,
            get_prop (<["labelDirection" := a]> (<["label" := b]> o)) "propagationDelay"
            = get_prop o "propagationDelay").
  { intros. unfold get_prop. now rewrite !lookup_insert_ne. }
  rewrite Hget. unfold js_or.
  destruct (propagationDelay data) as [d|]; simpl; [|done].
  now destruct (d =? 0).
Qed.

(** C9 (the code at the failing input): an AND gate saved with the explicit
    delay 0 is loaded with the delay 10 its constructor set. *)
Theorem loadModule_zero_delay_ignored :
  propagationDelay Demo.zero_delay_gate = Some 0
  /\ loaded_prop "propagationDelay"
       (@loadModule Demo.imports Demo.zero_delay_gate 0 Demo.main_world)
     = Some (JNum 10).
Proof. split; [reflexivity | vm_compute; reflexivity]. Qed.

(** C10 (as amended): [loadModule] assigns [data.label] to the element
    whether or not the descriptor carries a label.  Provided nothing writes
    the label afterwards (no value override and no node override is named
    "label", and the direction fix-up of the class leaves it alone), the
    label of the loaded element is the explicit label, or undefined when
    the descriptor has none. *)
Theorem loadModule_label `{Imports} data scope w C obj w' :
  modules !! propertyKey (rectifyObjectType (objectType data)) = Some C ->
  (forall o w0 o' w0', fixDirection_method C o w0 = Ok (o', w0') ->
     o' !! "label" = o !! "label") ->
  "label" ∉ (default [] (customData data ≫= values)).*1 ->
  "label" ∉ (default [] (customData data ≫= nodes)).*1 ->
  loadModule data scope w = Ok (Some obj, w') ->
  obj !! "label" = Some (match label data with
                         | Some s => JStr s
                         | None => JUndefined
                         end).
Proof.
  intros Hmod Hfix Hvals Hnodes Hrun.
  destruct (loadModule_property "label" _ _ _ _ _ _
              Hmod Hfix Hvals Hnodes ltac:(done) Hrun) as (obj0 & w0 & Hc & Hk).
  rewrite Hk. unfold applyDescriptor.
  now rewrite !lookup_insert_ne, lookup_insert_eq by done.
Qed.

Lemma loadModule_label_witness :
  loaded_prop "label"
    (@loadModule Demo.imports (Demo.element "AndGate") 0 Demo.main_world)
  = Some JUndefined.
Proof.
  assert (Hmade : is_Some (loaded_prop "label"
            (@loadModule Demo.imports (Demo.element "AndGate") 0 Demo.main_world)))
    by (vm_compute; eexists; reflexivity).
  destruct (@loadModule Demo.imports (Demo.element "AndGate") 0 Demo.main_world)
    as [[[obj|] w']| |] eqn:Hrun; simpl in *;
    try (exfalso; destruct Hmade; discriminate).
  refine (@loadModule_label Demo.imports (Demo.element "AndGate") 0%nat
            Demo.main_world (Demo.gate "AndGate") obj w' _ _ _ _ Hrun).
  - exact demo_modules_AndGate.
  - intros o w0 o' w0' Heq. injection Heq as <- <-. reflexivity.
  - apply not_elem_of_nil.
  - apply not_elem_of_nil.
Defined.

(** C10 (as stated, refuted): a descriptor without a label does not leave
    the label of construction in place.  The gate constructor sets the label
    to the empty string; after [loadModule] the label is undefined. *)
Lemma loadModule_label_not_kept :
  ~ (forall data scope w C obj0 w0 obj w',
       label data = None ->
       @modules Demo.imports
         !! @propertyKey Demo.imports (rectifyObjectType (objectType data)) = Some C ->
       construct C (x data) (y data) scope
         (default [] (customData data ≫= constructorParamaters)) w = Ok (obj0, w0) ->
       @loadModule Demo.imports data scope w = Ok (Some obj, w') ->
       obj !! "label" = obj0 !! "label").
Proof.
  intros Hkept.
  assert (Hafter : loaded_prop "label"
            (@loadModule Demo.imports (Demo.element "AndGate") 0 Demo.main_world)
          = Some JUndefined) by (vm_compute; reflexivity).
  assert (Hbefore : (fun ow => ow.1 !! "label")
            <$> construct (Demo.gate "AndGate") 10 20 0%nat [] Demo.main_world
          = Ok (Some (JStr ""))) by (vm_compute; reflexivity).
  destruct (@loadModule Demo.imports (Demo.element "AndGate") 0 Demo.main_world)
    as [[[obj|] w']| |] eqn:Hrun; simpl in Hafter; try discriminate.
  destruct (construct (Demo.gate "AndGate") 10 20 0%nat [] Demo.main_world)
    as [[obj0 w0]| |] eqn:Hcons; simpl in Hbefore; try discriminate.
  specialize (Hkept (Demo.element "AndGate") 0%nat Demo.main_world
                (Demo.gate "AndGate") obj0 w0 obj w' eq_refl
                demo_modules_AndGate Hcons Hrun).
  injection Hbefore as Hbefore. congruence.
Qed.

(** ** Project loader: tab order *)

Section SortByKey.
Context {A : Type} (key : A -> Z).
Local Abbreviation compare := (fun a b : A => key a - key b).

Lemma sort_insert_perm a l : sort_insert compare a l ≡ₚ a :: l.
Proof.
  induction l as [|b l IH]; simpl; [done|].
  destruct (0 <? _); [|done].
  rewrite IH. apply Permutation_swap.
Qed.

Lemma array_sort_perm l : array_sort compare l ≡ₚ l.
Proof.
  induction l as [|a l IH]; simpl; [done|].
  now rewrite sort_insert_perm, IH.
Qed.

Lemma sort_insert_sorted a l :
  StronglySorted (fun a b => key a <= key b) l ->
  StronglySorted (fun a b => key a <= key b) (sort_insert compare a l).
Proof.
  induction 1 as [|b l Hl IH Hb]; simpl.
  - repeat constructor.
  - destruct (0 <? key a - key b) eqn:Hcmp.
    + apply Z.ltb_lt in Hcmp. constructor; [exact IH|].
      rewrite sort_insert_perm. constructor; [lia | exact Hb].
    + apply Z.ltb_ge in Hcmp. constructor; [now constructor|].
      constructor; [lia|].
      eapply Forall_impl; [exact Hb|]. simpl. intros c Hc. lia.
Qed.

Lemma array_sort_sorted l :
  StronglySorted (fun a b => key a <= key b) (array_sort compare l).
Proof.
  induction l as [|a l IH]; simpl; [constructor|].
  now apply sort_insert_sorted.
Qed.

(** Stability: the elements of one key keep their order. *)
Lemma sort_insert_stable z a l :
  filter (fun b => key b = z) (sort_insert compare a l)
  = filter (fun b => key b = z) (a :: l).
Proof.
  induction l as [|b l IH]; simpl; [done|].
  destruct (0 <? key a - key b) eqn:Hcmp; [|done].
  apply Z.ltb_lt in Hcmp.
  rewrite (filter_cons _ b), IH, !filter_cons.
  repeat case_decide; try done; lia.
Qed.

Lemma array_sort_stable z l :
  filter (fun b => key b = z) (array_sort compare l)
  = filter (fun b => key b = z) l.
Proof.
  induction l as [|a l IH]; simpl; [done|].
  now rewrite sort_insert_stable, !filter_cons, IH.
Qed.
End SortByKey.

Lemma indexOf_from_range tabs s : forall i,
  indexOf_from tabs s i = -1 \/
  i <= indexOf_from tabs s i < i + Z.of_nat (length tabs).
Proof.
  induction tabs as [|t tabs IH]; intros i; simpl; [now left|].
  destruct (String.eqb t s); [right; lia|].
  destruct (IH (i + 1)) as [->|Hr]; [now left | right; lia].
Qed.

Lemma indexOf_from_absent tabs s : forall i,
  s ∉ tabs -> indexOf_from tabs s i = -1.
Proof.
  induction tabs as [|t tabs IH]; intros i Hs; simpl; [done|].
  apply not_elem_of_cons in Hs as [Hne Hs].
  destruct (String.eqb t s) eqn:Heq; [|now apply IH].
  apply String.eqb_eq in Heq. congruence.
Qed.

Lemma indexOf_from_present tabs s : forall i,
  0 <= i -> s ∈ tabs ->
  i <= indexOf_from tabs s i
  /\ tabs !! Z.to_nat (indexOf_from tabs s i - i) = Some s
  /\ s ∉ take (Z.to_nat (indexOf_from tabs s i - i)) tabs.
Proof.
  induction tabs as [|t tabs IH]; intros i Hi Hs; [now apply elem_of_nil in Hs|].
  simpl. destruct (String.eqb t s) eqn:Heq.
  - apply String.eqb_eq in Heq as ->. rewrite Z.sub_diag. simpl.
    split; [lia|]. split; [done | apply not_elem_of_nil].
  - apply String.eqb_neq in Heq.
    apply elem_of_cons in Hs as [->|Hs]; [done|].
    destruct (IH (i + 1) ltac:(lia) Hs) as (Hle & Hat & Hfirst).
    replace (Z.to_nat (indexOf_from tabs s (i + 1) - i))
      with (S (Z.to_nat (indexOf_from tabs s (i + 1) - (i + 1)))) by lia.
    simpl. split; [lia|]. split; [exact Hat|].
    apply not_elem_of_cons. split; [congruence | exact Hfirst].
Qed.

Lemma tabKey_absent `{Imports} tabs a :
  tabKey tabs a = -1 <-> js_String (item_id a) ∉ tabs.
Proof.
  unfold tabKey, indexOf. split.
  - intros Hkey Hin.
    destruct (indexOf_from_present tabs _ 0 ltac:(lia) Hin) as [Hle _]. lia.
  - apply indexOf_from_absent.
Qed.

Lemma tabKey_present `{Imports} tabs a :
  js_String (item_id a) ∈ tabs ->
  0 <= tabKey tabs a
  /\ tabs !! Z.to_nat (tabKey tabs a) = Some (js_String (item_id a))
  /\ js_String (item_id a) ∉ take (Z.to_nat (tabKey tabs a)) tabs.
Proof.
  intros Hin. unfold tabKey, indexOf.
  destruct (indexOf_from_present tabs _ 0 ltac:(lia) Hin) as (Hle & Hat & Hfirst).
  rewrite Z.sub_0_r in Hat, Hfirst. done.
Qed.

Lemma js_String_string `{Imports} s : js_String (JStr s) = s.
Proof. reflexivity. Qed.

Lemma js_String_safe_integer `{Imports} n :
  Z.abs n < 2 ^ 53 -> js_String (JNum n) = pretty n.
Proof.
  intros Hn. simpl. destruct (Z.abs n <? 2 ^ 53) eqn:Hlt; [done|].
  apply Z.ltb_ge in Hlt. lia.
Qed.

(** C8: with a persisted tab order, [load] sorts the circuit list by the
    position of each id in that order: the list after [load] is a
    permutation of the list the scope loop left, it is ordered by position
    (the key of a listed id is the index of its first occurrence in the
    order, the key of an unlisted id is -1), and the sort is stable: the
    circuits of one key, in particular the unlisted ones, keep their
    relative order.  The id is compared as a string: a string id as it is,
    a number id (a safe integer) by its decimal digits.  (The external calls
    that [load] makes after the scope loop leave the circuit list alone.) *)
Theorem load_reorders_tabs `{Imports} (fuel : nat) (data : ProjectData)
    (tabs : list string) (w w1 : World) :
  orderedTabs data = Some tabs ->
  (forall name args w0, name ∈ calls_after_scope_loop ->
     circuit_list (extern name args w0) = circuit_list w0) ->
  loadScopes fuel (project_scopes data) (load_start data w) = Ok w1 ->
  exists w',
    load fuel (Some data) w = Ok w'
    /\ circuit_list w' ≡ₚ circuit_list w1
    /\ StronglySorted (fun a b => tabKey tabs a <= tabKey tabs b) (circuit_list w')
    /\ (forall z, filter (fun a => tabKey tabs a = z) (circuit_list w')
                  = filter (fun a => tabKey tabs a = z) (circuit_list w1))
    /\ (forall a, tabKey tabs a = -1 <-> js_String (item_id a) ∉ tabs)
    /\ (forall a, js_String (item_id a) ∈ tabs ->
          0 <= tabKey tabs a
          /\ tabs !! Z.to_nat (tabKey tabs a) = Some (js_String (item_id a))
          /\ js_String (item_id a) ∉ take (Z.to_nat (tabKey tabs a)) tabs)
    /\ (forall a s, item_id a = JStr s -> tabKey tabs a = indexOf tabs s)
    /\ (forall a n, item_id a = JNum n -> Z.abs n < 2 ^ 53 ->
          tabKey tabs a = indexOf tabs (pretty n)).
Proof.
  intros Htabs Hextern Hscopes.
  assert (Hcall : forall name args (w0 : World),
            bool_decide (name ∈ calls_after_scope_loop) = true ->
            circuit_list (extern name args w0) = circuit_list w0).
  { intros name args w0 Hin. apply Hextern. now apply bool_decide_eq_true in Hin. }
  unfold load, load_start in *. rewrite Hscopes. simpl.
  eexists. split; [reflexivity|].
  assert (Hlist : forall w0 : World,
            circuit_list (if negb embed then extern "plotArea.reset" [] w0 else w0)
            = circuit_list w0) by (intros; destruct embed; simpl; auto).
  rewrite Hcall, Hlist, !Hcall by reflexivity.
  assert (Hswitch : forall w0 : World,
            circuit_list (if truthy (focussedCircuit data)
                          then extern "switchCircuit"
                                 [JStr (js_String (focussedCircuit data))] w0
                          else w0)
            = circuit_list w0) by (intros; destruct (truthy _); auto).
  rewrite Hswitch. unfold reorderTabs. rewrite Htabs. simpl.
  assert (Hshow : forall w0 : World,
            circuit_list (if negb embed then extern "showProperties" [] w0 else w0)
            = circuit_list w0) by (intros; destruct embed; simpl; auto).
  rewrite Hshow. simpl. rewrite Hcall by reflexivity.
  change (compareTabs tabs) with (fun a b => tabKey tabs a - tabKey tabs b).
  split; [apply array_sort_perm|]. split; [apply array_sort_sorted|].
  split; [intros z; apply array_sort_stable|].
  split; [apply tabKey_absent|]. split; [apply tabKey_present|]. split.
  - intros a s Ha. unfold tabKey. now rewrite Ha.
  - intros a n Ha Hn. unfold tabKey. now rewrite Ha, js_String_safe_integer.
Qed.

(** [String] on the values an id can be, and on an array. *)
Example js_String_values :
  @js_String Demo.imports (JStr "main") = "main"
  /\ @js_String Demo.imports (JNum 42) = "42"
  /\ @js_String Demo.imports (JNum (-7)) = "-7"
  /\ @js_String Demo.imports (JArr [JNum 1; JUndefined; JArr [JStr "a"; JStr "b"]])
     = "1,,a,b".
Proof. repeat split; vm_compute; reflexivity. Qed.

Example load_three_tabs :
  (fun w' => (fun a => @js_String Demo.imports (item_id a)) <$> circuit_list w')
    <$> @load Demo.imports 4 (Some Demo.three_tabs) Demo.empty_world
  = Ok ["b"; "c"; "a"].
Proof. vm_compute. reflexivity. Qed.

Lemma load_reorders_tabs_witness :
  exists w1 w',
    @loadScopes Demo.imports 4 (project_scopes Demo.three_tabs)
      (@load_start Demo.imports Demo.three_tabs Demo.empty_world) = Ok w1
    /\ @load Demo.imports 4 (Some Demo.three_tabs) Demo.empty_world = Ok w'
    /\ circuit_list w' ≡ₚ circuit_list w1.
Proof.
  assert (Hran : (fun _ => tt)
            <$> @loadScopes Demo.imports 4 (project_scopes Demo.three_tabs)
                  (@load_start Demo.imports Demo.three_tabs Demo.empty_world)
          = Ok tt) by (vm_compute; reflexivity).
  destruct (@loadScopes Demo.imports 4 (project_scopes Demo.three_tabs)
              (@load_start Demo.imports Demo.three_tabs Demo.empty_world))
    as [w1| |] eqn:Hscopes; try discriminate.
  destruct (@load_reorders_tabs Demo.imports 4 Demo.three_tabs ["c"; "a"]
              Demo.empty_world w1 eq_refl (fun _ _ _ _ => eq_refl) Hscopes)
    as (w' & Hload & Hperm & _).
  exists w1, w'. split; [reflexivity|]. split; [exact Hload | exact Hperm].
Defined.

(** ** Layout resolver *)

Section Layout.
Context `{Imports}.

Lemma update_scope_ok sc f w s :
  scopes w !! sc = Some s ->
  update_scope sc f w = Ok (set_scopes (fun m => <[sc := f s]> m) w).
Proof. unfold update_scope. now intros ->. Qed.

Lemma layoutPorts_spec px h count ports : forall i w,
  layoutPorts px h count i ports w
  = (imap (fun j => placed px h count (i + j) (generated w + j)) ports,
     set_generated (generated w + length ports) w).
Proof.
  induction ports as [|p ports IH]; intros i w; simpl.
  - rewrite Nat.add_0_r. now destruct w.
  - rewrite IH. simpl. f_equal.
    + unfold placed at 2, portY. rewrite !Nat.add_0_r. f_equal.
      apply imap_ext. intros j q _. simpl.
      now rewrite <- !Nat.add_succ_r.
    + unfold set_generated. simpl. f_equal. lia.
Qed.

Lemma layoutHeight_even a b : layoutHeight a b = 2 * (layoutHeight a b / 2).
Proof.
  unfold layoutHeight.
  replace (Z.max (Z.of_nat a) (Z.of_nat b) * 20 + 20)
    with ((Z.max (Z.of_nat a) (Z.of_nat b) * 10 + 10) * 2) by lia.
  rewrite Z.div_mul by lia. lia.
Qed.

Lemma generateLayout_spec scope w s :
  scopes w !! scope = Some s ->
  exists w',
    generateLayout scope w = Ok w'
    /\ scopes w' = <[scope :=
          set_layout
            (Some {| width := 100;
                     height := layoutHeight (length_or_0 (Input s)) (length_or_0 (Output s));
                     title_x := 50; title_y := 13; titleEnabled := None |})
            (with_generated_layout (generated w) s)]> (scopes w)
    /\ generated w' = (generated w + length_or_0 (Input s) + length_or_0 (Output s))%nat
    /\ globalScope w' = globalScope w.
Proof.
  intros Hs. unfold generateLayout, get_scope. rewrite Hs. simpl.
  rewrite (update_scope_ok _ _ _ _ Hs). simpl.
  unfold with_generated_layout.
  destruct s as [sid re an vm tb lay0 inp out ws]; simpl in *.
  destruct inp as [inp|], out as [out|]; simpl;
    rewrite ?layoutPorts_spec; unfold update_scope; simpl;
    rewrite ?lookup_insert_eq; simpl; rewrite ?layoutPorts_spec; simpl;
    rewrite ?lookup_insert_eq; simpl;
    eexists; (split; [reflexivity|]); simpl;
    rewrite ?insert_insert_eq, ?Nat.add_0_r;
    (split; [reflexivity|]); split; (reflexivity || lia).
Qed.

Lemma resolveLayout_generated scope data w s :
  ScopeData.layout data = None ->
  scopes w !! scope = Some s ->
  exists w',
    resolveLayout scope data w = Ok w'
    /\ scopes w' = <[scope := with_generated_layout (generated w) s]> (scopes w)
    /\ generated w' = (generated w + length_or_0 (Input s) + length_or_0 (Output s))%nat
    /\ globalScope w' = globalScope w.
Proof.
  intros Hlay Hs. unfold resolveLayout. rewrite Hlay.
  destruct (generateLayout_spec _ _ _ Hs) as (w0 & -> & Hsc & Hgen & Hglob). simpl.
  unfold get_scope. rewrite Hsc, lookup_insert_eq. simpl.
  erewrite update_scope_ok by (rewrite Hsc; apply lookup_insert_eq).
  eexists. split; [reflexivity|]. simpl. rewrite Hsc, insert_insert_eq.
  split; [reflexivity|]. split; assumption.
Qed.

Lemma resolveLayout_persisted scope data w s l :
  ScopeData.layout data = Some l ->
  scopes w !! scope = Some s ->
  exists w',
    resolveLayout scope data w = Ok w'
    /\ scopes w' = <[scope := set_layout (Some (defaultTitleEnabled l)) s]> (scopes w)
    /\ generated w' = generated w
    /\ globalScope w' = globalScope w.
Proof.
  intros Hlay Hs. unfold resolveLayout. rewrite Hlay.
  rewrite (update_scope_ok _ _ _ _ Hs). simpl.
  unfold get_scope. simpl. rewrite lookup_insert_eq. simpl.
  erewrite update_scope_ok by apply lookup_insert_eq.
  eexists. split; [reflexivity|]. simpl. rewrite insert_insert_eq.
  split; [reflexivity|]. split; reflexivity.
Qed.

Lemma loadScope_split fuel scope data w :
  loadScope fuel scope data w
  = (w1 ← before_layout fuel scope data w; resolveLayout scope data w1).
Proof.
  unfold loadScope, before_layout.
  destruct (loadGraph fuel scope data w) as [w1| |]; simpl; [|done..].
  now destruct (restoreTestbench data w1).
Qed.
End Layout.

(** C2: when the descriptor has no persisted layout, [loadScope] gives the
    scope a layout of width 100, height max(inputs, outputs) * 20 + 20 (an
    even number, so height / 2 is exact) and title position (50, 13); the
    i-th input port is placed at (0, height/2 - inputs*10 + 20*i + 10), the
    i-th output port at (100, height/2 - outputs*10 + 20*i + 10), and every
    port gets the id returned by a call of [generateId] of its own (calls
    are numbered; inputs first, then outputs).  For 2 inputs and 1 output
    the height is 60, the inputs are at 20 and 40, the output at 30. *)
Theorem loadScope_generated_layout `{Imports} (fuel : nat) (scope : ref)
    (data : ScopeData.t) (w w1 : World) (s : Scope) :
  ScopeData.layout data = None ->
  before_layout fuel scope data w = Ok w1 ->
  scopes w1 !! scope = Some s ->
  let n_in := length_or_0 (Input s) in
  let n_out := length_or_0 (Output s) in
  let h := Z.max (Z.of_nat n_in) (Z.of_nat n_out) * 20 + 20 in
  exists w' s',
    loadScope fuel scope data w = Ok w'
    /\ scopes w' !! scope = Some s'
    /\ layout s' = Some {| width := 100; height := h; title_x := 50;
                           title_y := 13; titleEnabled := Some true |}
    /\ h = 2 * (h / 2)
    /\ (forall ports i p, Input s = Some ports -> ports !! i = Some p ->
          exists ports', Input s' = Some ports'
            /\ length ports' = length ports
            /\ ports' !! i = Some
                 {| port_obj := port_obj p;
                    layoutProperties :=
                      Some {| lp_x := 0;
                              lp_y := h / 2 - Z.of_nat n_in * 10 + 20 * Z.of_nat i + 10;
                              lp_id := generateId (generated w1 + i) |} |})
    /\ (forall ports i p, Output s = Some ports -> ports !! i = Some p ->
          exists ports', Output s' = Some ports'
            /\ length ports' = length ports
            /\ ports' !! i = Some
                 {| port_obj := port_obj p;
                    layoutProperties :=
                      Some {| lp_x := 100;
                              lp_y := h / 2 - Z.of_nat n_out * 10 + 20 * Z.of_nat i + 10;
                              lp_id := generateId (generated w1 + n_in + i) |} |})
    /\ generated w' = (generated w1 + n_in + n_out)%nat
    /\ (n_in = 2%nat -> n_out = 1%nat ->
          h = 60
          /\ h / 2 - Z.of_nat n_in * 10 + 20 * 0 + 10 = 20
          /\ h / 2 - Z.of_nat n_in * 10 + 20 * 1 + 10 = 40
          /\ h / 2 - Z.of_nat n_out * 10 + 20 * 0 + 10 = 30).
Proof.
  intros Hlay Hbefore Hs n_in n_out h.
  destruct (resolveLayout_generated scope data w1 s Hlay Hs)
    as (w' & Hres & Hsc & Hgen & _).
  exists w', (with_generated_layout (generated w1) s).
  split; [now rewrite loadScope_split, Hbefore|].
  split; [now rewrite Hsc, lookup_insert_eq|].
  split; [reflexivity|].
  split; [apply layoutHeight_even|].
  split; [|split; [|split; [exact Hgen|]]].
  - intros ports i p Hin Hp. subst h n_in n_out.
    unfold with_generated_layout, place_ports, layoutHeight. simpl.
    rewrite Hin. simpl. eexists. split; [reflexivity|].
    split; [apply length_imap|].
    rewrite list_lookup_imap, Hp. reflexivity.
  - intros ports i p Hout Hp. subst h n_in n_out.
    unfold with_generated_layout, place_ports, layoutHeight. simpl.
    rewrite Hout. simpl. eexists. split; [reflexivity|].
    split; [apply length_imap|].
    rewrite list_lookup_imap, Hp. reflexivity.
  - intros Hin Hout. subst h. rewrite Hin, Hout. simpl.
    repeat split; reflexivity.
Qed.

Example loadScope_two_in_one_out :
  (fun w' =>
     (fun s' => (layout s',
                 fmap (M := list) (fun p => lp_y <$> layoutProperties p) <$> Input s',
                 fmap (M := list) (fun p => lp_y <$> layoutProperties p) <$> Output s'))
       <$> scopes w' !! O)
    <$> @loadScope Demo.imports 1 0 (Demo.bare_scope "main") Demo.two_in_one_out
  = Ok (Some (Some {| width := 100; height := 60; title_x := 50; title_y := 13;
                      titleEnabled := Some true |},
              Some [Some 20; Some 40], Some [Some 30])).
Proof. vm_compute. reflexivity. Qed.

Lemma loadScope_generated_layout_witness :
  exists w' s',
    @loadScope Demo.imports 1 0 (Demo.bare_scope "main") Demo.two_in_one_out = Ok w'
    /\ scopes w' !! O = Some s'
    /\ layout s' = Some {| width := 100; height := 60; title_x := 50;
                           title_y := 13; titleEnabled := Some true |}.
Proof.
  assert (Hran : (fun w1 => scopes w1 !! O)
            <$> @before_layout Demo.imports 1 0 (Demo.bare_scope "main")
                  Demo.two_in_one_out
          = Ok (scopes Demo.two_in_one_out !! O)) by (vm_compute; reflexivity).
  destruct (@before_layout Demo.imports 1 0 (Demo.bare_scope "main")
              Demo.two_in_one_out) as [w1| |] eqn:Hbefore; try discriminate.
  injection Hran as Hs.
  destruct (@loadScope_generated_layout Demo.imports 1 0%nat
              (Demo.bare_scope "main") Demo.two_in_one_out w1 _ eq_refl Hbefore Hs)
    as (w' & s' & Hload & Hsc & Hlayout & _).
  exists w', s'. split; [exact Hload|]. split; [exact Hsc | exact Hlayout].
Defined.

(** ** Testbench restoration *)

Section Testbench.
Context `{Imports}.

Lemma resolveLayout_testbench scope data w s :
  scopes w !! scope = Some s ->
  exists w',
    resolveLayout scope data w = Ok w'
    /\ forall r, testbench_of w' r = testbench_of w r.
Proof.
  intros Hs.
  assert (Hframe : forall (m : gmap ref Scope) s' r,
            m = <[scope := s']> (scopes w) -> testbenchData s' = testbenchData s ->
            m !! r ≫= testbenchData = scopes w !! r ≫= testbenchData).
  { intros m s' r -> Htb. destruct (decide (r = scope)) as [->|Hne].
    - rewrite lookup_insert_eq, Hs. exact Htb.
    - now rewrite lookup_insert_ne. }
  destruct (ScopeData.layout data) as [l|] eqn:Hlay.
  - destruct (resolveLayout_persisted _ _ _ _ _ Hlay Hs) as (w' & Hres & Hsc & _).
    exists w'. split; [exact Hres|]. intros r. now apply (Hframe _ _ _ Hsc).
  - destruct (resolveLayout_generated _ _ _ _ Hlay Hs) as (w' & Hres & Hsc & _).
    exists w'. split; [exact Hres|]. intros r. now apply (Hframe _ _ _ Hsc).
Qed.
End Testbench.

(** C5: when the descriptor carries testbench data, [loadScope] builds the
    testbench state from the test data, the current group and the current
    case and stores it in the scope that is globally focused when the step
    runs, whichever scope is being loaded: every other scope, the scope
    argument included if it is not the focused one, keeps the testbench
    state it had.  When no scope is focused, or the descriptor has no
    testbench data, no scope gets a testbench state. *)
Theorem loadScope_testbench `{Imports} (fuel : nat) (scope : ref)
    (data : ScopeData.t) (w w1 : World) :
  loadGraph fuel scope data w = Ok w1 ->
  is_Some (scopes w1 !! scope) ->
  (forall g, globalScope w1 = Some g -> is_Some (scopes w1 !! g)) ->
  exists w',
    loadScope fuel scope data w = Ok w'
    /\ (forall tb g,
          ScopeData.testbenchData data = Some tb -> globalScope w1 = Some g ->
          testbench_of w' g
            = Some {| testData := ScopeData.testData tb;
                      currentGroup := ScopeData.currentGroup tb;
                      currentCase := ScopeData.currentCase tb |}
          /\ forall r, r ≠ g -> testbench_of w' r = testbench_of w1 r)
    /\ (globalScope w1 = None -> forall r, testbench_of w' r = testbench_of w1 r)
    /\ (ScopeData.testbenchData data = None ->
          forall r, testbench_of w' r = testbench_of w1 r).
Proof.
  intros Hgraph [s Hs] Hfocus. unfold loadScope. rewrite Hgraph. simpl.
  unfold restoreTestbench.
  destruct (ScopeData.testbenchData data) as [tb|] eqn:Htb;
    [destruct (globalScope w1) as [g|] eqn:Hg|].
  - destruct (Hfocus g eq_refl) as [sg Hsg].
    rewrite (update_scope_ok _ _ _ _ Hsg). simpl.
    set (w2 := set_scopes _ w1).
    assert (Hs2 : is_Some (scopes w2 !! scope)).
    { subst w2. simpl. destruct (decide (scope = g)) as [->|Hne].
      - rewrite lookup_insert_eq. eauto.
      - rewrite lookup_insert_ne by done. eauto. }
    destruct Hs2 as [s2 Hs2].
    destruct (resolveLayout_testbench scope data w2 s2 Hs2) as (w' & Hres & Hkeep).
    exists w'. split; [exact Hres|]. split; [|split; [done|done]].
    intros tb' g' [= <-] [= <-]. split.
    + rewrite Hkeep. unfold testbench_of. subst w2. simpl.
      now rewrite lookup_insert_eq.
    + intros r Hne. rewrite Hkeep. unfold testbench_of. subst w2. simpl.
      now rewrite lookup_insert_ne.
  - destruct (resolveLayout_testbench scope data w1 s Hs) as (w' & Hres & Hkeep).
    exists w'. split; [exact Hres|]. split; [done|]. split; intros; apply Hkeep.
  - destruct (resolveLayout_testbench scope data w1 s Hs) as (w' & Hres & Hkeep).
    exists w'. split; [exact Hres|]. split; [done|]. split; intros; apply Hkeep.
Qed.

Lemma loadScope_testbench_witness :
  exists w',
    @loadScope Demo.imports 1 0 (Demo.tested_scope "a" 7) Demo.focus_on_second = Ok w'
    /\ testbench_of w' 1
       = Some {| testData := JNum 7; currentGroup := JNum 0; currentCase := JNum 0 |}
    /\ testbench_of w' 0 = None.
Proof.
  assert (Hran : (fun w1 => (globalScope w1, scope_id <$> scopes w1 !! O,
                             scope_id <$> scopes w1 !! 1%nat, testbench_of w1 0))
            <$> @loadGraph Demo.imports 1 0 (Demo.tested_scope "a" 7)
                  Demo.focus_on_second
          = Ok (Some 1%nat, Some "a", Some "b", None)) by (vm_compute; reflexivity).
  destruct (@loadGraph Demo.imports 1 0 (Demo.tested_scope "a" 7)
              Demo.focus_on_second) as [w1| |] eqn:Hgraph; try discriminate.
  injection Hran as Hfocus H0 H1 Htb.
  assert (Hlive0 : is_Some (scopes w1 !! O))
    by (destruct (scopes w1 !! O); [eexists; reflexivity | discriminate]).
  assert (Hlive1 : is_Some (scopes w1 !! 1%nat))
    by (destruct (scopes w1 !! 1%nat); [eexists; reflexivity | discriminate]).
  assert (Hlive : forall g, globalScope w1 = Some g -> is_Some (scopes w1 !! g)).
  { intros g Hg. rewrite Hfocus in Hg. injection Hg as <-. exact Hlive1. }
  destruct (@loadScope_testbench Demo.imports 1 0%nat (Demo.tested_scope "a" 7)
              Demo.focus_on_second w1 Hgraph Hlive0 Hlive)
    as (w' & Hload & Hset & _).
  destruct (Hset _ 1%nat eq_refl Hfocus) as [Hfocused Hothers].
  exists w'. split; [exact Hload|]. split; [exact Hfocused|].
  rewrite (Hothers 0%nat) by discriminate. exact Htb.
Defined.

(** With a [newCircuit] that leaves the focus alone, as the one of the
    concrete environment does, no scope is focused in [load] while the
    first scope is loaded, and the first scope is focused while the second
    is loaded: of two circuits saved with testbench data, the first ends up
    with the data of the second and the second with none. *)
Example load_two_testbenches :
  (fun w' => (testData <$> testbench_of w' 0, testData <$> testbench_of w' 1))
    <$> @load Demo.imports 4 (Some Demo.two_testbenches) Demo.empty_world
  = Ok (Some (JNum 2), None).
Proof. vm_compute. reflexivity. Qed.

(** ** Node rewiring *)

(** *** The ownership transfer *)

Lemma redirect_old old new : redirect old new old = new.
Proof. unfold redirect. now rewrite decide_True. Qed.

Lemma redirect_other old new r : r ≠ old -> redirect old new r = r.
Proof. intros Hr. unfold redirect. now rewrite decide_False. Qed.

Lemma redirect_ne old new r : old ≠ new -> redirect old new r ≠ old.
Proof. intros Hne. unfold redirect. case_decide; congruence. Qed.

Lemma redirect_inv old new r x :
  redirect old new r = x -> x ≠ new -> r = x.
Proof. unfold redirect. case_decide; congruence. Qed.

Lemma rewireNode_node_scope old new w : same_node_scopes w (rewireNode old new w).
Proof.
  intros r. unfold rewireNode.
  destruct (node_heap w !! old) as [ph|] eqn:Hold; [|done].
  destruct (node_heap w !! new) as [tn|] eqn:Hnew; [|done].
  case_decide as Hne; [done|].
  simpl. rewrite drop_node_heap.
  destruct (decide (r = old)) as [->|Hro]; [now rewrite lookup_insert_eq, Hold|].
  rewrite lookup_insert_ne by done.
  destruct (decide (r = new)) as [->|Hrn]; [now rewrite lookup_insert_eq, Hnew|].
  rewrite lookup_insert_ne by done. rewrite lookup_fmap.
  now destruct (node_heap w !! r).
Qed.

Lemma same_node_scopes_live w w' r :
  same_node_scopes w w' -> is_Some (node_heap w !! r) -> is_Some (node_heap w' !! r).
Proof.
  intros Hsame Hr. apply (fmap_is_Some node_scope). rewrite Hsame.
  now apply fmap_is_Some.
Qed.

Lemma rewireNode_conn old new w r :
  old ≠ new -> is_Some (node_heap w !! old) -> is_Some (node_heap w !! new) ->
  conn_of (rewireNode old new w) r
  = if decide (r = old) then []
    else redirect old new <$>
           (if decide (r = new) then conn_of w new ++ conn_of w old
            else conn_of w r)%list.
Proof.
  intros Hne [ph Hold] [tn Hnew]. unfold rewireNode, conn_of.
  rewrite Hold, Hnew. rewrite decide_False by done. simpl. rewrite drop_node_heap.
  destruct (decide (r = old)) as [->|Hro]; [now rewrite lookup_insert_eq|].
  rewrite lookup_insert_ne by done.
  destruct (decide (r = new)) as [->|Hrn]; [now rewrite lookup_insert_eq|].
  rewrite lookup_insert_ne by done. rewrite lookup_fmap.
  now destruct (node_heap w !! r).
Qed.

(** The connections after a transfer are the connections before it with
    both ends redirected. *)
Lemma elem_of_rewireNode_conn old new w a b :
  old ≠ new -> is_Some (node_heap w !! old) -> is_Some (node_heap w !! new) ->
  b ∈ conn_of (rewireNode old new w) a
  <-> exists a0 c, redirect old new a0 = a /\ redirect old new c = b
                   /\ c ∈ conn_of w a0.
Proof.
  intros Hne Hold Hnew. rewrite rewireNode_conn by done. split.
  - case_decide as Ha; [intros []%elem_of_nil|].
    intros (c & -> & Hc)%list_elem_of_fmap.
    case_decide as Hat.
    + subst a. apply elem_of_app in Hc as [Hc|Hc].
      * exists new, c. now rewrite redirect_other by done.
      * exists old, c. now rewrite redirect_old.
    + exists a, c. now rewrite redirect_other by done.
  - intros (a0 & c & <- & <- & Hc).
    rewrite decide_False by now apply redirect_ne.
    apply list_elem_of_fmap. exists c. split; [done|].
    destruct (decide (a0 = old)) as [->|Ha0].
    + rewrite redirect_old, decide_True by done. apply elem_of_app. now right.
    + rewrite redirect_other by done.
      case_decide as Hat; [|done]. subst a0. apply elem_of_app. now left.
Qed.

Lemma rewireNode_allNodes old new w scope sc :
  old ≠ new -> node_scope <$> node_heap w !! old = Some scope ->
  is_Some (node_heap w !! new) ->
  allNodes <$> scopes (rewireNode old new w) !! sc
  = (fun l => if decide (scope = sc) then filter (fun r' => r' ≠ old) l else l)
      <$> (allNodes <$> scopes w !! sc).
Proof.
  intros Hne (ph & Hph & ->)%fmap_Some [tn Ht]. unfold rewireNode.
  rewrite Hph, Ht, decide_False by done. simpl. apply drop_node_scopes.
Qed.

Section RewireAll.
Variable scope : ref.

Lemma live_pairs_head p t rest w :
  live_pairs scope w ((p, t) :: rest) ->
  p ≠ t /\ node_scope <$> node_heap w !! p = Some scope
  /\ is_Some (node_heap w !! p) /\ is_Some (node_heap w !! t).
Proof.
  intros Hl. destruct (Hl p t ltac:(left)) as (Hne & Hsc & Ht).
  split; [done|]. split; [done|]. split; [|done].
  apply (fmap_is_Some node_scope). rewrite Hsc. eexists; reflexivity.
Qed.

Lemma live_pairs_step p t rest w :
  live_pairs scope w ((p, t) :: rest) -> live_pairs scope (rewireNode p t w) rest.
Proof.
  intros Hl p' t' Hin. destruct (Hl p' t' ltac:(now right)) as (Hne & Hsc & Ht).
  split; [done|]. split; [now rewrite rewireNode_node_scope|].
  eapply same_node_scopes_live; [apply rewireNode_node_scope | done].
Qed.

Lemma rewireAll_app l1 l2 w : rewireAll (l1 ++ l2) w = rewireAll l2 (rewireAll l1 w).
Proof. apply foldl_app. Qed.

Lemma rewireAll_node_scope pairs : forall w, same_node_scopes w (rewireAll pairs w).
Proof.
  induction pairs as [|[p t] rest IH]; intros w r; [done|].
  simpl. now rewrite IH, rewireNode_node_scope.
Qed.

Lemma rewireAll_allNodes pairs : forall w,
  live_pairs scope w pairs ->
  allNodes <$> scopes (rewireAll pairs w) !! scope
  = filter (fun r => r ∉ pairs.*1) <$> (allNodes <$> scopes w !! scope).
Proof.
  induction pairs as [|[p t] rest IH]; intros w Hl.
  - simpl. destruct (scopes w !! scope) as [s|]; [|done]. simpl. f_equal.
    symmetry. apply filter_keeps. intros r _. apply not_elem_of_nil.
  - destruct (live_pairs_head _ _ _ _ Hl) as (Hne & Hsc & Hp & Ht).
    simpl. rewrite IH by now apply live_pairs_step.
    rewrite (rewireNode_allNodes p t w scope scope Hne Hsc Ht).
    destruct (scopes w !! scope) as [s|]; [|done]. simpl. f_equal.
    rewrite decide_True by done. rewrite list_filter_filter.
    apply list_filter_iff. intros r. rewrite not_elem_of_cons. tauto.
Qed.

Lemma rewireAll_kept pairs : forall w r c,
  live_pairs scope w pairs -> r ∉ pairs.*1 -> c ∉ pairs.*1 ->
  c ∈ conn_of w r -> c ∈ conn_of (rewireAll pairs w) r.
Proof.
  induction pairs as [|[p t] rest IH]; intros w r c Hl Hr Hc Hin; [done|].
  simpl in *. apply not_elem_of_cons in Hr as [Hrp Hr].
  apply not_elem_of_cons in Hc as [Hcp Hc].
  destruct (live_pairs_head _ _ _ _ Hl) as (Hne & Hsc & Hp & Ht).
  apply IH; [now apply live_pairs_step | done | done|].
  apply elem_of_rewireNode_conn; [done..|].
  exists r, c. now rewrite !redirect_other by done.
Qed.

Lemma rewireAll_transferred pairs : forall w p t c,
  live_pairs scope w pairs -> NoDup pairs.*1 ->
  (forall p' t', (p', t') ∈ pairs -> t' ∉ pairs.*1) ->
  (p, t) ∈ pairs -> c ∉ pairs.*1 ->
  (c ∈ conn_of w p -> c ∈ conn_of (rewireAll pairs w) t)
  /\ (p ∈ conn_of w c -> t ∈ conn_of (rewireAll pairs w) c).
Proof.
  induction pairs as [|[p0 t0] rest IH]; intros w p t c Hl Hnd Htg Hin Hc;
    [now apply elem_of_nil in Hin|].
  simpl in *. apply NoDup_cons in Hnd as [Hp0 Hnd].
  apply not_elem_of_cons in Hc as [Hcp0 Hc].
  destruct (live_pairs_head _ _ _ _ Hl) as (Hne & Hsc & Hp & Ht).
  pose proof (live_pairs_step _ _ _ _ Hl) as Hl'.
  apply elem_of_cons in Hin as [[= -> ->]|Hin].
  - assert (Ht0 : t0 ∉ rest.*1).
    { specialize (Htg p0 t0 ltac:(left)). now apply not_elem_of_cons in Htg as [_ ?]. }
    split; intros H1; (apply rewireAll_kept; [done..|]);
      (apply elem_of_rewireNode_conn; [done..|]).
    + exists p0, c. now rewrite redirect_old, redirect_other by done.
    + exists c, p0. now rewrite redirect_old, redirect_other by done.
  - assert (Hpp0 : p ≠ p0).
    { intros ->. apply Hp0. apply list_elem_of_fmap. now exists (p0, t). }
    destruct (IH (rewireNode p0 t0 w) p t c Hl' Hnd) as [Ha Hb]; [|done|done|].
    { intros p' t' Hin'. specialize (Htg p' t' ltac:(now right)).
      now apply not_elem_of_cons in Htg as [_ ?]. }
    split; intros H1; [apply Ha | apply Hb];
      (apply elem_of_rewireNode_conn; [done..|]).
    + exists p, c. now rewrite !redirect_other by done.
    + exists c, p. now rewrite !redirect_other by done.
Qed.

Lemma rewireAll_stays_gone pairs : forall w x,
  live_pairs scope w pairs ->
  (forall p t, (p, t) ∈ pairs -> t ≠ x) ->
  conn_of w x = [] -> (forall r, x ∉ conn_of w r) ->
  conn_of (rewireAll pairs w) x = [] /\ forall r, x ∉ conn_of (rewireAll pairs w) r.
Proof.
  induction pairs as [|[p0 t0] rest IH]; intros w x Hl Htg Hx Hnone; [done|].
  destruct (live_pairs_head _ _ _ _ Hl) as (Hne & Hsc & Hp & Ht).
  assert (Ht0 : x ≠ t0) by (intros ->; now apply (Htg p0 t0 ltac:(left))).
  simpl. apply IH.
  - now apply live_pairs_step.
  - intros p t Hin. apply (Htg p t). now right.
  - apply elem_of_nil_inv. intros b (a0 & c & Ha0 & _ & Hc)%elem_of_rewireNode_conn;
      [|done..].
    apply redirect_inv in Ha0; [|done]. subst a0. rewrite Hx in Hc.
    now apply elem_of_nil in Hc.
  - intros r (a0 & c & _ & Hb & Hc)%elem_of_rewireNode_conn; [|done..].
    apply redirect_inv in Hb; [|done]. subst c. now apply (Hnone a0).
Qed.

Lemma rewireAll_gone pairs : forall w p,
  live_pairs scope w pairs ->
  (forall p' t', (p', t') ∈ pairs -> t' ∉ pairs.*1) ->
  p ∈ pairs.*1 ->
  conn_of (rewireAll pairs w) p = [] /\ forall r, p ∉ conn_of (rewireAll pairs w) r.
Proof.
  induction pairs as [|[p0 t0] rest IH]; intros w p Hl Htg Hin;
    [now apply elem_of_nil in Hin|].
  destruct (live_pairs_head _ _ _ _ Hl) as (Hne & Hsc & Hp & Ht).
  pose proof (live_pairs_step _ _ _ _ Hl) as Hl'.
  assert (Htg' : forall p' t', (p', t') ∈ rest -> (t' ∉ rest.*1) /\ t' ≠ p0).
  { intros p' t' Hin'. specialize (Htg p' t' ltac:(now right)). simpl in Htg.
    apply not_elem_of_cons in Htg as [? ?]. done. }
  simpl in *. destruct (decide (p ∈ rest.*1)) as [Hrest|Hrest].
  - apply IH; [done | | done]. intros p' t' Hin'. now apply (Htg' p' t').
  - apply elem_of_cons in Hin as [->|Hin]; [|done].
    apply rewireAll_stays_gone; [done | | |].
    + intros p' t' Hin'. now apply (Htg' p' t').
    + apply elem_of_nil_inv.
      intros b (a0 & c & Ha0 & _)%elem_of_rewireNode_conn; [|done..].
      now apply redirect_ne in Ha0.
    + intros r (a0 & c & _ & Hb & _)%elem_of_rewireNode_conn; [|done..].
      now apply redirect_ne in Hb.
Qed.

Lemma rewireAll_symmetric pairs : forall w,
  live_pairs scope w pairs -> symmetric w -> symmetric (rewireAll pairs w).
Proof.
  induction pairs as [|[p0 t0] rest IH]; intros w Hl Hsym; [done|].
  destruct (live_pairs_head _ _ _ _ Hl) as (Hne & Hsc & Hp & Ht).
  simpl. apply IH; [now apply live_pairs_step|].
  intros a b (a0 & c & <- & <- & Hc)%elem_of_rewireNode_conn; [|done..].
  apply elem_of_rewireNode_conn; [done..|].
  exists c, a0. split; [done|]. split; [done|]. now apply Hsym.
Qed.
End RewireAll.

(** *** The loops of [loadModule] over the node overrides *)

Lemma node_refs_JNode ps : node_refs (JNode <$> ps) = ps.
Proof. induction ps as [|p ps IH]; [done|]. simpl. now f_equal. Qed.

Lemma node_refs_app vs1 vs2 : node_refs (vs1 ++ vs2) = (node_refs vs1 ++ node_refs vs2)%list.
Proof. apply bind_app. Qed.

Lemma all_nodes (P : ref -> Prop) vs :
  Forall (fun v => exists p, v = JNode p /\ P p) vs ->
  exists ps, vs = JNode <$> ps /\ Forall P ps.
Proof.
  induction 1 as [|v vs (p & -> & Hp) _ (ps & -> & Hps)]; [now exists []|].
  exists (p :: ps). split; [done|]. now constructor.
Qed.

Section Rewiring.
Context `{Imports}.
Variables (pre : list ref) (scope : ref).
Local Arguments Z.ltb : simpl never.
Local Arguments preloaded : simpl never.

Lemma is_placeholder_same_scopes w w' v :
  same_node_scopes w w' ->
  is_placeholder pre scope w v -> is_placeholder pre scope w' v.
Proof. intros Hs (p & -> & Hp & Hsc). exists p. now rewrite Hs. Qed.

Lemma is_index_preloaded n :
  is_index pre n -> exists t, preloaded pre n = JNode t /\ t ∈ pre.
Proof.
  intros (k & -> & Hk). unfold preloaded.
  destruct (k <? 0) eqn:Hneg; [apply Z.ltb_lt in Hneg; lia|].
  destruct (lookup_lt_is_Some_2 pre (Z.to_nat k) ltac:(lia)) as [t Ht].
  rewrite Ht. exists t. split; [done|]. now apply list_elem_of_lookup_2 in Ht.
Qed.

Lemma preloaded_target n t : preloaded pre n = JNode t -> t ∈ pre.
Proof.
  unfold preloaded. destruct n as [| |k| | | |]; try done.
  destruct (k <? 0); [done|].
  destruct (pre !! Z.to_nat k) as [t'|] eqn:Ht; [|done].
  intros [= <-]. now apply list_elem_of_lookup_2 in Ht.
Qed.

(** One call of [replace]: the result is the pre-loaded node of the index,
    and the world is the one after the ownership transfer. *)
Lemma replace_node_spec p n w :
  preloaded_in pre scope w ->
  is_placeholder pre scope w (JNode p) ->
  is_index pre n ->
  exists t,
    preloaded pre n = JNode t /\ t ∈ pre /\ is_Some (node_heap w !! t)
    /\ replace_node (JNode p) n w = Ok (JNode t, rewireNode p t w).
Proof.
  intros [[rest Hnodes] Hlive] (p' & [= <-] & Hp & Hsc) (k & -> & Hk).
  destruct (node_heap w !! p) as [ph|] eqn:Hph; [|done].
  simpl in Hsc. injection Hsc as Hsc.
  destruct (scopes w !! scope) as [s|] eqn:Hs; [|done].
  simpl in Hnodes. injection Hnodes as Hnodes.
  destruct (lookup_lt_is_Some_2 pre (Z.to_nat k) ltac:(lia)) as [t Ht].
  assert (Htpre : t ∈ pre) by now apply list_elem_of_lookup_2 in Ht.
  destruct (Hlive t Htpre) as [tn Htn].
  assert (Hneg : (k <? 0) = false) by (apply Z.ltb_ge; lia).
  exists t. unfold preloaded. rewrite Hneg, Ht.
  split; [done|]. split; [done|]. split; [eauto|].
  unfold replace_node, get_node, get_scope. rewrite Hph. simpl.
  rewrite Hsc, Hs. simpl. rewrite Hneg, Hnodes.
  now rewrite (lookup_app_l_Some _ _ _ _ Ht), Htn.
Qed.

Lemma rewireNode_preloaded_in p t w :
  preloaded_in pre scope w -> p ∉ pre -> p ≠ t ->
  node_scope <$> node_heap w !! p = Some scope -> is_Some (node_heap w !! t) ->
  preloaded_in pre scope (rewireNode p t w).
Proof.
  intros [[rest Hnodes] Hlive] Hp Hne Hsc Ht. split.
  - exists (filter (fun r' => r' ≠ p) rest).
    rewrite (rewireNode_allNodes p t w scope scope Hne Hsc Ht), Hnodes. simpl.
    rewrite decide_True by done. rewrite filter_app. f_equal. f_equal.
    apply filter_keeps. intros r Hr ->. contradiction.
  - intros t' Ht'. eapply same_node_scopes_live; [apply rewireNode_node_scope|].
    now apply Hlive.
Qed.

(** From here on [replace] is the operation the specification describes. *)
Hypothesis Hreplace : replace = replace_node.

(** The loop over an index sequence: position [i + j] of the array gets the
    pre-loaded node of the [j]-th index, in order; the other positions stay;
    the world is the one after the transfers of the positions, in order. *)
Lemma replaceEach_spec ns : forall i arr w,
  preloaded_in pre scope w ->
  (i + length ns <= length arr)%nat ->
  (forall j n, ns !! j = Some n ->
     is_index pre n
     /\ exists v, arr !! (i + j)%nat = Some v /\ is_placeholder pre scope w v) ->
  exists arr' w',
    replaceEach ns i arr w = Ok (arr', w')
    /\ w' = rewireAll (zip (node_refs (take (length ns) (drop i arr)))
                           (node_refs (preloaded pre <$> ns))) w
    /\ preloaded_in pre scope w' /\ same_node_scopes w w'
    /\ length arr' = length arr
    /\ (forall j n, ns !! j = Some n -> arr' !! (i + j)%nat = Some (preloaded pre n))
    /\ (forall k, (k < i \/ i + length ns <= k)%nat -> arr' !! k = arr !! k).
Proof.
  induction ns as [|n ns IH]; intros i arr w Hpre Hlen Hok.
  - exists arr, w. split; [done|]. split; [done|]. split; [done|].
    split; [done|]. split; [done|]. split; [done|]. done.
  - destruct (Hok O n eq_refl) as [Hidx (v & Hv & Hph)].
    rewrite Nat.add_0_r in Hv. simpl in Hlen.
    destruct Hph as (p & -> & Hp & Hsc).
    destruct (replace_node_spec p n w Hpre ltac:(now exists p) Hidx)
      as (t & Ht & Htpre & Htlive & Hrep).
    simpl. rewrite Hv. simpl. rewrite Hreplace, Hrep. simpl.
    assert (Hset : js_array_set arr i (JNode t) = <[i := JNode t]> arr).
    { unfold js_array_set. case_decide; [done | lia]. }
    rewrite Hset.
    assert (Hne : p ≠ t) by (intros ->; contradiction).
    pose proof (rewireNode_preloaded_in p t w Hpre Hp Hne Hsc Htlive) as Hpre1.
    pose proof (rewireNode_node_scope p t w) as Hs1.
    destruct (IH (S i) (<[i := JNode t]> arr) (rewireNode p t w) Hpre1)
      as (arr' & w' & -> & Hw' & Hpre' & Hs' & Hlen' & Hat & Hout).
    + rewrite length_insert. lia.
    + intros j n' Hj. destruct (Hok (S j) n' Hj) as [Hi' (v' & Hv' & Hph')].
      split; [done|]. exists v'. split.
      * rewrite list_lookup_insert_ne by lia. rewrite <- Hv'. f_equal. lia.
      * now apply (is_placeholder_same_scopes w).
    + exists arr', w'. split; [done|]. split.
      { rewrite Hw', (drop_S _ _ _ Hv), Ht. simpl.
        now rewrite drop_insert_lt by lia. }
      split; [done|]. split; [intros r; now rewrite Hs', Hs1|].
      split; [now rewrite Hlen', length_insert|]. split.
      * intros [|j] n' Hj; simpl in Hj.
        -- injection Hj as <-. rewrite Nat.add_0_r, Hout by lia.
           rewrite Ht. apply list_lookup_insert_eq. lia.
        -- rewrite <- (Hat j n' Hj). f_equal. lia.
      * intros k Hk. rewrite Hout by lia. apply list_lookup_insert_ne. lia.
Qed.

(** One node override. *)
Lemma replaceNode_spec node n (obj : gmap string jsval) w :
  preloaded_in pre scope w ->
  override_ok pre scope w obj (node, n) ->
  exists obj' w',
    replaceNode node n obj w = Ok (obj', w')
    /\ w' = rewireAll (entry_pairs pre obj (node, n)) w
    /\ preloaded_in pre scope w' /\ same_node_scopes w w'
    /\ rewired pre obj obj' (node, n)
    /\ (forall k, k ≠ node -> obj' !! k = obj !! k).
Proof.
  intros Hpre Hok. unfold override_ok, rewired, entry_pairs, overridden, indices in *.
  simpl in *.
  destruct n as [|b|k|str|r|ns|r];
    try (destruct Hok as [_ (k' & Hk' & _)]; discriminate).
  - destruct Hok as [Hph Hidx]. unfold replaceNode. rewrite Hreplace.
    destruct Hph as (p & Hget & Hp & Hsc). rewrite Hget.
    destruct (replace_node_spec p (JNum k) w Hpre ltac:(now exists p) Hidx)
      as (t & Ht & Htpre & Htlive & Hrep).
    rewrite Hrep. simpl. rewrite Ht.
    assert (Hne : p ≠ t) by (intros ->; contradiction).
    eexists _, _. split; [reflexivity|]. split; [reflexivity|].
    split; [now apply rewireNode_preloaded_in|].
    split; [apply rewireNode_node_scope|].
    split; [apply lookup_insert_eq|].
    intros k' Hne'. now rewrite lookup_insert_ne.
  - destruct Hok as (arr & Harr & Hlen & Hall). rewrite Harr.
    unfold replaceNode. destruct ns as [|n0 ns].
    + exists obj, w. split; [done|]. split; [done|]. split; [done|].
      split; [done|]. split; [|done]. exists arr, arr. done.
    + unfold get_prop. rewrite Harr. simpl.
      destruct (replaceEach_spec (n0 :: ns) O arr w Hpre ltac:(simpl in *; lia) Hall)
        as (arr' & w' & Heach & Hw' & Hpre' & Hs' & Hlen' & Hat & Hout).
      simpl in Heach. rewrite Heach. simpl.
      eexists _, w'. split; [reflexivity|]. split; [exact Hw'|].
      split; [done|]. split; [done|]. split.
      * exists arr, arr'. split; [done|]. split; [apply lookup_insert_eq|].
        split; [done|]. split; [exact Hat|].
        intros j Hj. apply Hout. right. simpl in *. lia.
      * intros k' Hne. now rewrite lookup_insert_ne.
Qed.

Lemma override_ok_stable w w' (obj obj' : gmap string jsval) e :
  same_node_scopes w w' -> obj' !! e.1 = obj !! e.1 ->
  override_ok pre scope w obj e -> override_ok pre scope w' obj' e.
Proof.
  intros Hg Hsame. unfold override_ok, get_prop. rewrite Hsame.
  destruct (e.2) as [| | | | |ns|];
    try (intros [Hph Hidx]; split; [now apply (is_placeholder_same_scopes w) | done]).
  intros (arr & Harr & Hlen & Hall). exists arr. split; [done|]. split; [done|].
  intros j n Hj. destruct (Hall j n Hj) as [Hidx (v & Hv & Hph)].
  split; [done|]. exists v. split; [done|].
  now apply (is_placeholder_same_scopes w).
Qed.

Lemma rewired_extend (obj0 obj1 obj2 obj3 : gmap string jsval) e :
  obj1 !! e.1 = obj0 !! e.1 -> obj3 !! e.1 = obj2 !! e.1 ->
  rewired pre obj1 obj2 e -> rewired pre obj0 obj3 e.
Proof. intros H01 H23. unfold rewired. now rewrite H01, H23. Qed.

Lemma entry_pairs_ext (obj obj' : gmap string jsval) e :
  obj' !! e.1 = obj !! e.1 -> entry_pairs pre obj' e = entry_pairs pre obj e.
Proof.
  intros Hsame. unfold entry_pairs, overridden, get_prop. now rewrite Hsame.
Qed.

Lemma override_pairs_ext (obj obj' : gmap string jsval) ns :
  (forall e, e ∈ ns -> obj' !! e.1 = obj !! e.1) ->
  override_pairs pre obj' ns = override_pairs pre obj ns.
Proof.
  induction ns as [|e ns IH]; intros Hsame; [done|].
  unfold override_pairs in *. simpl.
  rewrite (entry_pairs_ext obj obj') by (apply Hsame; left).
  f_equal. apply IH. intros e' He'. apply Hsame. now right.
Qed.

(** All node overrides of a descriptor. *)
Lemma replaceNodes_spec ns : forall (obj : gmap string jsval) w,
  preloaded_in pre scope w ->
  NoDup ns.*1 ->
  Forall (override_ok pre scope w obj) ns ->
  exists obj' w',
    replaceNodes ns obj w = Ok (obj', w')
    /\ w' = rewireAll (override_pairs pre obj ns) w
    /\ preloaded_in pre scope w'
    /\ Forall (rewired pre obj obj') ns.
Proof.
  induction ns as [|[node n] ns IH]; intros obj w Hpre Hnodup Hok.
  - exists obj, w. split; [done|]. split; [done|]. split; done.
  - apply NoDup_cons in Hnodup as [Hfresh Hnodup].
    apply Forall_cons in Hok as [Hok1 Hok].
    destruct (replaceNode_spec node n obj w Hpre Hok1)
      as (obj1 & w1 & Hone & Hw1 & Hpre1 & Hs1 & Hrew1 & Hother).
    assert (Hkeys : forall e, e ∈ ns -> e.1 ≠ node).
    { intros e He Heq. apply Hfresh. apply list_elem_of_fmap. exists e.
      split; [now symmetry | exact He]. }
    destruct (IH obj1 w1 Hpre1 Hnodup) as (obj' & w' & Hrest & Hw' & Hpre' & Hrew').
    { apply Forall_forall. intros e He. rewrite Forall_forall in Hok.
      apply (override_ok_stable w w1 obj obj1); [done | | now apply Hok].
      apply Hother. now apply Hkeys. }
    exists obj', w'. simpl. rewrite Hone. simpl. split; [exact Hrest|].
    split.
    { rewrite Hw', Hw1. unfold override_pairs at 2. simpl.
      rewrite rewireAll_app. f_equal. apply override_pairs_ext.
      intros e He. apply Hother. now apply Hkeys. }
    split; [done|].
    apply Forall_cons. split.
    + apply (rewired_extend obj obj obj1 obj'); [done | | done].
      simpl. now apply (replaceNodes_other _ _ _ _ _ _ Hrest).
    + apply Forall_forall. intros e He. rewrite Forall_forall in Hrew'.
      apply (rewired_extend obj obj1 obj' obj'); [|done | now apply Hrew'].
      apply Hother. now apply Hkeys.
Qed.

(** The pairs of an override that fits: the placeholders and the targets
    side by side. *)
Lemma entry_pairs_ok (obj : gmap string jsval) w e :
  override_ok pre scope w obj e ->
  exists ps ts,
    overridden obj e = JNode <$> ps
    /\ preloaded pre <$> indices e = JNode <$> ts
    /\ length ps = length ts
    /\ entry_pairs pre obj e = zip ps ts
    /\ Forall (fun p => (p ∉ pre) /\ node_scope <$> node_heap w !! p = Some scope) ps
    /\ Forall (fun t => t ∈ pre) ts.
Proof.
  intros Hok.
  assert (Hps : Forall (fun v => exists p, v = JNode p
                          /\ ((p ∉ pre) /\ node_scope <$> node_heap w !! p = Some scope))
                  (overridden obj e)
                /\ Forall (fun v => exists t, v = JNode t /\ t ∈ pre)
                     (preloaded pre <$> indices e)
                /\ length (overridden obj e) = length (indices e)).
  { unfold override_ok, overridden, indices in *.
    destruct (e.2) as [| | | | |ns|];
      try (destruct Hok as [(p & -> & Hp) Hidx];
           destruct (is_index_preloaded _ Hidx) as (t & Ht & Htpre);
           simpl; rewrite Ht; split; [|split; [|done]];
           repeat constructor; eauto).
    destruct Hok as (arr & -> & Hlen & Hall). split; [|split].
    - apply Forall_lookup_2. intros j v Hj.
      apply lookup_take_Some in Hj as [Hj Hlt].
      destruct (lookup_lt_is_Some_2 ns j Hlt) as [n Hn].
      destruct (Hall j n Hn) as [_ (v' & Hv' & (p & -> & Hp))].
      rewrite Hj in Hv'. injection Hv' as ->. eauto.
    - apply Forall_fmap. apply Forall_lookup_2. intros j n Hn.
      destruct (Hall j n Hn) as [Hidx _].
      destruct (is_index_preloaded _ Hidx) as (t & Ht & Htpre). simpl. eauto.
    - rewrite length_take. lia. }
  destruct Hps as (Hps & Hts & Hlen).
  destruct (all_nodes _ _ Hps) as (ps & Heq & Hps').
  destruct (all_nodes _ _ Hts) as (ts & Heqt & Hts').
  exists ps, ts. split; [done|]. split; [done|].
  assert (Hl : length ps = length ts).
  { rewrite <- (length_fmap JNode ps), <- Heq, Hlen.
    rewrite <- (length_fmap (preloaded pre) (indices e)), Heqt.
    apply length_fmap. }
  split; [done|]. split; [|done].
  unfold entry_pairs. now rewrite Heq, Heqt, !node_refs_JNode.
Qed.

Lemma replaces_pair (obj : gmap string jsval) w e p t :
  override_ok pre scope w obj e -> replaces pre obj e p t ->
  (p, t) ∈ entry_pairs pre obj e.
Proof.
  intros Hok Hrep.
  destruct (entry_pairs_ok obj w e Hok) as (ps & ts & Hps & Hts & Hlen & -> & _).
  assert (Hat : exists j, overridden obj e !! j = Some (JNode p)
                          /\ (preloaded pre <$> indices e) !! j = Some (JNode t)).
  { unfold replaces, overridden, indices in *.
    destruct (e.2) as [| | | | |ns|];
      try (destruct Hrep as [Hg Hpt]; exists O; simpl; now rewrite Hg, Hpt).
    destruct Hrep as (arr & j & n & -> & Hn & Hp & Ht). exists j. split.
    - apply lookup_take_Some. split; [done|]. now apply lookup_lt_Some in Hn.
    - now rewrite list_lookup_fmap, Hn, <- Ht. }
  destruct Hat as (j & Hp & Ht). rewrite Hps in Hp. rewrite Hts in Ht.
  rewrite list_lookup_fmap in Hp, Ht.
  destruct (ps !! j) as [p'|] eqn:Hpj; [|done].
  destruct (ts !! j) as [t'|] eqn:Htj; [|done].
  simpl in *. injection Hp as ->. injection Ht as ->.
  exact (elem_of_lookup_zip_with_2 pair ps ts p t (p, t) j Hpj Htj).
Qed.

Lemma override_pairs_ok (obj : gmap string jsval) w ns :
  Forall (override_ok pre scope w obj) ns ->
  (override_pairs pre obj ns).*1 = placeholders obj ns
  /\ forall p t, (p, t) ∈ override_pairs pre obj ns ->
       (p ∉ pre) /\ node_scope <$> node_heap w !! p = Some scope /\ t ∈ pre.
Proof.
  induction 1 as [|e ns He _ [IH1 IH2]].
  { split; [done|]. intros p t Hin. now apply elem_of_nil in Hin. }
  destruct (entry_pairs_ok obj w e He) as (ps & ts & Hps & Hts & Hlen & Hz & Hp & Ht).
  unfold override_pairs, placeholders in *. rewrite !bind_cons. split.
  - rewrite fmap_app, node_refs_app, IH1, Hz, Hps, node_refs_JNode.
    now rewrite fst_zip by lia.
  - intros p t [Hin|Hin]%elem_of_app; [|now apply IH2].
    rewrite Hz in Hin. rewrite Forall_forall in Hp, Ht.
    destruct (Hp p (elem_of_zip_l _ _ _ _ Hin)) as [? ?].
    split; [done|]. split; [done|]. apply Ht. apply (elem_of_zip_r _ _ _ _ Hin).
Qed.
End Rewiring.

(** C1: for a descriptor with node overrides, [loadModule] puts the
    pre-loaded node of the given index where the constructor had put a
    placeholder.  After it, every overridden property references the
    pre-loaded node object; for a sequence of indices, position i of the
    property array references the pre-loaded node of the i-th index, and
    positions beyond the sequence are untouched.  Every placeholder that is
    replaced is discarded: it has left the node set of the scope (which
    loses no other node), it has no connection, and no node lists it.  Its
    connections have moved to the target at both ends: what the placeholder
    listed, the target lists, and what listed the placeholder lists the
    target.  No other connection is lost, and connections that were
    symmetric are symmetric afterwards.  ([replace] is the operation the
    specification describes; the pre-loaded nodes [pre] are the first nodes
    of the scope's node set, the placeholders come after them and are
    pairwise distinct.) *)
Theorem loadModule_rewires_nodes `{Imports} (data : CircuitElement) (scope : ref)
    (w : World) (C : ModuleClass) (cd : CustomData) (ns : list (string * jsval))
    (obj0 : gmap string jsval) (w1 : World) (pre : list ref) :
  replace = replace_node ->
  modules !! propertyKey (rectifyObjectType (objectType data)) = Some C ->
  customData data = Some cd ->
  nodes cd = Some ns ->
  constructModule C data scope w = Ok (obj0, w1) ->
  let obj1 := match values cd with
              | Some vals => restoreValues vals obj0
              | None => obj0
              end in
  NoDup ns.*1 ->
  "subcircuitMetadata" ∉ ns.*1 ->
  preloaded_in pre scope w1 ->
  Forall (override_ok pre scope w1 obj1) ns ->
  NoDup (placeholders obj1 ns) ->
  exists obj w',
    loadModule data scope w = Ok (Some obj, w')
    /\ Forall (rewired pre obj1 obj) ns
    /\ (forall e p t, e ∈ ns -> replaces pre obj1 e p t ->
          discarded scope w' p
          /\ transferred (placeholders obj1 ns) w1 w' p t)
    /\ kept (placeholders obj1 ns) w1 w'
    /\ (symmetric w1 -> symmetric w')
    /\ allNodes_of scope w'
       = filter (fun r => r ∉ placeholders obj1 ns) (allNodes_of scope w1)
    /\ preloaded_in pre scope w'.
Proof.
  intros Hreplace Hmod Hcd Hns Hcons obj1 Hnodup Hsub Hpre Hok Hdistinct.
  destruct (replaceNodes_spec pre scope Hreplace ns obj1 w1 Hpre Hnodup Hok)
    as (obj' & w' & Hrun & Hw' & Hpre' & Hrew).
  destruct (override_pairs_ok pre scope obj1 w1 ns Hok) as [Hfst Hpairs].
  set (pairs := override_pairs pre obj1 ns) in *.
  assert (Hlive : live_pairs scope w1 pairs).
  { intros p t Hin. destruct (Hpairs p t Hin) as (Hp & Hsc & Ht).
    split; [intros ->; contradiction|]. split; [done|]. now apply (proj2 Hpre). }
  assert (Htg : forall p t, (p, t) ∈ pairs -> t ∉ pairs.*1).
  { intros p t Hin ([p2 t2] & Heq & Hin2)%list_elem_of_fmap. simpl in Heq. subst t.
    destruct (Hpairs p p2 Hin) as (_ & _ & Hp2).
    destruct (Hpairs p2 t2 Hin2) as (Hnot & _). contradiction. }
  assert (Hnodes : allNodes_of scope w'
                   = filter (fun r => r ∉ pairs.*1) (allNodes_of scope w1)).
  { rewrite !allNodes_of_alt, Hw', (rewireAll_allNodes scope pairs w1 Hlive).
    now destruct (scopes w1 !! scope). }
  unfold loadModule. rewrite Hmod, Hcons, Hcd. simpl. rewrite Hns.
  fold obj1. rewrite Hrun. simpl.
  eexists _, w'. split; [reflexivity|]. split; [|split; [|split; [|split; [|split]]]].
  - apply Forall_forall. intros e He. rewrite Forall_forall in Hrew.
    apply (rewired_extend pre obj1 obj1 obj'); [done | | now apply Hrew].
    destruct (truthy (subcircuitMetadata data)); [|done].
    apply lookup_insert_ne. intros Heq. apply Hsub.
    apply list_elem_of_fmap. exists e. split; [exact Heq | exact He].
  - intros e p t He Hrep.
    assert (Hin : (p, t) ∈ pairs).
    { apply list_elem_of_bind. exists e. split; [|exact He].
      rewrite Forall_forall in Hok. apply (replaces_pair pre scope obj1 w1); auto. }
    assert (Hp : p ∈ pairs.*1).
    { apply list_elem_of_fmap. now exists (p, t). }
    destruct (rewireAll_gone scope pairs w1 p Hlive Htg Hp) as [Hnone Hunlisted].
    rewrite <- Hw' in Hnone, Hunlisted. split.
    + split; [|done]. rewrite Hnodes. intros [Hout _]%list_elem_of_filter. contradiction.
    + intros c Hc. rewrite <- Hfst in Hc, Hdistinct. rewrite Hw'.
      now apply (rewireAll_transferred scope).
  - intros r c Hr Hc Hin. rewrite <- Hfst in Hr, Hc. rewrite Hw'.
    now apply (rewireAll_kept scope).
  - intros Hsym. rewrite Hw'. now apply (rewireAll_symmetric scope).
  - now rewrite Hnodes, Hfst.
  - exact Hpre'.
Qed.

(** The scenario of the specification: the two inputs of the AND gate end
    up on the node objects 0 and 1, its output on node 2, and the
    placeholders are gone from the node set. *)
Example loadModule_wired_gate :
  (fun r => (loaded_prop "inp" r, loaded_prop "output1" r,
             (fun ow => allNodes_of 0 ow.2) <$> r))
    (@loadModule Demo.imports Demo.wired_gate 0 Demo.three_nodes)
  = (Some (JArr [JNode 0; JNode 1]), Some (JNode 2), Ok [0; 1; 2]%nat).
Proof. vm_compute. reflexivity. Qed.

(** The same gate with an output that its constructor connected to node 1:
    the connection is one between node 1 and the placeholder 5 when the
    overrides are applied, and one between node 1 and node 2 afterwards. *)
Example loadModule_linked_gate :
  (fun ow => (conn_of ow.2 1, conn_of ow.2 5))
    <$> @constructModule Demo.imports (Demo.gate "AndGate") Demo.linked_gate 0
          Demo.three_nodes
  = Ok ([5], [1])%nat
  /\ (fun ow => (loaded_prop "output1" (Ok ow), allNodes_of 0 ow.2,
                 conn_of ow.2 1, conn_of ow.2 2, conn_of ow.2 5))
       <$> @loadModule Demo.imports Demo.linked_gate 0 Demo.three_nodes
     = Ok (Some (JNode 2), [0; 1; 2], [2], [1], [])%nat.
Proof. split; vm_compute; reflexivity. Qed.

Lemma loadModule_rewires_nodes_witness :
  exists obj w' arr',
    @loadModule Demo.imports Demo.linked_gate 0 Demo.three_nodes = Ok (Some obj, w')
    /\ obj !! "output1" = Some (JNode 2)
    /\ obj !! "inp" = Some (JArr arr')
    /\ arr' !! O = Some (JNode 0) /\ arr' !! 1%nat = Some (JNode 1)
    /\ discarded 0 w' 5
    /\ 1%nat ∈ conn_of w' 2 /\ 2%nat ∈ conn_of w' 1.
Proof.
  pose (pre := [O; 1; 2]%nat).
  assert (Hfacts :
    (fun ow => (ow.1 !! "inp", ow.1 !! "output1", allNodes <$> scopes ow.2 !! O,
                (node_scope <$> node_heap ow.2 !! O,
                 node_scope <$> node_heap ow.2 !! 1%nat,
                 node_scope <$> node_heap ow.2 !! 2%nat),
                (node_scope <$> node_heap ow.2 !! 3%nat,
                 node_scope <$> node_heap ow.2 !! 4%nat,
                 node_scope <$> node_heap ow.2 !! 5%nat),
                (conn_of ow.2 1, conn_of ow.2 5)))
      <$> @constructModule Demo.imports (Demo.gate "AndGate") Demo.linked_gate 0
            Demo.three_nodes
    = Ok (Some (JArr [JNode 3; JNode 4]), Some (JNode 5),
          Some [O; 1; 2; 3; 4; 5]%nat,
          (Some O, Some O, Some O), (Some O, Some O, Some O),
          ([5], [1])%nat))
    by (vm_compute; reflexivity).
  destruct (@constructModule Demo.imports (Demo.gate "AndGate") Demo.linked_gate 0
              Demo.three_nodes) as [[obj0 w1]| |] eqn:Hcons; try discriminate.
  simpl in Hfacts.
  injection Hfacts as Hinp Hout Hnodes Hn0 Hn1 Hn2 Hn3 Hn4 Hn5 Hc1 Hc5.
  assert (Hlive : forall (t : ref) o, node_scope <$> node_heap w1 !! t = Some o ->
                    is_Some (node_heap w1 !! t)).
  { intros t o Ht. destruct (node_heap w1 !! t); [eexists; reflexivity | discriminate]. }
  assert (Hpre : preloaded_in pre 0%nat w1).
  { split; [exists [3; 4; 5]%nat; exact Hnodes|].
    intros t Ht. subst pre.
    repeat (apply elem_of_cons in Ht as [->|Ht]; [eapply Hlive; eassumption|]).
    now apply elem_of_nil in Ht. }
  assert (Hph : forall (p : ref), p ∉ pre ->
            node_scope <$> node_heap w1 !! p = Some O ->
            is_placeholder pre 0%nat w1 (JNode p)).
  { intros p Hp Hsc. now exists p. }
  assert (Hout_pre : forall p : ref, (2 < p)%nat -> p ∉ pre).
  { intros p Hp Hin. subst pre.
    repeat (apply elem_of_cons in Hin as [->|Hin]; [lia|]).
    now apply elem_of_nil in Hin. }
  assert (Hidx : forall k, 0 <= k < 3 -> is_index pre (JNum k)).
  { intros k Hk. exists k. split; [done | simpl; lia]. }
  assert (Hgone : placeholders obj0 Demo.wired_nodes = [3; 4; 5]%nat).
  { unfold placeholders, Demo.wired_nodes, overridden, get_prop.
    rewrite !bind_cons. simpl. now rewrite Hinp, Hout. }
  destruct (@loadModule_rewires_nodes Demo.imports Demo.linked_gate 0%nat
              Demo.three_nodes (Demo.gate "AndGate") _ Demo.wired_nodes obj0 w1 pre
              eq_refl demo_modules_AndGate eq_refl eq_refl Hcons)
    as (obj & w' & Hload & Hrew & Hmoved & _).
  - apply (bool_decide_unpack _). vm_compute. exact I.
  - apply (bool_decide_unpack _). vm_compute. exact I.
  - exact Hpre.
  - simpl. repeat apply Forall_cons_2; [| |apply Forall_nil_2].
    + exists [JNode 3; JNode 4]. split; [exact Hinp|]. split; [simpl; lia|].
      intros [|[|j]] n Hj; simpl in Hj; try discriminate; injection Hj as <-.
      * split; [apply Hidx; lia|]. eexists. split; [reflexivity|].
        apply Hph; [apply Hout_pre; lia | exact Hn3].
      * split; [apply Hidx; lia|]. eexists. split; [reflexivity|].
        apply Hph; [apply Hout_pre; lia | exact Hn4].
    + split; [|apply Hidx; lia]. unfold get_prop. simpl. rewrite Hout. simpl.
      apply Hph; [apply Hout_pre; lia | exact Hn5].
  - simpl. rewrite Hgone. apply (bool_decide_unpack _). vm_compute. exact I.
  - apply Forall_cons in Hrew as [Hinp' Hrew].
    apply Forall_cons in Hrew as [Hout' _].
    destruct Hinp' as (arr & arr' & _ & Harr' & _ & Hat & _).
    simpl in Hmoved. rewrite Hgone in Hmoved.
    destruct (Hmoved ("output1", JNum 2) 5%nat 2%nat) as [Hdisc Htrans].
    { right. left. }
    { split; [unfold get_prop; simpl; now rewrite Hout | reflexivity]. }
    destruct (Htrans 1%nat) as [Hlisted Hlists].
    { apply (bool_decide_unpack _). vm_compute. exact I. }
    exists obj, w', arr'. split; [exact Hload|]. split; [exact Hout'|].
    split; [exact Harr'|]. split; [apply (Hat O (JNum 0) eq_refl)|].
    split; [apply (Hat 1%nat (JNum 1) eq_refl)|]. split; [exact Hdisc|].
    split; [apply Hlisted | apply Hlists].
    + rewrite Hc5. left.
    + rewrite Hc1. left.
Defined.

(** ** Graph repair: what is deleted *)

Lemma node_identity_bug w w' r :
  node_identity w' r = node_identity w r ->
  isBugNode <$> node_heap w' !! r = isBugNode <$> node_heap w !! r.
Proof.
  unfold node_identity.
  destruct (node_heap w' !! r) as [n'|], (node_heap w !! r) as [n|]; simpl; try done.
  intros [= Hty Hpar Hsc]. unfold isBugNode. now rewrite Hty, Hpar.
Qed.

Lemma node_identity_valid w w' r :
  node_identity w' r = node_identity w r -> is_valid w' r = is_valid w r.
Proof.
  intros Hid%node_identity_bug. unfold is_valid.
  destruct (node_heap w' !! r), (node_heap w !! r); simpl in Hid; congruence.
Qed.

Lemma node_identity_owned scope w w' r :
  node_identity w' r = node_identity w r -> owned_by scope w r -> owned_by scope w' r.
Proof.
  unfold node_identity, owned_by. intros Hid (n & Hn & Hsc). rewrite Hn in Hid.
  destruct (node_heap w' !! r) as [n'|]; [|done].
  injection Hid as _ _ Hsc'. exists n'. split; [done | congruence].
Qed.

Lemma delete_node_identity r w r' :
  node_identity (delete_node r w) r' = node_identity w r'.
Proof.
  unfold delete_node, node_identity.
  destruct (node_heap w !! r) as [n|] eqn:Hn; [|done].
  destruct (scopes w !! node_scope n) as [s|]; [|done].
  simpl. rewrite drop_node_heap.
  destruct (decide (r' = r)) as [->|Hne]; [now rewrite lookup_insert_eq, Hn|].
  rewrite lookup_insert_ne by done. rewrite lookup_fmap.
  now destruct (node_heap w !! r').
Qed.

Lemma delete_node_no_other scope : deletes_no_other scope delete_node.
Proof.
  intros r w r' Hne. split; [|apply delete_node_identity].
  intros Hin. destruct (delete_node_allNodes scope r w) as [->| ->]; [done|].
  apply list_elem_of_filter. now split.
Qed.

Lemma delete_node_one scope : deletes_one_node scope delete_node.
Proof.
  intros r w (n & Hn & Hsc) [s Hs].
  split; [|split; [|intros r' _; apply delete_node_identity]];
    unfold delete_node; rewrite Hn, Hsc, Hs.
  - unfold drop_node. rewrite Hs. simpl. rewrite lookup_insert_eq. eauto.
  - change (allNodes_of scope (set_node_heap ?f ?w0)) with (allNodes_of scope w0).
    rewrite drop_node_allNodes. now rewrite decide_True.
Qed.

Section OnlyInvalidDeleted.
Context `{Imports}.
Variable scope : ref.
Hypothesis Hdelete : deletes_no_other scope node_delete.

Local Abbreviation bug w r := (isBugNode <$> node_heap w !! r = Some true).

Lemma removeBugNodes_turn_deletes i x w i' x' w' :
  removeBugNodes_turn scope i x w = Ok (i', x', w') ->
  forall r, r ∈ allNodes_of scope w ->
    (r ∉ allNodes_of scope w' -> bug w r) /\ (bug w' r -> bug w r).
Proof.
  unfold removeBugNodes_turn, get_scope, get_node. intros Hturn.
  destruct (scopes w !! scope) as [s|]; simpl in Hturn; [|done].
  destruct (allNodes s !! i) as [r0|]; [|done].
  destruct (node_heap w !! r0) as [node|] eqn:Hnode; simpl in Hturn; [|done].
  destruct (isBugNode node) eqn:Hbug.
  - destruct (scopes (node_delete r0 w) !! scope); simpl in Hturn; [|done].
    assert (Hw' : w' = node_delete r0 w) by (destruct (negb _); congruence).
    subst w'. intros r Hin.
    destruct (decide (r = r0)) as [->|Hne]; [now rewrite Hnode; simpl; rewrite Hbug|].
    destruct (Hdelete r0 w r Hne) as [Hstay Hid]. split.
    + intros Hout. exfalso. now apply Hout, Hstay.
    + now rewrite (node_identity_bug _ _ _ Hid).
  - destruct (scopes w !! scope); simpl in Hturn; [|done].
    assert (Hw' : w' = w) by (destruct (negb _); congruence).
    subst w'. intros r Hin. split; done.
Qed.

Lemma removeBugNodes_loop_deletes fuel : forall i x w w',
  removeBugNodes_loop fuel scope i x w = Ok w' ->
  forall r, r ∈ allNodes_of scope w -> r ∉ allNodes_of scope w' -> bug w r.
Proof.
  induction fuel as [|fuel IH]; intros i x w w' Hloop; [done|].
  simpl in Hloop. destruct (i <? x)%nat.
  - destruct (removeBugNodes_turn scope i x w) as [[[i1 x1] w1]| |] eqn:Hturn;
      simpl in Hloop; try done.
    intros r Hin Hout.
    destruct (removeBugNodes_turn_deletes _ _ _ _ _ _ Hturn r Hin) as [Hgone Hback].
    destruct (decide (r ∈ allNodes_of scope w1)) as [Hin1|Hout1].
    + apply Hback. now apply (IH _ _ _ _ Hloop).
    + now apply Hgone.
  - injection Hloop as <-. intros r Hin Hout. contradiction.
Qed.
End OnlyInvalidDeleted.

(** ** Graph repair: the node set it leaves *)

Lemma length_filter_ne (l : list ref) r :
  r ∈ l -> (length (filter (fun r' => r' ≠ r) l) < length l)%nat.
Proof.
  induction l as [|a l IH]; intros Hin; [now apply elem_of_nil in Hin|].
  rewrite filter_cons. case_decide as Ha; simpl.
  - apply elem_of_cons in Hin as [->|Hin]; [done|]. specialize (IH Hin). lia.
  - pose proof (length_filter (fun r' => r' ≠ r) l). lia.
Qed.

Section RepairResult.
Context `{Imports}.
Variables (scope : ref) (w0 : World).
Hypothesis Hdelete : deletes_one_node scope node_delete.

(** The world [w] has the node set [l] in [scope], and the nodes of [l] are
    as they are in [w0]. *)
Local Abbreviation Inv l w :=
  (is_Some (scopes w !! scope) /\ allNodes_of scope w = l
   /\ forall r, r ∈ l -> node_identity w r = node_identity w0 r).

Lemma inv_scope l w :
  Inv l w -> exists s, scopes w !! scope = Some s /\ allNodes s = l.
Proof.
  intros ([s Hs] & Hl & _). exists s. split; [done|].
  unfold allNodes_of in Hl. now rewrite Hs in Hl.
Qed.

Lemma turn_valid l w i r :
  Inv l w -> l !! i = Some r -> is_valid w0 r = true ->
  removeBugNodes_turn scope i (length l) w = Ok (S i, length l, w).
Proof.
  intros HI Hi Hv. destruct (inv_scope _ _ HI) as (s & Hs & Hl).
  destruct HI as (_ & _ & Hid).
  rewrite <- (node_identity_valid w0 w r) in Hv
    by (apply Hid; now apply list_elem_of_lookup_2 in Hi).
  unfold is_valid in Hv. destruct (node_heap w !! r) as [node|] eqn:Hnode; [|done].
  apply negb_true_iff in Hv.
  unfold removeBugNodes_turn, get_scope, get_node.
  rewrite Hs. simpl. rewrite Hl, Hi, Hnode. simpl. rewrite Hv, Hs. simpl.
  now rewrite Hl, Nat.eqb_refl.
Qed.

Lemma turn_invalid l w i r :
  Inv l w -> l !! i = Some r -> owned_by scope w0 r -> is_valid w0 r = false ->
  exists w',
    removeBugNodes_turn scope i (length l) w
    = Ok (1%nat, length (filter (fun r' => r' ≠ r) l), w')
    /\ Inv (filter (fun r' => r' ≠ r) l) w'.
Proof.
  intros HI Hi Hown Hv. destruct (inv_scope _ _ HI) as (s & Hs & Hl).
  destruct HI as (Hlive & Hnodes & Hid).
  assert (Hin : r ∈ l) by now apply list_elem_of_lookup_2 in Hi.
  rewrite <- (node_identity_valid w0 w r) in Hv by now apply Hid.
  apply (node_identity_owned scope w0 w r (Hid r Hin)) in Hown.
  destruct (Hdelete r w Hown Hlive) as ([s' Hs'] & Hnodes' & Hid').
  destruct Hown as (node & Hnode & _).
  unfold is_valid in Hv. rewrite Hnode in Hv. apply negb_false_iff in Hv.
  exists (node_delete r w). split.
  - unfold removeBugNodes_turn, get_scope, get_node.
    rewrite Hs. simpl. rewrite Hl, Hi, Hnode. simpl. rewrite Hv, Hs'. simpl.
    assert (Hl' : allNodes s' = filter (fun r' => r' ≠ r) l).
    { rewrite <- Hnodes, <- Hnodes'. unfold allNodes_of. now rewrite Hs'. }
    rewrite Hl'. pose proof (length_filter_ne l r Hin) as Hlt.
    destruct (length (filter _ l) =? length l)%nat eqn:Heq; [|done].
    apply Nat.eqb_eq in Heq. lia.
  - split; [eauto|]. split; [now rewrite Hnodes', Hnodes|].
    intros r' [Hne Hin']%list_elem_of_filter.
    rewrite Hid' by done. now apply Hid.
Qed.

Lemma filter_valid_skip r (l : list ref) :
  is_valid w0 r = false ->
  filter (fun r' => is_valid w0 r') (filter (fun r' => r' ≠ r) l)
  = filter (fun r' => is_valid w0 r') l.
Proof.
  intros Hr. induction l as [|a l IH]; [done|].
  rewrite (filter_cons (fun r' => r' ≠ r)). case_decide as Ha.
  - rewrite !filter_cons, IH. done.
  - subst a. rewrite IH, filter_cons.
    case_decide as Hv; [|done]. rewrite Hr in Hv. done.
Qed.

(** The scan from an index past the first node: the first node stays, the
    invalid nodes after it go. *)
Lemma removeBugNodes_loop_tail fuel : forall i a tl w,
  NoDup (a :: tl) ->
  (forall r, r ∈ a :: tl -> owned_by scope w0 r) ->
  Inv (a :: tl) w ->
  (1 <= i)%nat ->
  (forall j r, (j < i - 1)%nat -> tl !! j = Some r -> is_valid w0 r = true) ->
  (S (length tl) * (S (length tl) + 1) + (S (length tl) - i) + 1 <= fuel)%nat ->
  exists w',
    removeBugNodes_loop fuel scope i (S (length tl)) w = Ok w'
    /\ Inv (a :: filter (fun r => is_valid w0 r) tl) w'.
Proof.
  induction fuel as [|fuel IH]; intros i a tl w Hnodup Hown HI Hi Hseen Hfuel; [lia|].
  simpl. destruct (i <? S (length tl))%nat eqn:Hix.
  - apply Nat.ltb_lt in Hix.
    destruct (lookup_lt_is_Some_2 tl (i - 1) ltac:(lia)) as [r Hr].
    assert (Hat : (a :: tl) !! i = Some r).
    { destruct i as [|i]; [lia|]. simpl.
      now replace (S i - 1)%nat with i in Hr by lia. }
    assert (Hin : r ∈ tl) by now apply list_elem_of_lookup_2 in Hr.
    destruct (is_valid w0 r) eqn:Hv.
    + change (S (length tl)) with (length (a :: tl)).
      rewrite (turn_valid _ _ _ _ HI Hat Hv). simpl.
      apply IH; [done | done | done | lia | | lia].
      intros j r' Hj Hr'. destruct (decide (j = i - 1)%nat) as [->|Hne].
      * rewrite Hr in Hr'. now injection Hr' as <-.
      * apply (Hseen j); [lia | done].
    + change (S (length tl)) with (length (a :: tl)).
      destruct (turn_invalid _ _ _ _ HI Hat (Hown r ltac:(now right)) Hv)
        as (w1 & -> & HI1). simpl.
      apply NoDup_cons in Hnodup as [Ha Hnodup].
      rewrite filter_cons in HI1 |- *.
      rewrite decide_True in HI1 |- * by (intros ->; contradiction).
      simpl. rewrite <- (filter_valid_skip r tl Hv). apply IH.
      * apply NoDup_cons. split; [|now apply NoDup_filter].
        intros [_ ?]%list_elem_of_filter. contradiction.
      * intros r' [->|[_ Hr']%list_elem_of_filter]%elem_of_cons; apply Hown;
          [now left | now right].
      * exact HI1.
      * lia.
      * intros j r' Hj. lia.
      * pose proof (length_filter_ne tl r Hin). nia.
  - apply Nat.ltb_ge in Hix. exists w. split; [done|].
    rewrite filter_keeps; [done|].
    intros r [j Hj]%list_elem_of_lookup_1.
    apply Is_true_true. apply (Hseen j); [|done].
    apply lookup_lt_Some in Hj. lia.
Qed.

(** What [removeBugNodes] computes on a scope that owns the nodes of its
    node set: it returns and the node set is [repaired]. *)
Lemma removeBugNodes_result fuel s :
  scopes w0 !! scope = Some s ->
  NoDup (allNodes s) ->
  (forall r, r ∈ allNodes s -> owned_by scope w0 r) ->
  ((length (allNodes s) + 1) ^ 2 <= fuel)%nat ->
  exists w',
    removeBugNodes fuel scope w0 = Ok w'
    /\ Inv (repaired w0 (allNodes s)) w'.
Proof.
  intros Hs Hnodup Hown Hfuel. unfold removeBugNodes, get_scope. rewrite Hs. simpl.
  rewrite Nat.pow_2_r in Hfuel.
  assert (HI : Inv (allNodes s) w0).
  { split; [eauto|]. split; [|done]. unfold allNodes_of. now rewrite Hs. }
  destruct (allNodes s) as [|a tl] eqn:Hl.
  - exists w0. split; [|done]. destruct fuel; [simpl in Hfuel; lia | done].
  - destruct fuel as [|fuel]; [simpl in Hfuel; lia|]. simpl.
    destruct (is_valid w0 a) eqn:Hv;
      change (S (length tl)) with (length (a :: tl)).
    + rewrite (turn_valid (a :: tl) w0 O a HI eq_refl Hv). simpl.
      apply removeBugNodes_loop_tail; try done.
      * intros j r Hj. lia.
      * simpl in *. nia.
    + destruct (turn_invalid (a :: tl) w0 O a HI eq_refl (Hown a ltac:(now left)) Hv)
        as (w1 & -> & HI1). simpl.
      apply NoDup_cons in Hnodup as [Ha Hnodup].
      rewrite filter_cons in HI1 |- *.
      rewrite decide_False in HI1 |- * by (intros Hne; now apply Hne).
      rewrite filter_keeps in HI1 |- * by (intros r Hr ->; contradiction).
      destruct tl as [|b tl2].
      * exists w1. split; [|done]. destruct fuel; [simpl in Hfuel; lia | done].
      * simpl. rewrite drop_0.
        apply removeBugNodes_loop_tail; try done.
        -- intros r Hr. apply Hown. now right.
        -- intros j r Hj. lia.
        -- simpl in *. nia.
Qed.
End RepairResult.

(** An invalid node survives the pass exactly as the second node of a node
    set whose first node is invalid too. *)
Lemma repaired_invalid_left w l r :
  r ∈ repaired w l -> is_valid w r = false ->
  exists r0 rest, l = r0 :: r :: rest /\ is_valid w r0 = false.
Proof.
  intros Hin Hr. destruct l as [|r0 rest]; [now apply elem_of_nil in Hin|].
  simpl in Hin. destruct (is_valid w r0) eqn:H0.
  - apply elem_of_cons in Hin as [->|[Hv _]%list_elem_of_filter]; [congruence|].
    rewrite Hr in Hv. done.
  - destruct rest as [|r1 rest]; [now apply elem_of_nil in Hin|].
    simpl in Hin. rewrite drop_0 in Hin.
    apply elem_of_cons in Hin as [->|[Hv _]%list_elem_of_filter]; [eauto|].
    rewrite Hr in Hv. done.
Qed.

Lemma repaired_two_invalid w r0 r1 rest :
  is_valid w r0 = false -> r1 ∈ repaired w (r0 :: r1 :: rest).
Proof. intros H0. simpl. rewrite H0. now left. Qed.

(** * Further properties of the loader *)

(** ** Type registry *)

(** X1: for a tag that is not a name inherited from [Object.prototype],
    [rectifyObjectType] returns a tag: the tag itself unless it is one of
    the two legacy tags; the tag it returns is never a legacy tag, and
    rectifying it again gives it back.  For an inherited name
    ([constructor], [toString], ...) it does not return the tag but the
    inherited value. *)
Theorem rectifyObjectType_idempotent (tag : string) :
  if bool_decide (tag ∈ object_prototype)
  then rectifyObjectType tag = Inherited tag
  else exists t,
    rectifyObjectType tag = Tag t
    /\ rectifyObjectType t = Tag t
    /\ (t = tag \/ tag = "FlipFlop" \/ tag = "Ram")
    /\ t ≠ "FlipFlop" /\ t ≠ "Ram".
Proof.
  case_bool_decide as Hin.
  - unfold object_prototype in Hin.
    repeat (apply elem_of_cons in Hin as [->|Hin]; [reflexivity|]).
    now apply elem_of_nil in Hin.
  - destruct (rectify !! tag) as [current|] eqn:Hrect.
    + destruct (rectifyObjectType_legacy _ _ Hrect) as [Hl Hc].
      exists current. split; [exact Hl|]. split; [exact Hc|].
      destruct (rectify_cases _ _ Hrect) as [[-> ->]|[-> ->]];
        (split; [auto|]); split; discriminate.
    + assert (Hid : rectifyObjectType tag = Tag tag).
      { unfold rectifyObjectType. rewrite Hrect. now rewrite bool_decide_eq_false_2. }
      exists tag. split; [exact Hid|]. split; [exact Hid|]. split; [now left|].
      split; intros ->; vm_compute in Hrect; discriminate.
Qed.

(** A tag that is an inherited name is looked up under the string of the
    inherited value, finds no constructor, and is reported under its own
    name. *)
Example loadModule_inherited_name :
  rectifyObjectType "toString" = Inherited "toString"
  /\ (fun ow => console ow.2)
       <$> @loadModule Demo.imports (Demo.element "toString") 0 Demo.main_world
     = Ok ["Module type toString not found"].
Proof. split; vm_compute; reflexivity. Qed.

(** ** Element loader *)

Lemma loaded_some k r :
  is_Some (loaded_prop k r) -> exists obj w', r = Ok (Some obj, w').
Proof.
  destruct r as [[[obj|] w']| |]; simpl; intros [v Hv]; try discriminate.
  now exists obj, w'.
Qed.

Lemma demo_gate_fixDirection k o w0 o' w0' :
  fixDirection_method (Demo.gate "AndGate") o w0 = Ok (o', w0') ->
  o' !! k = o !! k.
Proof. intros Heq. injection Heq as <- <-. reflexivity. Qed.

Lemma loadModule_delay_witness :
  exists obj w',
    @loadModule Demo.imports Demo.delayed_gate 0 Demo.main_world = Ok (Some obj, w')
    /\ get_prop obj "propagationDelay" = JNum 25.
Proof.
  destruct (loaded_some "propagationDelay"
              (@loadModule Demo.imports Demo.delayed_gate 0 Demo.main_world))
    as (obj & w' & Hrun); [vm_compute; eexists; reflexivity|].
  exists obj, w'. split; [exact Hrun|].
  destruct (@loadModule_delay Demo.imports Demo.delayed_gate 0%nat Demo.main_world
              (Demo.gate "AndGate") obj w' demo_modules_AndGate
              (demo_gate_fixDirection "propagationDelay")
              ltac:(apply not_elem_of_nil) ltac:(apply not_elem_of_nil) Hrun)
    as (obj0 & w0 & _ & Hdelay).
  exact Hdelay.
Defined.

(** X3: the label direction of a loaded element is the descriptor's when it
    gives a non-empty one; otherwise it is derived from the direction the
    constructor chose, as [oppositeDirection[fixDirection[obj.direction]]].
    (No override is named "labelDirection" and the direction fix-up does not
    write it.) *)
Theorem loadModule_labelDirection `{Imports} data scope w C obj w' :
  modules !! propertyKey (rectifyObjectType (objectType data)) = Some C ->
  (forall o w0 o' w0', fixDirection_method C o w0 = Ok (o', w0') ->
     o' !! "labelDirection" = o !! "labelDirection") ->
  "labelDirection" ∉ (default [] (customData data ≫= values)).*1 ->
  "labelDirection" ∉ (default [] (customData data ≫= nodes)).*1 ->
  loadModule data scope w = Ok (Some obj, w') ->
  exists obj0 w0,
    construct C (x data) (y data) scope
      (default [] (customData data ≫= constructorParamaters)) w = Ok (obj0, w0)
    /\ obj !! "labelDirection" =
       Some (match labelDirection data with
             | Some d => if String.eqb d "" then derivedLabelDirection obj0 else JStr d
             | None => derivedLabelDirection obj0
             end).
Proof.
  intros Hmod Hfix Hvals Hnodes Hrun.
  destruct (loadModule_property "labelDirection" _ _ _ _ _ _
              Hmod Hfix Hvals Hnodes ltac:(done) Hrun) as (obj0 & w0 & Hc & Hk).
  exists obj0, w0. split; [done|]. rewrite Hk. unfold applyDescriptor.
  rewrite lookup_insert_ne by done. rewrite lookup_insert_eq.
  unfold derivedLabelDirection, get_prop. rewrite lookup_insert_ne by done.
  unfold js_or. destruct (labelDirection data) as [d|]; simpl; [|done].
  now destruct (String.eqb d "").
Qed.

Lemma loadModule_labelDirection_witness :
  exists obj w',
    @loadModule Demo.imports Demo.delayed_gate 0 Demo.main_world = Ok (Some obj, w')
    /\ obj !! "labelDirection" = Some (JStr "UP").
Proof.
  destruct (loaded_some "labelDirection"
              (@loadModule Demo.imports Demo.delayed_gate 0 Demo.main_world))
    as (obj & w' & Hrun); [vm_compute; eexists; reflexivity|].
  exists obj, w'. split; [exact Hrun|].
  destruct (@loadModule_labelDirection Demo.imports Demo.delayed_gate 0%nat
              Demo.main_world (Demo.gate "AndGate") obj w' demo_modules_AndGate
              (demo_gate_fixDirection "labelDirection")
              ltac:(apply not_elem_of_nil) ltac:(apply not_elem_of_nil) Hrun)
    as (obj0 & w0 & _ & Hdir).
  exact Hdir.
Defined.

Example loadModule_derived_labelDirection :
  loaded_prop "labelDirection"
    (@loadModule Demo.imports (Demo.element "AndGate") 0 Demo.main_world)
  = Some (JStr "LEFT").
Proof. vm_compute. reflexivity. Qed.

Lemma restoreValues_lookup vals : forall (obj : gmap string jsval) k v,
  NoDup vals.*1 -> (k, v) ∈ vals -> restoreValues vals obj !! k = Some v.
Proof.
  induction vals as [|[prop u] vals IH]; intros obj k v Hnodup Hin;
    [now apply elem_of_nil in Hin|].
  simpl in *. apply NoDup_cons in Hnodup as [Hfresh Hnodup].
  apply elem_of_cons in Hin as [[= -> ->]|Hin].
  - rewrite restoreValues_other by done. apply lookup_insert_eq.
  - now apply IH.
Qed.

(** X4: a property override wins over what the constructor and the
    descriptor's own fields set: after [loadModule] every property named in
    [customData.values] holds the value given there, the label and the delay
    included, unless a node override or the subcircuit step writes the same
    property afterwards. *)
Theorem loadModule_values `{Imports} data scope w C cd vals k v obj w' :
  modules !! propertyKey (rectifyObjectType (objectType data)) = Some C ->
  customData data = Some cd ->
  values cd = Some vals ->
  NoDup vals.*1 ->
  (k, v) ∈ vals ->
  k ∉ (default [] (nodes cd)).*1 ->
  k ≠ "subcircuitMetadata" ->
  loadModule data scope w = Ok (Some obj, w') ->
  obj !! k = Some v.
Proof.
  intros Hmod Hcd Hvals Hnodup Hin Hnodes Hsub Hrun.
  unfold loadModule in Hrun. rewrite Hmod, Hcd in Hrun. simpl in Hrun.
  rewrite Hvals in Hrun.
  destruct (constructModule C data scope w) as [[obj1 w1]| |];
    simpl in Hrun; try done.
  destruct (match nodes cd with
            | Some ns => replaceNodes ns (restoreValues vals obj1) w1
            | None => Ok (restoreValues vals obj1, w1)
            end) as [[obj3 w3]| |] eqn:Hrep; simpl in Hrun; try done.
  assert (H3 : obj3 !! k = Some v).
  { destruct (nodes cd) as [ns|].
    - rewrite (replaceNodes_other _ _ _ _ _ _ Hrep Hnodes).
      now apply restoreValues_lookup.
    - injection Hrep as <- <-. now apply restoreValues_lookup. }
  injection Hrun as <- <-.
  destruct (truthy (subcircuitMetadata data)); [|done].
  now rewrite lookup_insert_ne.
Qed.

Lemma loadModule_values_witness :
  exists obj w',
    @loadModule Demo.imports Demo.valued_gate 0 Demo.main_world = Ok (Some obj, w')
    /\ obj !! "label" = Some (JStr "h").
Proof.
  destruct (loaded_some "label"
              (@loadModule Demo.imports Demo.valued_gate 0 Demo.main_world))
    as (obj & w' & Hrun); [vm_compute; eexists; reflexivity|].
  exists obj, w'. split; [exact Hrun|].
  refine (@loadModule_values Demo.imports Demo.valued_gate 0%nat Demo.main_world
            (Demo.gate "AndGate") _ _ "label" (JStr "h") obj w'
            demo_modules_AndGate eq_refl eq_refl _ _ _ _ Hrun).
  - apply (bool_decide_unpack _). vm_compute. exact I.
  - right. left.
  - apply not_elem_of_nil.
  - discriminate.
Defined.

(** X5: subcircuit metadata that is truthy is attached last and verbatim:
    whatever the constructor, the property overrides and the node overrides
    did, the element's [subcircuitMetadata] is the descriptor's. *)
Theorem loadModule_subcircuitMetadata `{Imports} data scope w obj w' :
  truthy (subcircuitMetadata data) = true ->
  loadModule data scope w = Ok (Some obj, w') ->
  obj !! "subcircuitMetadata" = Some (subcircuitMetadata data).
Proof.
  intros Hmd Hrun. unfold loadModule in Hrun.
  destruct (modules !! propertyKey (rectifyObjectType (objectType data))) as [C|]; [|done].
  destruct (constructModule C data scope w) as [[obj1 w1]| |];
    simpl in Hrun; try done.
  destruct (match customData data ≫= nodes with
            | Some ns => replaceNodes ns _ w1
            | None => Ok (_, w1)
            end) as [[obj3 w3]| |]; simpl in Hrun; try done.
  rewrite Hmd in Hrun. injection Hrun as <- <-. apply lookup_insert_eq.
Qed.

Lemma loadModule_subcircuitMetadata_witness :
  exists obj w',
    @loadModule Demo.imports Demo.valued_gate 0 Demo.main_world = Ok (Some obj, w')
    /\ obj !! "subcircuitMetadata" = Some (JObj 7).
Proof.
  destruct (loaded_some "label"
              (@loadModule Demo.imports Demo.valued_gate 0 Demo.main_world))
    as (obj & w' & Hrun); [vm_compute; eexists; reflexivity|].
  exists obj, w'. split; [exact Hrun|].
  exact (@loadModule_subcircuitMetadata Demo.imports Demo.valued_gate 0%nat
           Demo.main_world obj w' eq_refl Hrun).
Defined.

(** ** Element loops of the scope orchestrator *)


(** X6: an exception while one element is loaded is not skipped like an
    unknown type: it ends the element loop, the elements after it and the
    categories after its category are not loaded, and the exception is the
    outcome. *)
Theorem loadAllModules_exception `{Imports} ML1 m ML2 data scope w w0 w1
    before d after e :
  loadAllModules ML1 data scope w = Ok w0 ->
  ScopeData.elements data !! m = Some (before ++ d :: after)%list ->
  m ≠ "SubCircuit" ->
  loadModules before scope w0 = Ok w1 ->
  loadModule d scope w1 = Throw e ->
  loadAllModules (ML1 ++ m :: ML2)%list data scope w = Throw e.
Proof.
  intros Hfirst Hds Hsub Hbefore Hthrow.
  rewrite loadAllModules_app, Hfirst. simpl. rewrite Hds.
  apply String.eqb_neq in Hsub. rewrite Hsub.
  rewrite loadModules_app, Hbefore. simpl. now rewrite Hthrow.
Qed.

Lemma loadAllModules_exception_witness :
  @loadAllModules Demo.imports ["Input"; "Output"; "AndGate"; "DflipFlop"]
    (Demo.scope_with "AndGate" [Demo.element "Buzzer"; Demo.broken_gate; Demo.wired_gate])
    0 Demo.three_nodes
  = Throw "TypeError: no node at this index".
Proof.
  assert (Hfact : (fun w1 => tt)
            <$> @loadModules Demo.imports [Demo.element "Buzzer"] 0 Demo.three_nodes
          = Ok tt) by (vm_compute; reflexivity).
  destruct (@loadModules Demo.imports [Demo.element "Buzzer"] 0 Demo.three_nodes)
    as [w1| |] eqn:Hbefore; try discriminate.
  assert (Hw1 : w1 = console_error "Module type Buzzer not found" Demo.three_nodes).
  { simpl in Hbefore. injection Hbefore as <-. reflexivity. }
  refine (@loadAllModules_exception Demo.imports ["Input"; "Output"] "AndGate"
            ["DflipFlop"]
            (Demo.scope_with "AndGate"
               [Demo.element "Buzzer"; Demo.broken_gate; Demo.wired_gate])
            0%nat Demo.three_nodes Demo.three_nodes w1
            [Demo.element "Buzzer"] Demo.broken_gate [Demo.wired_gate] _
            _ _ ltac:(discriminate) Hbefore _).
  - vm_compute. reflexivity.
  - apply lookup_insert_eq.
  - rewrite Hw1. vm_compute. reflexivity.
Defined.

(** X7: the loop over an index sequence writes only the positions it has an
    index for: the property array never shrinks (it grows when there are more
    indices than positions), and the positions before the start and beyond
    the sequence keep their values. *)
Theorem replaceEach_frame `{Imports} ns : forall i arr w arr' w',
  (i <= length arr)%nat ->
  replaceEach ns i arr w = Ok (arr', w') ->
  length arr' = Nat.max (length arr) (i + length ns)
  /\ forall j, (j < i \/ i + length ns <= j)%nat -> arr' !! j = arr !! j.
Proof.
  induction ns as [|n ns IH]; intros i arr w arr' w' Hi Hrun; simpl in Hrun.
  - injection Hrun as <- <-. split; [simpl; lia | done].
  - destruct (replace _ n w) as [[v w1]| |]; simpl in Hrun; try done.
    assert (Hset : length (js_array_set arr i v) = Nat.max (length arr) (S i)
                   /\ forall j, j ≠ i -> js_array_set arr i v !! j = arr !! j).
    { unfold js_array_set. case_decide as Hlt.
      - rewrite length_insert. split; [lia|].
        intros j Hj. now apply list_lookup_insert_ne.
      - assert (i = length arr) as -> by lia. rewrite Nat.sub_diag. simpl.
        rewrite length_app. simpl. split; [lia|]. intros j Hj.
        destruct (decide (j < length arr)%nat).
        + now rewrite lookup_app_l.
        + rewrite lookup_ge_None_2 by (rewrite length_app; simpl; lia).
          symmetry. apply lookup_ge_None_2. lia. }
    destruct Hset as [Hlen Hother].
    destruct (IH (S i) _ w1 arr' w' ltac:(rewrite Hlen; lia) Hrun)
      as [Hlen' Hframe].
    split; [rewrite Hlen', Hlen; simpl; lia|].
    intros j Hj. rewrite Hframe by (simpl in Hj; lia).
    apply Hother. simpl in Hj. lia.
Qed.

Lemma replaceEach_frame_witness :
  exists arr' w',
    @replaceEach Demo.imports [JNum 0] 0 [JNode 2; JNode 1] Demo.three_nodes
      = Ok (arr', w')
    /\ length arr' = 2%nat /\ arr' !! 1%nat = Some (JNode 1).
Proof.
  assert (Hfact : (fun _ => tt)
            <$> @replaceEach Demo.imports [JNum 0] 0 [JNode 2; JNode 1] Demo.three_nodes
          = Ok tt) by (vm_compute; reflexivity).
  destruct (@replaceEach Demo.imports [JNum 0] 0 [JNode 2; JNode 1] Demo.three_nodes)
    as [[arr' w']| |] eqn:Hrun; try discriminate.
  destruct (@replaceEach_frame Demo.imports [JNum 0] 0%nat [JNode 2; JNode 1]
              Demo.three_nodes arr' w' ltac:(simpl; lia) Hrun) as [Hlen Hframe].
  exists arr', w'. split; [reflexivity|]. split; [exact Hlen|].
  apply (Hframe 1%nat). right. simpl. lia.
Defined.

(** ** Graph repair *)

(** X9: only invalid nodes leave the node set: provided [Node.delete] does
    not cascade (deleting a node takes no other node out of the node set
    and leaves the kind and the parent of the other nodes alone), a node
    that [removeBugNodes] takes out of the node set is not internal and has
    the generic parent. *)
Theorem removeBugNodes_deletes_only_invalid `{Imports} (fuel : nat) (scope : ref)
    (w w' : World) :
  deletes_no_other scope node_delete ->
  removeBugNodes fuel scope w = Ok w' ->
  forall r, r ∈ allNodes_of scope w -> r ∉ allNodes_of scope w' ->
    exists node, node_heap w !! r = Some node
      /\ type node <> 2
      /\ parent_objectType (parent node) = "CircuitElement".
Proof.
  unfold removeBugNodes, get_scope. intros Hdelete Hrun r Hin Hout.
  destruct (scopes w !! scope) as [s|]; simpl in Hrun; [|done].
  pose proof (removeBugNodes_loop_deletes scope Hdelete _ _ _ _ _ Hrun r Hin Hout)
    as Hbug.
  apply fmap_Some in Hbug as (node & Hnode & Hbug). exists node.
  split; [exact Hnode|]. unfold isBugNode in Hbug. symmetry in Hbug.
  apply andb_true_iff in Hbug as [Hty Hpar].
  apply negb_true_iff, Z.eqb_neq in Hty. apply String.eqb_eq in Hpar. done.
Qed.

Lemma removeBugNodes_deletes_only_invalid_witness :
  exists w',
    @removeBugNodes Demo.imports 16 0 Demo.valid_then_invalid = Ok w'
    /\ forall r, r ∈ allNodes_of 0 Demo.valid_then_invalid ->
         r ∉ allNodes_of 0 w' ->
         exists node, node_heap Demo.valid_then_invalid !! r = Some node
           /\ type node <> 2
           /\ parent_objectType (parent node) = "CircuitElement".
Proof.
  assert (Hfact : (fun _ => tt)
            <$> @removeBugNodes Demo.imports 16 0 Demo.valid_then_invalid = Ok tt)
    by (vm_compute; reflexivity).
  destruct (@removeBugNodes Demo.imports 16 0 Demo.valid_then_invalid)
    as [w'| |] eqn:Hrun; try discriminate.
  exists w'. split; [reflexivity|].
  exact (@removeBugNodes_deletes_only_invalid Demo.imports 16 0%nat
           Demo.valid_then_invalid w' (delete_node_no_other 0%nat) Hrun).
Defined.

(** X8: on a scope that owns the distinct nodes of its node set, and
    provided [Node.delete] deletes one node (it takes exactly the node out
    of the node set and leaves the other node objects as they are: no
    cascade), [removeBugNodes] returns (fuel (n+1)^2 is enough for n nodes)
    and leaves this node set: when the first node is valid, the valid nodes
    in their order; when the first node is invalid, the node after it,
    unexamined, followed by the valid ones among the rest.  The nodes that
    stay are the node objects they were. *)
Theorem removeBugNodes_node_set `{Imports} (fuel : nat) (scope : ref) (w : World)
    (s : Scope) :
  deletes_one_node scope node_delete ->
  scopes w !! scope = Some s ->
  NoDup (allNodes s) ->
  (forall r, r ∈ allNodes s -> owned_by scope w r) ->
  ((length (allNodes s) + 1) ^ 2 <= fuel)%nat ->
  exists w',
    removeBugNodes fuel scope w = Ok w'
    /\ allNodes_of scope w' = repaired w (allNodes s)
    /\ forall r, r ∈ allNodes_of scope w' -> node_identity w' r = node_identity w r.
Proof.
  intros Hdelete Hs Hnodup Hown Hfuel.
  destruct (removeBugNodes_result scope w Hdelete fuel s Hs Hnodup Hown Hfuel)
    as (w' & Hrun & _ & Hnodes & Hid).
  exists w'. split; [exact Hrun|]. split; [exact Hnodes|].
  intros r Hr. apply Hid. now rewrite <- Hnodes.
Qed.

Lemma demo_valid_then_invalid_owned r :
  r ∈ [9; 10; 11]%nat -> owned_by 0 Demo.valid_then_invalid r.
Proof.
  intros Hr. unfold owned_by.
  repeat (apply elem_of_cons in Hr as [->|Hr];
          [eexists; split; [vm_compute; reflexivity | reflexivity]|]).
  now apply elem_of_nil in Hr.
Qed.

Lemma demo_valid_then_invalid_scope :
  scopes Demo.valid_then_invalid !! O
  = Some (set_allNodes [9; 10; 11]%nat (Demo.empty_scope "main")).
Proof. apply lookup_insert_eq. Qed.

Lemma removeBugNodes_node_set_witness :
  exists w',
    @removeBugNodes Demo.imports 16 0 Demo.valid_then_invalid = Ok w'
    /\ allNodes_of 0 w' = [9%nat].
Proof.
  destruct (@removeBugNodes_node_set Demo.imports 16 0%nat Demo.valid_then_invalid
              _ (delete_node_one 0%nat) demo_valid_then_invalid_scope)
    as (w' & Hrun & Hnodes & _).
  - apply (bool_decide_unpack _). vm_compute. exact I.
  - exact demo_valid_then_invalid_owned.
  - simpl. lia.
  - exists w'. split; [exact Hrun|]. rewrite Hnodes. vm_compute. reflexivity.
Defined.

(** X11: when the first node of the node set is valid (or the node set is
    empty), and provided [Node.delete] deletes one node (no cascade), Graph
    Repair does what it is for: it returns with exactly the valid nodes, in
    their order, so no invalid node is left. *)
Theorem removeBugNodes_repairs `{Imports} (fuel : nat) (scope : ref) (w : World)
    (s : Scope) :
  deletes_one_node scope node_delete ->
  scopes w !! scope = Some s ->
  NoDup (allNodes s) ->
  (forall r, r ∈ allNodes s -> owned_by scope w r) ->
  (forall r0, head (allNodes s) = Some r0 -> is_valid w r0 = true) ->
  ((length (allNodes s) + 1) ^ 2 <= fuel)%nat ->
  exists w',
    removeBugNodes fuel scope w = Ok w'
    /\ allNodes_of scope w' = filter (fun r => is_valid w r) (allNodes s)
    /\ forall r, r ∈ allNodes_of scope w' -> is_valid w' r = true.
Proof.
  intros Hdelete Hs Hnodup Hown Hhead Hfuel.
  destruct (removeBugNodes_result scope w Hdelete fuel s Hs Hnodup Hown Hfuel)
    as (w' & Hrun & _ & Hnodes & Hid).
  exists w'. split; [exact Hrun|].
  assert (Hrep : repaired w (allNodes s) = filter (fun r => is_valid w r) (allNodes s)).
  { destruct (allNodes s) as [|r0 rest]; [done|]. simpl.
    rewrite (Hhead r0 eq_refl), filter_cons_True; [done|].
    apply Is_true_true. now apply Hhead. }
  rewrite Hrep in Hnodes, Hid. split; [exact Hnodes|].
  intros r Hr. rewrite Hnodes in Hr.
  rewrite (node_identity_valid w w' r (Hid r Hr)).
  apply list_elem_of_filter in Hr as [Hv _]. now apply Is_true_true.
Qed.

Lemma removeBugNodes_repairs_witness :
  exists w',
    @removeBugNodes Demo.imports 16 0 Demo.valid_then_invalid = Ok w'
    /\ forall r, r ∈ allNodes_of 0 w' -> is_valid w' r = true.
Proof.
  destruct (@removeBugNodes_repairs Demo.imports 16 0%nat Demo.valid_then_invalid
              _ (delete_node_one 0%nat) demo_valid_then_invalid_scope)
    as (w' & Hrun & _ & Hvalid).
  - apply (bool_decide_unpack _). vm_compute. exact I.
  - exact demo_valid_then_invalid_owned.
  - intros r0 [= <-]. vm_compute. reflexivity.
  - simpl. lia.
  - exists w'. split; [exact Hrun | exact Hvalid].
Defined.

Section ValidUnchanged.
Context `{Imports}.
Variables (scope : ref) (w : World) (s : Scope).
Hypothesis Hs : scopes w !! scope = Some s.
Hypothesis Hvalid : forall r, r ∈ allNodes s -> is_valid w r = true.

Lemma removeBugNodes_loop_valid fuel : forall i,
  (length (allNodes s) - i < fuel)%nat ->
  removeBugNodes_loop fuel scope i (length (allNodes s)) w = Ok w.
Proof.
  induction fuel as [|fuel IH]; intros i Hfuel; [lia|].
  simpl. destruct (i <? length (allNodes s))%nat eqn:Hi; [|done].
  apply Nat.ltb_lt in Hi.
  destruct (lookup_lt_is_Some_2 (allNodes s) i Hi) as [r Hr].
  pose proof (Hvalid r (list_elem_of_lookup_2 _ _ _ Hr)) as Hv.
  unfold is_valid in Hv.
  destruct (node_heap w !! r) as [node|] eqn:Hnode; [|done].
  apply negb_true_iff in Hv.
  unfold removeBugNodes_turn, get_scope, get_node.
  rewrite Hs. simpl. rewrite Hr, Hnode. simpl. rewrite Hv, Hs. simpl.
  rewrite Nat.eqb_refl. simpl. apply IH. lia.
Qed.
End ValidUnchanged.

(** X10: a node set without invalid nodes is left alone: whatever
    [Node.delete] does, [removeBugNodes] never calls it on a valid node, and
    on a scope whose nodes are all valid it returns the world unchanged
    after one scan (fuel n+1 for n nodes). *)
Theorem removeBugNodes_valid_unchanged `{Imports} (fuel : nat) (scope : ref)
    (w : World) (s : Scope) :
  scopes w !! scope = Some s ->
  (forall r, r ∈ allNodes s -> is_valid w r = true) ->
  (length (allNodes s) < fuel)%nat ->
  removeBugNodes fuel scope w = Ok w.
Proof.
  intros Hs Hvalid Hfuel. unfold removeBugNodes, get_scope. rewrite Hs. simpl.
  apply (removeBugNodes_loop_valid scope w s Hs Hvalid). lia.
Qed.

Lemma demo_three_nodes_scope :
  scopes Demo.three_nodes !! O
  = Some (set_allNodes [0; 1; 2]%nat (Demo.empty_scope "main")).
Proof. apply lookup_insert_eq. Qed.

Lemma removeBugNodes_valid_unchanged_witness :
  @removeBugNodes Demo.imports 4 0 Demo.three_nodes = Ok Demo.three_nodes.
Proof.
  refine (@removeBugNodes_valid_unchanged Demo.imports 4 0%nat Demo.three_nodes
            _ demo_three_nodes_scope _ _).
  - intros r Hr. simpl in Hr.
    repeat (apply elem_of_cons in Hr as [->|Hr]; [vm_compute; reflexivity|]).
    now apply elem_of_nil in Hr.
  - simpl. lia.
Defined.

(** ** Layout resolver *)

(** X12: a persisted layout is adopted as it is: the scope's layout is the
    descriptor's, with the title flag set to true only when the descriptor
    has none; no port is placed and no id is generated. *)
Theorem loadScope_persisted_layout `{Imports} (fuel : nat) (scope : ref)
    (data : ScopeData.t) (w w1 : World) (s : Scope) (l : Layout) :
  ScopeData.layout data = Some l ->
  before_layout fuel scope data w = Ok w1 ->
  scopes w1 !! scope = Some s ->
  exists w' s',
    loadScope fuel scope data w = Ok w'
    /\ scopes w' !! scope = Some s'
    /\ layout s' = Some {| width := width l; height := height l;
                           title_x := title_x l; title_y := title_y l;
                           titleEnabled := Some (default true (titleEnabled l)) |}
    /\ Input s' = Input s /\ Output s' = Output s
    /\ generated w' = generated w1.
Proof.
  intros Hlay Hbefore Hs.
  destruct (resolveLayout_persisted scope data w1 s l Hlay Hs)
    as (w' & Hres & Hsc & Hgen & _).
  exists w', (set_layout (Some (defaultTitleEnabled l)) s).
  split; [now rewrite loadScope_split, Hbefore|].
  split; [now rewrite Hsc, lookup_insert_eq|].
  split; [|done]. simpl. f_equal. unfold defaultTitleEnabled.
  destruct l as [wd ht tx ty [b|]]; reflexivity.
Qed.

Lemma loadScope_persisted_layout_witness :
  exists w' s',
    @loadScope Demo.imports 1 0 Demo.laid_out_scope Demo.two_in_one_out = Ok w'
    /\ scopes w' !! O = Some s'
    /\ layout s' = Some {| width := 40; height := 80; title_x := 20; title_y := 9;
                           titleEnabled := Some true |}.
Proof.
  assert (Hran : (fun w1 => scopes w1 !! O)
            <$> @before_layout Demo.imports 1 0 Demo.laid_out_scope Demo.two_in_one_out
          = Ok (scopes Demo.two_in_one_out !! O)) by (vm_compute; reflexivity).
  destruct (@before_layout Demo.imports 1 0 Demo.laid_out_scope Demo.two_in_one_out)
    as [w1| |] eqn:Hbefore; try discriminate.
  injection Hran as Hs.
  destruct (@loadScope_persisted_layout Demo.imports 1 0%nat Demo.laid_out_scope
              Demo.two_in_one_out w1 _ _ eq_refl Hbefore Hs)
    as (w' & s' & Hload & Hsc & Hlayout & _).
  exists w', s'. split; [exact Hload|]. split; [exact Hsc | exact Hlayout].
Defined.

Section LayoutDefined.
Context `{Imports}.

Lemma resolveLayout_needs_scope scope data w w' :
  resolveLayout scope data w = Ok w' -> is_Some (scopes w !! scope).
Proof.
  intros Hres. destruct (scopes w !! scope) as [s|] eqn:Hs; [eauto|].
  exfalso. unfold resolveLayout, generateLayout, update_scope, get_scope in Hres.
  rewrite Hs in Hres. now destruct (ScopeData.layout data).
Qed.
End LayoutDefined.

(** X13: whenever [loadScope] returns, the scope has a layout and the title
    flag of that layout is set, whether the layout was persisted or
    generated. *)
Theorem loadScope_layout_defined `{Imports} (fuel : nat) (scope : ref)
    (data : ScopeData.t) (w w' : World) :
  loadScope fuel scope data w = Ok w' ->
  exists s' l b,
    scopes w' !! scope = Some s' /\ layout s' = Some l /\ titleEnabled l = Some b.
Proof.
  rewrite loadScope_split. intros Hrun.
  destruct (before_layout fuel scope data w) as [w1| |]; simpl in Hrun; try done.
  destruct (resolveLayout_needs_scope _ _ _ _ Hrun) as [s Hs].
  destruct (ScopeData.layout data) as [l|] eqn:Hlay.
  - destruct (resolveLayout_persisted scope data w1 s l Hlay Hs)
      as (w2 & Hres & Hsc & _).
    rewrite Hres in Hrun. injection Hrun as <-.
    eexists _, _, (default true (titleEnabled l)).
    split; [rewrite Hsc; apply lookup_insert_eq|]. split; [reflexivity|].
    unfold defaultTitleEnabled. now destruct l as [wd ht tx ty [b|]].
  - destruct (resolveLayout_generated scope data w1 s Hlay Hs)
      as (w2 & Hres & Hsc & _).
    rewrite Hres in Hrun. injection Hrun as <-.
    eexists _, _, true.
    split; [rewrite Hsc; apply lookup_insert_eq|]. split; reflexivity.
Qed.

Lemma loadScope_layout_defined_witness :
  exists w' s' l b,
    @loadScope Demo.imports 1 0 Demo.laid_out_scope Demo.two_in_one_out = Ok w'
    /\ scopes w' !! O = Some s' /\ layout s' = Some l /\ titleEnabled l = Some b.
Proof.
  assert (Hran : (fun _ => tt)
            <$> @loadScope Demo.imports 1 0 Demo.laid_out_scope Demo.two_in_one_out
          = Ok tt) by (vm_compute; reflexivity).
  destruct (@loadScope Demo.imports 1 0 Demo.laid_out_scope Demo.two_in_one_out)
    as [w'| |] eqn:Hrun; try discriminate.
  destruct (@loadScope_layout_defined Demo.imports 1 0%nat Demo.laid_out_scope
              Demo.two_in_one_out w' Hrun) as (s' & l & b & Hsc & Hl & Hb).
  exists w', s', l, b. split; [reflexivity|]. split; [exact Hsc|].
  split; [exact Hl | exact Hb].
Defined.

Section LayoutIds.
Context `{Imports}.

Lemma port_ids_placed px h count ports : forall i first,
  imap (fun j => placed px h count (i + j) (first + j)) ports ≫=
    (fun p => match layoutProperties p with
              | Some lp => [lp_id lp]
              | None => []
              end)
  = generateId <$> seq first (length ports).
Proof.
  induction ports as [|p ports IH]; intros i first; [done|].
  simpl. rewrite Nat.add_0_r. f_equal.
  etransitivity; [|exact (IH (S i) (S first))].
  apply (f_equal (list_bind _ _ _)). apply imap_ext.
  intros j q _. simpl. now rewrite <- !Nat.add_succ_r.
Qed.

Lemma port_ids_place_ports px h first o :
  port_ids (place_ports px h first o) = generateId <$> seq first (length_or_0 o).
Proof.
  destruct o as [ports|]; [|done]. unfold port_ids, place_ports. simpl.
  apply (port_ids_placed px h (length ports) ports 0 first).
Qed.
End LayoutIds.

(** X14: the ids of a generated layout are pairwise distinct, over the input
    and the output ports together, provided [generateId] never returns the
    same id twice. *)
Theorem loadScope_generated_ids_distinct `{Imports} (fuel : nat) (scope : ref)
    (data : ScopeData.t) (w w1 : World) (s : Scope) :
  (forall n m, generateId n = generateId m -> n = m) ->
  ScopeData.layout data = None ->
  before_layout fuel scope data w = Ok w1 ->
  scopes w1 !! scope = Some s ->
  exists w' s',
    loadScope fuel scope data w = Ok w'
    /\ scopes w' !! scope = Some s'
    /\ length (port_ids (Input s') ++ port_ids (Output s'))
       = (length_or_0 (Input s) + length_or_0 (Output s))%nat
    /\ NoDup (port_ids (Input s') ++ port_ids (Output s')).
Proof.
  intros Hinj Hlay Hbefore Hs.
  destruct (resolveLayout_generated scope data w1 s Hlay Hs)
    as (w' & Hres & Hsc & _).
  exists w', (with_generated_layout (generated w1) s).
  split; [now rewrite loadScope_split, Hbefore|].
  split; [now rewrite Hsc, lookup_insert_eq|].
  unfold with_generated_layout. simpl.
  rewrite !port_ids_place_ports, <- fmap_app, <- seq_app.
  split; [now rewrite length_fmap, length_seq|].
  apply NoDup_fmap_2; [intros n m; apply Hinj | apply NoDup_seq].
Qed.

Lemma loadScope_generated_ids_distinct_witness :
  exists w' s',
    @loadScope Demo.imports 1 0 (Demo.bare_scope "main") Demo.two_in_one_out = Ok w'
    /\ scopes w' !! O = Some s'
    /\ NoDup (port_ids (Input s') ++ port_ids (Output s')).
Proof.
  assert (Hran : (fun w1 => scopes w1 !! O)
            <$> @before_layout Demo.imports 1 0 (Demo.bare_scope "main")
                  Demo.two_in_one_out
          = Ok (scopes Demo.two_in_one_out !! O)) by (vm_compute; reflexivity).
  destruct (@before_layout Demo.imports 1 0 (Demo.bare_scope "main")
              Demo.two_in_one_out) as [w1| |] eqn:Hbefore; try discriminate.
  injection Hran as Hs.
  destruct (@loadScope_generated_ids_distinct Demo.imports 1 0%nat
              (Demo.bare_scope "main") Demo.two_in_one_out w1 _
              ltac:(intros n m Heq; injection Heq; lia) eq_refl Hbefore Hs)
    as (w' & s' & Hload & Hsc & _ & Hnodup).
  exists w', s'. split; [exact Hload|]. split; [exact Hsc | exact Hnodup].
Defined.

(** X15: the generated port positions fit the generated height: on either
    side, with [n] ports of a scope with [a] inputs and [b] outputs, every
    port lies at least 20 from the top and from the bottom edge, consecutive
    ports are 20 apart, and the ports are centred (the i-th from the top and
    the i-th from the bottom are equally far from the middle). *)
Theorem portY_inside (a b n i : nat) :
  n = a \/ n = b ->
  (i < n)%nat ->
  let h := layoutHeight a b in
  20 <= portY h n i <= h - 20
  /\ portY h n (S i) - portY h n i = 20
  /\ portY h n i + portY h n (n - 1 - i) = h.
Proof.
  intros Hn Hi h. pose proof (layoutHeight_even a b) as Heven. fold h in Heven.
  assert (Hmax : Z.of_nat n * 20 + 20 <= h) by (subst h; unfold layoutHeight; lia).
  unfold portY. split; [lia|]. split; [lia|].
  replace (Z.of_nat (n - 1 - i)) with (Z.of_nat n - 1 - Z.of_nat i) by lia. lia.
Qed.

Lemma portY_inside_witness :
  20 <= portY (layoutHeight 2 1) 1 0 <= layoutHeight 2 1 - 20.
Proof.
  exact (proj1 (portY_inside 2 1 1 0 ltac:(now right) ltac:(lia))).
Defined.

(** ** Project loader *)

Section LoadSettings.
Context `{Imports}.

Lemma reorderTabs_clockEnabled data w :
  clockEnabled (reorderTabs data w) = clockEnabled w.
Proof. unfold reorderTabs. now destruct (orderedTabs data). Qed.

Lemma reorderTabs_globalScope data w :
  globalScope (reorderTabs data w) = globalScope w.
Proof. unfold reorderTabs. now destruct (orderedTabs data). Qed.
End LoadSettings.

(** X16: [load] honours an explicit clock flag, [false] included, and enables
    the clock when the project has none (the flag is tested for presence,
    not for truth), provided the external calls leave the flag alone. *)
Theorem load_clockEnabled `{Imports} (fuel : nat) (data : ProjectData)
    (w w1 : World) :
  (forall name args w0, clockEnabled (extern name args w0) = clockEnabled w0) ->
  loadScopes fuel (project_scopes data) (load_start data w) = Ok w1 ->
  exists w',
    load fuel (Some data) w = Ok w'
    /\ clockEnabled w' = match project_clockEnabled data with
                         | Some b => b
                         | None => true
                         end.
Proof.
  intros Hextern Hscopes. unfold load, load_start in *. rewrite Hscopes. simpl.
  eexists. split; [reflexivity|].
  assert (Hif : forall (c : bool) name args (w0 : World),
            clockEnabled (if c then extern name args w0 else w0) = clockEnabled w0)
    by (intros [] ? ? ?; auto).
  now rewrite Hextern, Hif, !Hextern, Hif, reorderTabs_clockEnabled, Hif.
Qed.

Lemma demo_loadScopes_runs (p : ProjectData) (fuel : nat) :
  (fun _ => tt) <$> @loadScopes Demo.imports fuel (project_scopes p)
                      (@load_start Demo.imports p Demo.empty_world) = Ok tt ->
  exists w1, @loadScopes Demo.imports fuel (project_scopes p)
               (@load_start Demo.imports p Demo.empty_world) = Ok w1.
Proof.
  destruct (@loadScopes Demo.imports fuel (project_scopes p) _) as [w1| |];
    [eauto | discriminate..].
Qed.

Lemma load_clockEnabled_witness :
  exists w',
    @load Demo.imports 4 (Some Demo.clock_off) Demo.empty_world = Ok w'
    /\ clockEnabled w' = false.
Proof.
  destruct (demo_loadScopes_runs Demo.clock_off 4 ltac:(vm_compute; reflexivity))
    as [w1 Hscopes].
  exact (@load_clockEnabled Demo.imports 4 Demo.clock_off Demo.empty_world w1
           (fun _ _ _ => eq_refl) Hscopes).
Defined.

(** X21: without a persisted tab order [load] does not sort: the circuit
    list stays in the order in which the circuits were created (provided the
    external calls leave the list alone). *)
Theorem load_keeps_creation_order `{Imports} (fuel : nat) (data : ProjectData)
    (w w1 : World) :
  orderedTabs data = None ->
  (forall name args w0, circuit_list (extern name args w0) = circuit_list w0) ->
  loadScopes fuel (project_scopes data) (load_start data w) = Ok w1 ->
  exists w',
    load fuel (Some data) w = Ok w' /\ circuit_list w' = circuit_list w1.
Proof.
  intros Htabs Hextern Hscopes. unfold load, load_start in *.
  rewrite Hscopes. simpl. eexists. split; [reflexivity|].
  assert (Hif : forall (c : bool) name args (w0 : World),
            circuit_list (if c then extern name args w0 else w0) = circuit_list w0)
    by (intros [] ? ? ?; auto).
  rewrite Hextern, Hif, !Hextern, Hif. unfold reorderTabs. rewrite Htabs.
  rewrite Hif. simpl. apply Hextern.
Qed.

Lemma load_keeps_creation_order_witness :
  exists w1 w',
    @loadScopes Demo.imports 4 (project_scopes Demo.clock_off)
      (@load_start Demo.imports Demo.clock_off Demo.empty_world) = Ok w1
    /\ @load Demo.imports 4 (Some Demo.clock_off) Demo.empty_world = Ok w'
    /\ circuit_list w' = circuit_list w1.
Proof.
  destruct (demo_loadScopes_runs Demo.clock_off 4 ltac:(vm_compute; reflexivity))
    as [w1 Hscopes].
  destruct (@load_keeps_creation_order Demo.imports 4 Demo.clock_off
              Demo.empty_world w1 eq_refl (fun _ _ _ => eq_refl) Hscopes)
    as (w' & Hload & Hlist).
  exists w1, w'. split; [exact Hscopes|]. split; [exact Hload | exact Hlist].
Defined.

Section StableSort.
Context {A : Type} (key : A -> Z).
Local Abbreviation compare := (fun a b : A => key a - key b).

Lemma sort_insert_least a l :
  Forall (fun b => key a <= key b) l -> sort_insert compare a l = a :: l.
Proof.
  intros Hall. destruct l as [|b l]; [done|]. simpl.
  apply Forall_cons in Hall as [Hab _].
  destruct (0 <? key a - key b) eqn:Hcmp; [|done].
  apply Z.ltb_lt in Hcmp. lia.
Qed.

Lemma array_sort_ordered l :
  StronglySorted (fun a b => key a <= key b) l -> array_sort compare l = l.
Proof.
  induction 1 as [|a l Hl IH Ha]; [done|].
  simpl. rewrite IH. now apply sort_insert_least.
Qed.

(** Two lists ordered by key that agree on the elements of every key, in
    their order, are equal. *)
Lemma ordered_stable_unique l1 : forall l2,
  StronglySorted (fun a b => key a <= key b) l1 ->
  StronglySorted (fun a b => key a <= key b) l2 ->
  (forall z, filter (fun a => key a = z) l1 = filter (fun a => key a = z) l2) ->
  l1 = l2.
Proof.
  induction l1 as [|a l1 IH]; intros l2 Hs1 Hs2 Hsame.
  - destruct l2 as [|b l2]; [done|].
    specialize (Hsame (key b)). rewrite filter_nil, filter_cons_True in Hsame; done.
  - destruct l2 as [|b l2].
    { specialize (Hsame (key a)).
      rewrite filter_nil, filter_cons_True in Hsame; done. }
    apply StronglySorted_inv in Hs1 as [Hs1 Ha].
    apply StronglySorted_inv in Hs2 as [Hs2 Hb].
    assert (Hkey : key a = key b).
    { assert (Hain : a ∈ b :: l2).
      { eapply list_elem_of_filter. rewrite <- (Hsame (key a)).
        rewrite filter_cons_True by done. now left. }
      assert (Hbin : b ∈ a :: l1).
      { eapply list_elem_of_filter. rewrite (Hsame (key b)).
        rewrite filter_cons_True by done. now left. }
      rewrite Forall_forall in Ha, Hb.
      apply elem_of_cons in Hain as [->|Hain]; [done|].
      apply elem_of_cons in Hbin as [->|Hbin]; [done|].
      specialize (Ha _ Hbin). specialize (Hb _ Hain). simpl in *. lia. }
    assert (Hab : a = b).
    { specialize (Hsame (key a)).
      rewrite !filter_cons_True in Hsame by done. now injection Hsame. }
    subst b. f_equal. apply IH; [done | done|].
    intros z. specialize (Hsame z). rewrite !filter_cons in Hsame.
    case_decide; [now injection Hsame | done].
Qed.
End StableSort.

(** X17: reordering the tabs is idempotent: sorting the circuit list by the
    persisted order a second time changes nothing. *)
Theorem reorderTabs_idempotent `{Imports} (data : ProjectData) (w : World) :
  reorderTabs data (reorderTabs data w) = reorderTabs data w.
Proof.
  unfold reorderTabs. destruct (orderedTabs data) as [tabs|]; [|done].
  unfold set_circuit_list. simpl. f_equal.
  change (compareTabs tabs) with (fun a b => tabKey tabs a - tabKey tabs b).
  apply array_sort_ordered, array_sort_sorted.
Qed.

(** X18: the tab order [load] produces does not depend on the sorting
    algorithm: any list that is ordered by the position of the ids in the
    persisted order and keeps, for every position (and for the unlisted
    ids), the circuits in their previous relative order is the list
    [reorderTabs] leaves; in particular a list already in that order is not
    changed. *)
Theorem reorderTabs_unique `{Imports} (data : ProjectData) (tabs : list string)
    (w : World)
    (l' : list CircuitItem) :
  orderedTabs data = Some tabs ->
  StronglySorted (fun a b => tabKey tabs a <= tabKey tabs b) l' ->
  (forall z, filter (fun a => tabKey tabs a = z) l'
             = filter (fun a => tabKey tabs a = z) (circuit_list w)) ->
  circuit_list (reorderTabs data w) = l'.
Proof.
  intros Htabs Hsorted Hstable. unfold reorderTabs. rewrite Htabs. simpl.
  change (compareTabs tabs) with (fun a b => tabKey tabs a - tabKey tabs b).
  apply (ordered_stable_unique (tabKey tabs)); [apply array_sort_sorted | done|].
  intros z. now rewrite array_sort_stable, Hstable.
Qed.

Lemma reorderTabs_unique_witness :
  circuit_list
    (@reorderTabs Demo.imports Demo.three_tabs
       (set_circuit_list [{| item_id := JStr "c"; item_name := "c" |};
                          {| item_id := JStr "a"; item_name := "a" |}]
          Demo.empty_world))
  = [{| item_id := JStr "c"; item_name := "c" |};
     {| item_id := JStr "a"; item_name := "a" |}].
Proof.
  apply (@reorderTabs_unique Demo.imports Demo.three_tabs ["c"; "a"]);
    [reflexivity | |done].
  repeat constructor. vm_compute. discriminate.
Defined.

(** X19: only the categories of the module list are loaded: element lists
    that a descriptor holds under any other tag are never looked at, so two
    descriptors that agree on the tags of the list load alike. *)
Theorem loadAllModules_only_listed `{Imports} (ML : list string)
    (data1 data2 : ScopeData.t) (scope : ref) (w : World) :
  (forall m, m ∈ ML -> ScopeData.elements data1 !! m = ScopeData.elements data2 !! m) ->
  loadAllModules ML data1 scope w = loadAllModules ML data2 scope w.
Proof.
  revert w. induction ML as [|m ML IH]; intros w Hsame; [done|].
  simpl. rewrite (Hsame m) by now left.
  destruct (match ScopeData.elements data2 !! m with
            | Some ds => _ | None => Ok w end) as [w1| |]; simpl; [|done..].
  apply IH. intros m' Hm'. apply Hsame. now right.
Qed.

Lemma loadAllModules_only_listed_witness :
  @loadAllModules Demo.imports (@moduleList Demo.imports)
    (Demo.scope_with "Buzzer" [Demo.wired_gate]) 0 Demo.three_nodes
  = @loadAllModules Demo.imports (@moduleList Demo.imports)
      (Demo.bare_scope "main") 0 Demo.three_nodes.
Proof.
  apply loadAllModules_only_listed. intros m Hm. simpl in Hm.
  repeat (apply elem_of_cons in Hm as [->|Hm]; [vm_compute; reflexivity|]).
  now apply elem_of_nil in Hm.
Defined.

Section ScopeLoop.
Context `{Imports}.

Lemma loadScopes_app fuel ds1 ds2 w :
  loadScopes fuel (ds1 ++ ds2)%list w =
  (w1 ← loadScopes fuel ds1 w; loadScopes fuel ds2 w1).
Proof.
  revert w. induction ds1 as [|d ds1 IH]; intros w; [done|].
  simpl. destruct (ScopeData.verilogMetadata d) as [vm|];
    (destruct (newCircuit _ _ _ _ w) as [[scope w1]| |]; simpl; [|done..]);
    (destruct (loadScope fuel scope d w1) as [w2| |]; simpl; [apply IH|done..]).
Qed.

End ScopeLoop.

(** X20: after the scope loop the focus is on the scope that was created
    for the last descriptor (provided the four external calls of the loop,
    [centerFocus], [update], [updateRestrictedElementsInScope] and
    [scheduleBackup], leave the focus alone). *)
Theorem loadScopes_focus_last `{Imports} (fuel : nat) (ds : list ScopeData.t)
    (d : ScopeData.t) (w w' : World) :
  (forall name args w0, name ∈ calls_of_scope_loop ->
     globalScope (extern name args w0) = globalScope w0) ->
  loadScopes fuel (ds ++ [d])%list w = Ok w' ->
  exists w0 name isVerilog isMain scope w1,
    loadScopes fuel ds w = Ok w0
    /\ newCircuit name (ScopeData.id d) isVerilog isMain w0 = Ok (scope, w1)
    /\ globalScope w' = Some scope.
Proof.
  intros Hextern Hrun. rewrite loadScopes_app in Hrun.
  destruct (loadScopes fuel ds w) as [w0| |]; simpl in Hrun; try done.
  exists w0.
  assert (Hcall : forall name args (w2 : World),
            bool_decide (name ∈ calls_of_scope_loop) = true ->
            globalScope (extern name args w2) = globalScope w2).
  { intros name args w2 Hin. apply Hextern. now apply bool_decide_eq_true in Hin. }
  assert (Hif : forall (c : bool) a1 a2 (w2 : World),
            globalScope (if c then extern "centerFocus" a1 w2
                         else extern "centerFocus" a2 w2)
            = globalScope w2) by (intros [] ? ? ?; now apply Hcall).
  destruct (ScopeData.verilogMetadata d) as [vm|];
    (destruct (newCircuit _ _ _ _ w0) as [[scope w1]| |] eqn:Hnew;
       simpl in Hrun; try done);
    (destruct (loadScope fuel scope d w1) as [w2| |]; simpl in Hrun; try done);
    injection Hrun as <-; eexists _, _, _, scope, w1;
    (split; [reflexivity|]); (split; [exact Hnew|]);
    now rewrite !Hcall, Hif by reflexivity.
Qed.

Lemma loadScopes_focus_last_witness :
  exists w' scope,
    @loadScopes Demo.imports 4 (project_scopes Demo.three_tabs)
      (@load_start Demo.imports Demo.three_tabs Demo.empty_world) = Ok w'
    /\ globalScope w' = Some scope.
Proof.
  destruct (demo_loadScopes_runs Demo.three_tabs 4 ltac:(vm_compute; reflexivity))
    as [w' Hscopes].
  destruct (@loadScopes_focus_last Demo.imports 4
              [Demo.bare_scope "a"; Demo.bare_scope "b"] (Demo.bare_scope "c")
              _ w' (fun _ _ _ _ => eq_refl) Hscopes)
    as (w0 & name & isV & isM & scope & w1 & _ & _ & Hfocus).
  exists w', scope. split; [exact Hscopes | exact Hfocus].
Defined.

(** X22: unknown types add up: a list of elements none of which has a
    registered constructor loads with one diagnostic per element, in the
    order of the list, and changes nothing else. *)
Theorem loadModules_all_unknown `{Imports} (ds : list CircuitElement)
    (scope : ref) (w : World) :
  Forall (fun d => modules !! propertyKey (rectifyObjectType (objectType d)) = None) ds ->
  exists w',
    loadModules ds scope w = Ok w'
    /\ console w' = (console w ++ (not_found <$> ds))%list
    /\ silence w' = silence w.
Proof.
  revert w. induction ds as [|d ds IH]; intros w Hall.
  - exists w. split; [done|]. split; [|done]. simpl. now rewrite app_nil_r.
  - apply Forall_cons in Hall as [Hd Hall]. simpl. unfold loadModule at 1.
    rewrite Hd. simpl.
    destruct (IH (console_error (not_found d) w) Hall) as (w' & Hrun & Hc & Hs).
    exists w'. split; [exact Hrun|]. split; [|done].
    rewrite Hc. simpl. now rewrite <- app_assoc.
Qed.

Lemma loadModules_all_unknown_witness :
  exists w',
    @loadModules Demo.imports [Demo.element "Buzzer"; Demo.element "Siren"] 0
      Demo.main_world = Ok w'
    /\ console w' = ["Module type Buzzer not found"; "Module type Siren not found"].
Proof.
  destruct (@loadModules_all_unknown Demo.imports
              [Demo.element "Buzzer"; Demo.element "Siren"] 0%nat Demo.main_world)
    as (w' & Hrun & Hconsole & _).
  - repeat apply Forall_cons_2; [| |apply Forall_nil_2]; vm_compute; reflexivity.
  - exists w'. split; [exact Hrun | exact Hconsole].
Defined.
